(** * QML / JavaScript IntelliSense: the parsing core

    A shallow embedding of [src/parser] (the JavaScript and the TypeScript
    variants are line-for-line the same program), [src/constants] and the
    pieces of [src/utils] and of the providers that the parsing core talks to.

    JavaScript strings are modelled as lists of 8-bit code units ([ascii]);
    the character classes below are the ECMAScript ones restricted to the
    code units 0..255.  Regular expressions are kept as syntax trees and run by
    a backtracking matcher that follows the ECMAScript matching order
    (greedy and lazy quantifiers, optional groups, captures, lookahead). *)

From Stdlib Require Import List Ascii String ZArith Lia Bool Arith.
Import ListNotations.

Set Implicit Arguments.

(* ------------------------------------------------------------------ *)
(** ** Strings *)

Definition str := list ascii.

(** A string literal of the source. *)
Definition js (s : string) : str := list_ascii_of_string s.

Definition str_eqb (a b : str) : bool :=
  if list_eq_dec ascii_dec a b then true else false.

Definition code (c : ascii) : N := N_of_ascii c.

(** WhiteSpace and LineTerminator code units below 256: TAB, LF, VT, FF, CR,
    SP and NBSP.  This is the set of [\s] and of [String.prototype.trim]. *)
Definition isSpace (c : ascii) : bool :=
  match code c with
  | 9%N | 10%N | 11%N | 12%N | 13%N | 32%N | 160%N => true
  | _ => false
  end.

(** [\w]: ASCII letters, digits and the underscore. *)
Definition isWord (c : ascii) : bool :=
  let n := code c in
  ((48 <=? n) && (n <=? 57) || (65 <=? n) && (n <=? 90) ||
   (97 <=? n) && (n <=? 122) || (n =? 95))%N.

(** LineTerminator code units below 256 (what [.] refuses without the s flag). *)
Definition isLineTerminator (c : ascii) : bool :=
  match code c with
  | 10%N | 13%N => true
  | _ => false
  end.

Definition LF : ascii := "010"%char.
Definition DQUOTE : ascii := "034"%char.

(** [String.prototype.split] with a one-character string separator. *)
Fixpoint split (sep : ascii) (s : str) : list str :=
  match s with
  | [] => [[]]
  | a :: s' =>
      if Ascii.eqb a sep then [] :: split sep s'
      else match split sep s' with
           | p :: ps => (a :: p) :: ps
           | [] => [[a]]
           end
  end.

(** [Array.prototype.join] with a one-character separator. *)
Fixpoint join (sep : ascii) (l : list str) : str :=
  match l with
  | [] => []
  | [x] => x
  | x :: rest => x ++ sep :: join sep rest
  end.

Fixpoint trimStart (s : str) : str :=
  match s with
  | a :: s' => if isSpace a then trimStart s' else s
  | [] => []
  end.

Definition trimEnd (s : str) : str := rev (trimStart (rev s)).

(** [String.prototype.trim]. *)
Definition trim (s : str) : str := trimEnd (trimStart s).

Definition isBlank (s : str) : bool :=
  match trim s with [] => true | _ => false end.

(** [String.prototype.toUpperCase] on one code unit: the ASCII letters and the
    Latin-1 letters whose capital is again one code unit below 256; the code
    units 181, 223 and 255, whose capital is not, are left as they are. *)
Definition toUpperCase (c : ascii) : ascii :=
  let n := code c in
  if ((97 <=? n) && (n <=? 122))%N then ascii_of_N (n - 32)
  else if ((224 <=? n) && (n <=? 254) && negb (n =? 247))%N then ascii_of_N (n - 32)
  else c.

(* ------------------------------------------------------------------ *)
(** ** Regular expressions *)

Module Regex.

(** Character sets. *)
Inductive cset : Type :=
| CChar (c : ascii)            (* a literal character *)
| CSpace                       (* \s *)
| CNonSpace                    (* \S *)
| CWord                        (* \w *)
| CDot                         (* .  without the s flag *)
| CAny                         (* .  with the s flag *)
| COneOf (l : list ascii)      (* [...] *)
| CNoneOf (l : list ascii).    (* [^...] *)

Definition mem (cs : cset) (a : ascii) : bool :=
  match cs with
  | CChar c => Ascii.eqb a c
  | CSpace => isSpace a
  | CNonSpace => negb (isSpace a)
  | CWord => isWord a
  | CDot => negb (isLineTerminator a)
  | CAny => true
  | COneOf l => existsb (Ascii.eqb a) l
  | CNoneOf l => negb (existsb (Ascii.eqb a) l)
  end.

(** The fragment of the ECMAScript pattern syntax that [REGEX_PATTERNS] and
    the inline patterns of the parser use: every quantifier [*] or [+] of the
    source is applied to a character set, every [?] to a group or a character. *)
Inductive regex : Type :=
| Eps
| Chr (cs : cset)
| Seq (r1 r2 : regex)
| Alt (r1 r2 : regex)
| Star (greedy : bool) (cs : cset)
| Opt (r : regex)
| Group (n : nat) (r : regex)
| Look (positive : bool) (r : regex)
| Bos                          (* ^ without the m flag *)
| Eos.                         (* $ without the m flag *)

Declare Scope regex_scope.
Delimit Scope regex_scope with re.
Bind Scope regex_scope with regex.
Infix ">>" := Seq (at level 61, right associativity) : regex_scope.

Fixpoint lit (s : str) : regex :=
  match s with
  | [] => Eps
  | c :: s' => Seq (Chr (CChar c)) (lit s')
  end.

Definition Lit (s : string) : regex := lit (js s).
Definition Plus (greedy : bool) (cs : cset) : regex := Seq (Chr cs) (Star greedy cs).

(** Captures: index [n] holds group [n], [None] when it did not take part. *)
Definition caps := list (option str).

Definition getCap (n : nat) (c : caps) : option str := nth n c None.

Fixpoint setCap (n : nat) (v : str) (c : caps) : caps :=
  match n, c with
  | 0, [] => [Some v]
  | 0, _ :: c' => Some v :: c'
  | S n', [] => None :: setCap n' v []
  | S n', x :: c' => x :: setCap n' v c'
  end.

(** A continuation receives the position reached, the rest of the input and
    the captures so far. *)
Definition cont := nat -> str -> caps -> option (nat * caps).

Definition accept : cont := fun pos _ c => Some (pos, c).

(** Greedy [cs*]: take as many characters as possible, give back one at a
    time while the continuation fails. *)
Fixpoint starGreedy (cs : cset) (k : cont) (pos : nat) (s : str) (c : caps)
  : option (nat * caps) :=
  match s with
  | a :: s' =>
      if mem cs a then
        match starGreedy cs k (S pos) s' c with
        | Some x => Some x
        | None => k pos s c
        end
      else k pos s c
  | [] => k pos s c
  end.

(** Lazy [cs*?]: try the continuation first, take one more character when it
    fails. *)
Fixpoint starLazy (cs : cset) (k : cont) (pos : nat) (s : str) (c : caps)
  : option (nat * caps) :=
  match k pos s c with
  | Some x => Some x
  | None =>
      match s with
      | a :: s' => if mem cs a then starLazy cs k (S pos) s' c else None
      | [] => None
      end
  end.

Fixpoint exec (r : regex) (k : cont) (pos : nat) (s : str) (c : caps)
  : option (nat * caps) :=
  match r with
  | Eps => k pos s c
  | Chr cs =>
      match s with
      | a :: s' => if mem cs a then k (S pos) s' c else None
      | [] => None
      end
  | Seq r1 r2 => exec r1 (exec r2 k) pos s c
  | Alt r1 r2 =>
      match exec r1 k pos s c with
      | Some x => Some x
      | None => exec r2 k pos s c
      end
  | Star true cs => starGreedy cs k pos s c
  | Star false cs => starLazy cs k pos s c
  | Opt r1 =>
      match exec r1 k pos s c with
      | Some x => Some x
      | None => k pos s c
      end
  | Group n r1 =>
      exec r1 (fun pos' s' c' => k pos' s' (setCap n (firstn (pos' - pos) s) c')) pos s c
  | Look true r1 =>
      match exec r1 accept pos s c with
      | Some (_, c') => k pos s c'
      | None => None
      end
  | Look false r1 =>
      match exec r1 accept pos s c with
      | Some _ => None
      | None => k pos s c
      end
  | Bos => if pos =? 0 then k pos s c else None
  | Eos => match s with [] => k pos s c | _ :: _ => None end
  end.

(** The result of a successful match: where it starts, where it ends, and
    the captures. *)
Record rmatch : Type := mkMatch { m_index : nat; m_end : nat; m_caps : caps }.

Definition group (n : nat) (m : rmatch) : option str := getCap n (m_caps m).

(** One attempt at position [pos], the input from there on being [s]. *)
Definition matchAt (r : regex) (pos : nat) (s : str) : option rmatch :=
  match exec r accept pos s [] with
  | Some (e, c) => Some (mkMatch pos e c)
  | None => None
  end.

(** The search loop of RegExpBuiltinExec: the first position from [pos] on at
    which the pattern matches. *)
Fixpoint search (r : regex) (pos : nat) (s : str) : option rmatch :=
  match matchAt r pos s with
  | Some m => Some m
  | None =>
      match s with
      | [] => None
      | _ :: s' => search r (S pos) s'
      end
  end.

(** RegExpBuiltinExec on the whole string, starting at [lastIndex]. *)
Definition regexExec (r : regex) (subject : str) (lastIndex : nat) : option rmatch :=
  if List.length subject <? lastIndex then None
  else search r lastIndex (skipn lastIndex subject).

(** The iteration of a global pattern over a string (matchAll, and replace
    with the g flag): after a match the search resumes at its end, one
    further when the match was empty.  [skip] counts the positions still
    covered by the last match. *)
Fixpoint scan (r : regex) (pos : nat) (s : str) (skip : nat) : list rmatch :=
  match skip, s with
  | S sk, _ :: s' => scan r (S pos) s' sk
  | S _, [] => []
  | 0, _ =>
      match matchAt r pos s with
      | Some m =>
          m :: match s with
               | [] => []
               | _ :: s' => scan r (S pos) s' (Nat.pred (m_end m - pos))
               end
      | None =>
          match s with
          | [] => []
          | _ :: s' => scan r (S pos) s' 0
          end
      end
  end.

Definition matchAllFrom (r : regex) (subject : str) (lastIndex : nat) : list rmatch :=
  if List.length subject <? lastIndex then []
  else scan r lastIndex (skipn lastIndex subject) 0.

End Regex.

Import Regex.
Local Open Scope regex_scope.

(* ------------------------------------------------------------------ *)
(** ** Methods of String and RegExp used by the parser *)

(** [RegExp.prototype.test] and [String.prototype.match] for a pattern without
    the g flag: the search always starts at index 0 and leaves no state. *)
Definition regexMatch (r : regex) (s : str) : option rmatch := regexExec r s 0.

Definition test (r : regex) (s : str) : bool :=
  match regexMatch r s with Some _ => true | None => false end.

(** [RegExp.prototype.test] for a pattern with the g flag: the search starts
    at the pattern's [lastIndex], which becomes the end of the match on
    success and 0 on failure. *)
Definition testGlobal (r : regex) (s : str) (lastIndex : nat) : bool * nat :=
  match regexExec r s lastIndex with
  | Some m => (true, m_end m)
  | None => (false, 0)
  end.

(** [String.prototype.replace] with a pattern without the g flag. *)
Definition replaceFirst (r : regex) (repl : str) (s : str) : str :=
  match regexMatch r s with
  | Some m => firstn (m_index m) s ++ repl ++ skipn (m_end m) s
  | None => s
  end.

(** [String.prototype.replace] with a pattern with the g flag (used on a
    pattern literal, whose [lastIndex] is 0). *)
Fixpoint replaceScan (r : regex) (repl : str) (pos : nat) (s : str) (skip : nat) : str :=
  match skip, s with
  | S sk, _ :: s' => replaceScan r repl (S pos) s' sk
  | S _, [] => []
  | 0, _ =>
      match matchAt r pos s with
      | Some m =>
          repl ++ match s with
                  | [] => []
                  | a :: s' =>
                      (if m_end m =? pos then [a] else [])
                        ++ replaceScan r repl (S pos) s' (Nat.pred (m_end m - pos))
                  end
      | None =>
          match s with
          | [] => []
          | a :: s' => a :: replaceScan r repl (S pos) s' 0
          end
      end
  end.

Definition replaceAll (r : regex) (repl : str) (s : str) : str :=
  replaceScan r repl 0 s 0.

(** [String.prototype.split] with a pattern (one without groups): [piece] is
    the text since the end of the last separator, [skip] the positions still
    inside the separator just found. *)
Fixpoint splitScan (r : regex) (pos : nat) (s : str) (piece : str) (skip : nat) : list str :=
  match s with
  | [] => [piece]
  | a :: s' =>
      match skip with
      | S sk => splitScan r (S pos) s' piece sk
      | 0 =>
          match matchAt r pos s with
          | Some m =>
              if m_end m =? pos then
                match piece with
                | [] => splitScan r (S pos) s' [a] 0
                | _ :: _ => piece :: splitScan r (S pos) s' [a] 0
                end
              else piece :: splitScan r (S pos) s' [] (Nat.pred (m_end m - pos))
          | None => splitScan r (S pos) s' (piece ++ [a]) 0
          end
      end
  end.

Definition splitRegex (r : regex) (s : str) : list str :=
  match s with
  | [] => match matchAt r 0 [] with Some _ => [] | None => [[]] end
  | _ :: _ => splitScan r 0 s [] 0
  end.

(** [x || d] on a capture: [undefined] and the empty string are falsy. *)
Definition orElse (x : option str) (d : str) : str :=
  match x with
  | Some (a :: s) => a :: s
  | _ => d
  end.

(** A capture that takes part in every match of its pattern. *)
Definition capture (n : nat) (m : rmatch) : str :=
  match group n m with Some s => s | None => [] end.

(* ------------------------------------------------------------------ *)
(** ** constants: REGEX_PATTERNS *)

Module REGEX_PATTERNS.

Definition quoted_js : regex :=
  Chr (CChar DQUOTE) >> Group 1 (Plus true (CNoneOf [DQUOTE]) >> Lit ".js") >> Chr (CChar DQUOTE).

(** [/import\s+\x22([^\x22]+\.js)\x22\s+as\s+(\w+)/g], writing \x22 for the
    double quote. *)
Definition QML_JS_IMPORT : regex :=
  Lit "import" >> Plus true CSpace >> quoted_js >>
  Plus true CSpace >> Lit "as" >> Plus true CSpace >> Group 2 (Plus true CWord).

(** [/^\s*import\s+(?!\x22.*\.js\x22)[^\n]+/] *)
Definition QML_IMPORT : regex :=
  Bos >> Star true CSpace >> Lit "import" >> Plus true CSpace >>
  Look false (Chr (CChar DQUOTE) >> Star true CDot >> Lit ".js" >> Chr (CChar DQUOTE)) >>
  Plus true (CNoneOf [LF]).

(** [/(\w+)\.(\w{0,})$/], the second group being written with a star in the
    source. *)
Definition ALIAS_DOT_PREFIX : regex :=
  Group 1 (Plus true CWord) >> Chr (CChar ".") >> Group 2 (Star true CWord) >> Eos.

(** [/(\w+)\.(\w+)/] *)
Definition ALIAS_DOT_FUNCTION : regex :=
  Group 1 (Plus true CWord) >> Chr (CChar ".") >> Group 2 (Plus true CWord).

(** [/^function\s+(\w+)\s*\((.*?)\)/] *)
Definition FUNCTION_DECLARATION : regex :=
  Bos >> Lit "function" >> Plus true CSpace >> Group 1 (Plus true CWord) >>
  Star true CSpace >> Chr (CChar "(") >> Group 2 (Star false CDot) >> Chr (CChar ")").

(** [/\/\*\*/] *)
Definition JSDOC_START : regex := Lit "/**".

(** [/\*\//] *)
Definition JSDOC_END : regex := Lit "*/".

(** [\n\s*\*\s*@], the start of a tag line. *)
Definition next_tag : regex :=
  Chr (CChar LF) >> Star true CSpace >> Chr (CChar "*") >> Star true CSpace >> Chr (CChar "@").

(** [/\/\*\*\s*\n?\s*\*\s*(.+?)(?=\n\s*\*\s*@|$)/s] *)
Definition JSDOC_DESCRIPTION : regex :=
  Lit "/**" >> Star true CSpace >> Opt (Chr (CChar LF)) >> Star true CSpace >>
  Chr (CChar "*") >> Star true CSpace >> Group 1 (Plus false CAny) >>
  Look true (Alt next_tag Eos).

(** [(?:\{([^}]+)\}\s+)?], the optional type annotation of a tag. *)
Definition type_annotation : regex :=
  Opt (Chr (CChar "{") >> Group 1 (Plus true (CNoneOf ["}"%char])) >> Chr (CChar "}") >>
       Plus true CSpace).

(** [/@param\s+(?:\{([^}]+)\}\s+)?(\S+)(?:\s+-\s+(.+?))?(?=\n|$)/g] *)
Definition JSDOC_PARAM : regex :=
  Lit "@param" >> Plus true CSpace >> type_annotation >>
  Group 2 (Plus true CNonSpace) >>
  Opt (Plus true CSpace >> Chr (CChar "-") >> Plus true CSpace >> Group 3 (Plus false CDot)) >>
  Look true (Alt (Chr (CChar LF)) Eos).

(** [/@returns?\s+(?:\{([^}]+)\}\s+)?(.+?)(?=\n\s*\*\s*@|\*\/|$)/s] *)
Definition JSDOC_RETURN : regex :=
  Lit "@return" >> Opt (Chr (CChar "s")) >> Plus true CSpace >> type_annotation >>
  Group 2 (Plus false CAny) >>
  Look true (Alt next_tag (Alt (Lit "*/") Eos)).

End REGEX_PATTERNS.

Definition MAX_QML_FILES_TO_SEARCH : nat := 1000.
Definition MAX_JS_FILES_TO_SEARCH : nat := 500.

(* ------------------------------------------------------------------ *)
(** ** parser: data model *)

Record Import : Type := mkImport { file : str; alias : str }.

Record ParamDoc : Type :=
  mkParamDoc { pd_type : str; pd_name : str; pd_description : str }.

Record JSDocInfo : Type :=
  mkJSDocInfo { documentation : str; returnType : str; paramDocs : list ParamDoc }.

Record FunctionInfo : Type :=
  mkFunctionInfo { fn_name : str; fn_params : list str; fn_paramDocs : list ParamDoc;
                   fn_returnType : str; fn_documentation : str }.

Record ImportInsertionPoint : Type :=
  mkPoint { line : Z; needsBlankLine : bool; needsTrailingBlankLine : bool }.

(** [lines[i]] for a number [i]; [None] is JavaScript's [undefined]. *)
Definition lineAt (lines : list str) (i : Z) : option str :=
  if (i <? 0)%Z then None else nth_error lines (Z.to_nat i).

(* ------------------------------------------------------------------ *)
(** ** parser: QML/JavaScript parsing

    [REGEX_PATTERNS.QML_JS_IMPORT] is one shared object carrying the g flag;
    its [lastIndex] is the only mutable state of the parser.  Functions that
    read it take it as the argument [lastIndex]; the one that writes it,
    [getLastJsImportLine], returns the new value next to its result. *)

Definition findJavaScriptImports (qmlContent : str) (lastIndex : nat) : list Import :=
  map (fun m => mkImport (capture 1 m) (capture 2 m))
      (matchAllFrom REGEX_PATTERNS.QML_JS_IMPORT qmlContent lastIndex).

(** The first loop of [extractJSDoc]; [n] is [j + 1].  [None] is the TypeError
    of [lines[j].trim()] on a line that does not exist. *)
Fixpoint scanToDocEnd (lines : list str) (n : nat) : option Z :=
  match n with
  | 0 => Some (-1)%Z
  | S j =>
      match nth_error lines j with
      | None => None
      | Some l =>
          if negb (isBlank l) && negb (test REGEX_PATTERNS.JSDOC_END l)
          then scanToDocEnd lines j
          else Some (Z.of_nat j)
      end
  end.

(** The second loop of [extractJSDoc]; [n] is [k + 1], the result is [k + 1]
    and [jsdocLines]. *)
Fixpoint collectDocLines (lines : list str) (n : nat) (jsdocLines : list str)
  : nat * list str :=
  match n with
  | 0 => (0, jsdocLines)
  | S k =>
      match nth_error lines k with
      | Some l =>
          if negb (test REGEX_PATTERNS.JSDOC_START l)
          then collectDocLines lines k (l :: jsdocLines)
          else (n, jsdocLines)
      | None => (n, jsdocLines)
      end
  end.

Definition defaultJSDoc : JSDocInfo := mkJSDocInfo [] (js "any") [].

Definition paramDocOfMatch (m : rmatch) : ParamDoc :=
  mkParamDoc (orElse (group 1 m) (js "any")) (capture 2 m) (orElse (group 3 m) []).

(** What [extractJSDoc] reads from the joined comment block. *)
Definition parseJSDocContent (jsdocContent : str) : JSDocInfo :=
  let documentation :=
    match regexMatch REGEX_PATTERNS.JSDOC_DESCRIPTION jsdocContent with
    | Some descMatch =>
        trim (replaceAll (Chr (CChar LF) >> Star true CSpace >> Chr (CChar "*") >> Star true CSpace)
                         (js " ") (capture 1 descMatch))
    | None => []
    end in
  let paramDocs := map paramDocOfMatch (matchAllFrom REGEX_PATTERNS.JSDOC_PARAM jsdocContent 0) in
  let returnType :=
    match regexMatch REGEX_PATTERNS.JSDOC_RETURN jsdocContent with
    | Some returnMatch => orElse (group 1 returnMatch) (js "any")
    | None => js "any"
    end in
  mkJSDocInfo documentation returnType paramDocs.

Definition extractJSDoc (lines : list str) (functionLineIndex : nat) : option JSDocInfo :=
  match scanToDocEnd lines functionLineIndex with
  | None => None
  | Some j =>
      match lineAt lines j with
      | Some lj =>
          if (0 <=? j)%Z && test REGEX_PATTERNS.JSDOC_END lj then
            let '(k1, jsdocLines) := collectDocLines lines (S (Z.to_nat j)) [] in
            let jsdocLines :=
              match k1 with
              | S k =>
                  match nth_error lines k with
                  | Some lk => if test REGEX_PATTERNS.JSDOC_START lk then lk :: jsdocLines
                               else jsdocLines
                  | None => jsdocLines
                  end
              | 0 => jsdocLines
              end in
            Some (parseJSDocContent (join LF jsdocLines))
          else Some defaultJSDoc
      | None => Some defaultJSDoc
      end
  end.

Definition parseParams (raw : str) : list str :=
  filter (fun p => match p with [] => false | _ :: _ => true end)
         (map trim (split "," raw)).

(** The loop of [parseJavaScriptFunctions] from line [i] on; [rest] are the
    lines [i], [i + 1], ... of [lines]. *)
Fixpoint parseLoop (lines rest : list str) (i : nat) (functions : list FunctionInfo)
  : option (list FunctionInfo) :=
  match rest with
  | [] => Some functions
  | l :: rest' =>
      match regexMatch REGEX_PATTERNS.FUNCTION_DECLARATION l with
      | None => parseLoop lines rest' (S i) functions
      | Some functionMatch =>
          match extractJSDoc lines i with
          | None => None
          | Some jsdoc =>
              parseLoop lines rest' (S i)
                (functions ++ [mkFunctionInfo (capture 1 functionMatch)
                                              (parseParams (capture 2 functionMatch))
                                              (paramDocs jsdoc) (returnType jsdoc)
                                              (documentation jsdoc)])
          end
      end
  end.

Definition parseJavaScriptFunctions (jsContent : str) : option (list FunctionInfo) :=
  let lines := split LF jsContent in
  parseLoop lines lines 0 [].

(* ------------------------------------------------------------------ *)
(** ** parser: alias resolution and auto-import helpers *)

Section Resolver.

(** Node's [path.dirname] and [path.resolve]. *)
Variable path_dirname : str -> str.
Variable path_resolve : str -> str -> str.

Definition resolveJsFilePath (documentPath jsImportPath : str) : str :=
  let documentDir := path_dirname documentPath in
  path_resolve documentDir jsImportPath.

(** A document is its text and its [uri.fsPath]. *)
Record TextDocument : Type := mkDocument { getText : str; fsPath : str }.

Definition findJsFileForAlias (document : TextDocument) (alias0 : str) (lastIndex : nat)
  : option str :=
  let qmlContent := getText document in
  let imports := findJavaScriptImports qmlContent lastIndex in
  match find (fun imp => str_eqb (alias imp) alias0) imports with
  | None => None
  | Some jsImport => Some (resolveJsFilePath (fsPath document) (file jsImport))
  end.

End Resolver.

Definition capitalize (part : str) : str :=
  match part with
  | [] => []
  | c :: rest => toUpperCase c :: rest
  end.

Definition generateAliasFromFilename (filename : str) : str :=
  let baseName := replaceFirst (Lit ".js" >> Eos) [] filename in
  List.concat (map capitalize (splitRegex (Chr (COneOf ["-"%char; "_"%char])) baseName)) ++ js "JS".

Definition isAliasImported (qmlContent alias0 : str) (lastIndex : nat) : bool :=
  existsb (fun imp => str_eqb (alias imp) alias0) (findJavaScriptImports qmlContent lastIndex).

Fixpoint lastQmlImportLoop (rest : list str) (i : nat) (lastImportLine : Z) : Z :=
  match rest with
  | [] => lastImportLine
  | l :: rest' =>
      lastQmlImportLoop rest' (S i)
        (if test REGEX_PATTERNS.QML_IMPORT l then Z.of_nat i else lastImportLine)
  end.

Definition getLastQmlImportLine (qmlContent : str) : Z :=
  lastQmlImportLoop (split LF qmlContent) 0 (-1)%Z.

(** The loop of [getLastJsImportLine]: every [test] starts at the
    [lastIndex] the previous one left. *)
Fixpoint lastJsImportLoop (rest : list str) (i : nat) (lastImportLine : Z) (lastIndex : nat)
  : Z * nat :=
  match rest with
  | [] => (lastImportLine, lastIndex)
  | l :: rest' =>
      let '(found, lastIndex') := testGlobal REGEX_PATTERNS.QML_JS_IMPORT l lastIndex in
      lastJsImportLoop rest' (S i) (if found then Z.of_nat i else lastImportLine) lastIndex'
  end.

Definition getLastJsImportLine (qmlContent : str) (lastIndex : nat) : Z * nat :=
  lastJsImportLoop (split LF qmlContent) 0 (-1)%Z lastIndex.

Definition blankAt (lines : list str) (i : Z) : bool :=
  (i <? Z.of_nat (List.length lines))%Z &&
  match lineAt lines i with Some l => isBlank l | None => false end.

Definition getJsImportInsertionPoint (qmlContent : str) (lastIndex : nat)
  : ImportInsertionPoint * nat :=
  let lines := split LF qmlContent in
  let '(lastJsImport, lastIndex') := getLastJsImportLine qmlContent lastIndex in
  let lastQmlImport := getLastQmlImportLine qmlContent in
  if (0 <=? lastJsImport)%Z then
    let insertLine := (lastJsImport + 1)%Z in
    let hasTrailingBlankLine := blankAt lines insertLine in
    (mkPoint insertLine false (negb hasTrailingBlankLine), lastIndex')
  else if (0 <=? lastQmlImport)%Z then
    let nextLine := (lastQmlImport + 1)%Z in
    let hasBlankLine := blankAt lines nextLine in
    (mkPoint (if hasBlankLine then lastQmlImport + 2 else lastQmlImport + 1)%Z
             (negb hasBlankLine) true, lastIndex')
  else
    let hasContent :=
      (0 <? Z.of_nat (List.length lines))%Z &&
      match lineAt lines 0 with Some l => negb (isBlank l) | None => false end in
    (mkPoint 0 false hasContent, lastIndex').

(* ------------------------------------------------------------------ *)
(** ** providers: building and inserting the import statement

    [provideCompletionItems] and [provideCodeActions] build the text to
    insert from the planned point and hand it to the editor as an insertion
    at [new Position(insertPoint.line, 0)]. *)

Definition importStatement (insertPoint : ImportInsertionPoint) (relativePath alias0 : str) : str :=
  (if needsBlankLine insertPoint then [LF] else []) ++
  (js "import " ++ DQUOTE :: relativePath ++ DQUOTE :: js " as " ++ alias0 ++ [LF]) ++
  (if needsTrailingBlankLine insertPoint then [LF] else []).

(** The offset of [Position(line, 0)] in a text whose lines end in LF; a
    position past the last line is the end of the text, as the editor
    clamps it. *)
Fixpoint lineOffset (text : str) (line0 : nat) : nat :=
  match line0 with
  | 0 => 0
  | S l =>
      match text with
      | [] => 0
      | a :: text' =>
          if Ascii.eqb a LF then S (lineOffset text' l) else S (lineOffset text' line0)
      end
  end.



(* ------------------------------------------------------------------ *)
(** ** Vocabulary of the specification *)

(** A line contains a script import when a fresh search for
    [QML_JS_IMPORT] finds one in it. *)
Definition containsScriptImport (l : str) : bool := test REGEX_PATTERNS.QML_JS_IMPORT l.

(** An ordinary (non-script) import line. *)
Definition isOrdinaryImportLine (l : str) : bool :=
  test REGEX_PATTERNS.QML_IMPORT l && negb (containsScriptImport l).

(** A documentation block sits immediately above the declaration at line
    [functionLineIndex] when the line directly above it closes a block
    comment. *)
Definition docBlockImmediatelyAbove (lines : list str) (functionLineIndex : nat) : Prop :=
  exists l, 1 <= functionLineIndex /\
            nth_error lines (functionLineIndex - 1) = Some l /\
            test REGEX_PATTERNS.JSDOC_END l = true.

(** Going up from the declaration, a blank line or the start of the file
    comes before any line that closes a block comment: the lines
    [b .. functionLineIndex - 1] hold no terminator and line [b - 1] is blank
    or does not exist. *)
Definition noTerminatorBeforeBlank (lines : list str) (functionLineIndex : nat) : Prop :=
  exists b, b <= functionLineIndex /\
    (b = 0 \/ exists l, nth_error lines (b - 1) = Some l /\ isBlank l = true) /\
    forall i l, b <= i < functionLineIndex -> nth_error lines i = Some l ->
                test REGEX_PATTERNS.JSDOC_END l = false.

(** Cutting a string at every character that satisfies [p]. *)
Fixpoint splitBy (p : ascii -> bool) (s : str) : list str :=
  match s with
  | [] => [[]]
  | a :: s' =>
      if p a then [] :: splitBy p s'
      else match splitBy p s' with
           | h :: t => (a :: h) :: t
           | [] => [[a]]
           end
  end.

Definition isHyphenOrUnderscore (a : ascii) : bool :=
  Ascii.eqb a "-"%char || Ascii.eqb a "_"%char.

(** The suggested alias as the specification words it, from the base name
    (the file name without its extension): the segments between hyphens and
    underscores, each with its first character capitalized, concatenated and
    followed by JS. *)
Definition aliasOfBaseName (baseName : str) : str :=
  List.concat (map capitalize (splitBy isHyphenOrUnderscore baseName)) ++ js "JS".

Definition hasJsExtension (filename : str) : Prop := exists b, filename = b ++ js ".js".

(* ------------------------------------------------------------------ *)
(** ** Auxiliary notions for the proofs *)

(** Patterns without [^]: their matches do not depend on the position. *)
Fixpoint bosFree (r : regex) : bool :=
  match r with
  | Eps | Chr _ | Star _ _ | Eos => true
  | Seq r1 r2 | Alt r1 r2 => bosFree r1 && bosFree r2
  | Opt r1 | Group _ r1 | Look _ r1 => bosFree r1
  | Bos => false
  end.

Definition shiftRes (d : nat) (x : option (nat * caps)) : option (nat * caps) :=
  option_map (fun x => (fst x + d, snd x)) x.

Definition shifted (d : nat) (k k' : cont) : Prop :=
  forall p s c, k' (p + d) s c = shiftRes d (k p s c).

Definition shiftMatch (d : nat) (m : rmatch) : rmatch :=
  mkMatch (m_index m + d) (m_end m + d) (m_caps m).

(** The two pattern literals of [generateAliasFromFilename]. *)
Definition dotJsAtEnd : regex := Lit ".js" >> Eos.

Definition separator : regex := Chr (COneOf ["-"%char; "_"%char]).


(** Writing documents in examples. *)
Definition quoted (s : string) : str := DQUOTE :: js s ++ [DQUOTE].
Definition importLine (f a : string) : str := js "import " ++ quoted f ++ js " as " ++ js a.
Definition unlines (l : list str) : str := join LF l.

(** The shape of a script import statement,
    [import <ws> "<p>.js" <ws> as <ws> <alias>]. *)
Definition spaces (ws : str) : Prop := Forall (fun a => isSpace a = true) ws.
Definition wordChars (w : str) : Prop := Forall (fun a => isWord a = true) w.
Definition noQuote (p : str) : Prop := Forall (fun a => a <> DQUOTE) p.

Definition notWordStart (rest : str) : Prop :=
  match rest with
  | [] => True
  | a :: _ => isWord a = false
  end.

Definition importText (ws1 p ws2 ws3 a : str) : str :=
  js "import" ++ ws1 ++ DQUOTE :: (p ++ js ".js") ++ DQUOTE :: ws2 ++ js "as" ++ ws3 ++ a.

(** [body] is a script import statement of file [f] and alias [a]. *)
Definition isScriptImport (body f a : str) : Prop :=
  exists ws1 p ws2 ws3,
    body = importText ws1 p ws2 ws3 a /\ f = p ++ js ".js" /\
    ws1 <> [] /\ spaces ws1 /\ p <> [] /\ noQuote p /\
    ws2 <> [] /\ spaces ws2 /\ ws3 <> [] /\ spaces ws3 /\
    a <> [] /\ wordChars a.


(** Runs of characters of a set, and where such a run must stop. *)
Definition inSet (cs : cset) (run : str) : Prop := Forall (fun a => mem cs a = true) run.

Definition stopsAt (cs : cset) (s : str) : Prop :=
  match s with
  | [] => True
  | a :: _ => mem cs a = false
  end.


(** The captures of a match of [QML_JS_IMPORT]. *)
Definition importCaps (f a : str) : caps := [None; Some f; Some a].


(** The imports read off a list of matches, and the Import Extractor run on a
    text from its first character. *)
Definition importsOf (ms : list rmatch) : list Import :=
  map (fun m => mkImport (capture 1 m) (capture 2 m)) ms.

Definition importsFrom (s : str) : list Import :=
  importsOf (scan REGEX_PATTERNS.QML_JS_IMPORT 0 s 0).

(** A well-formed script import and the line that states it. *)
Definition wellFormedImport (imp : Import) : Prop :=
  exists p, file imp = p ++ js ".js" /\ p <> [] /\ noQuote p /\
            alias imp <> [] /\ wordChars (alias imp).

Definition importStatementLine (imp : Import) : str :=
  js "import " ++ DQUOTE :: file imp ++ DQUOTE :: js " as " ++ alias imp.

(** A line that begins at column 0 with [function <name>(<raw>)]: the
    keyword, white space, a name of word characters, optional white space and
    a parenthesized parameter list on the same line. *)
Definition rawParams (raw : str) : Prop :=
  Forall (fun a => a <> ")"%char /\ isLineTerminator a = false) raw.

Definition isDeclarationLine (l name raw : str) : Prop :=
  exists ws ws' rest,
    l = js "function" ++ ws ++ name ++ ws' ++ "("%char :: raw ++ ")"%char :: rest /\
    ws <> [] /\ spaces ws /\ name <> [] /\ wordChars name /\ spaces ws' /\ rawParams raw.

(** The name and the parameters of a record. *)
Definition signature (f : FunctionInfo) : str * list str := (fn_name f, fn_params f).

(** The records expected from a list of lines: one per declaration line, in
    the order of the lines, with the raw parameter list split on commas, each
    entry trimmed and the empty entries dropped. *)
Inductive declarationsOf : list str -> list (str * list str) -> Prop :=
| decl_none : declarationsOf [] []
| decl_line l name raw ls rs :
    isDeclarationLine l name raw -> declarationsOf ls rs ->
    declarationsOf (l :: ls)
      ((name, filter (fun p => negb (str_eqb p [])) (map trim (split "," raw))) :: rs)
| decl_skip l ls rs :
    (forall name raw, ~ isDeclarationLine l name raw) -> declarationsOf ls rs ->
    declarationsOf (l :: ls) rs.

Definition functionCaps (name raw : str) : caps := [None; Some name; Some raw].




(** The part of [JSDOC_PARAM] after the type annotation. *)
Definition paramDescription : regex :=
  Plus true CSpace >> Chr (CChar "-") >> Plus true CSpace >> Group 3 (Plus false CDot).

Definition paramEnd : regex := Look true (Alt (Chr (CChar LF)) Eos).

Definition paramTail : regex :=
  Group 2 (Plus true CNonSpace) >> Opt paramDescription >> paramEnd.




(** Shapes of a well-formed [@param] tag: a name of non-space characters, and
    the end of the tag's line (the end of the block text, or a line feed whose
    following line does not start with a dash after its indentation). *)
Definition nonSpaces (w : str) : Prop := Forall (fun a => isSpace a = false) w.

Definition lineText (d : str) : Prop := Forall (fun a => isLineTerminator a = false) d.



Definition noBrace (t : str) : Prop := Forall (fun a => a <> "}"%char) t.

(* ------------------------------------------------------------------ *)
(** ** utils *)

(** Values a property read of a plain object can give: a string of the
    table, or a member inherited from [Object.prototype] (a function or an
    object, never a string). *)
Inductive JsValue : Type :=
| JString (s : str)
| JInherited (key : str).

(** constants: TYPE_MAP, its own properties in source order. *)
Definition TYPE_MAP : list (str * str) :=
  [(js "string", js "string"); (js "number", js "number"); (js "int", js "number");
   (js "double", js "number"); (js "boolean", js "boolean"); (js "bool", js "boolean");
   (js "Object", js "any"); (js "Array", js "any[]"); (js "Function", js "Function");
   (js "color", js "string"); (js "var", js "any"); (js "any", js "any")].

(** The property names every plain object inherits from [Object.prototype]. *)
Definition objectPrototypeKeys : list str :=
  map js ["constructor"; "__defineGetter__"; "__defineSetter__"; "hasOwnProperty";
          "__lookupGetter__"; "__lookupSetter__"; "isPrototypeOf"; "propertyIsEnumerable";
          "toString"; "valueOf"; "__proto__"; "toLocaleString"]%string.

Fixpoint ownProperty (table : list (str * str)) (key : str) : option str :=
  match table with
  | [] => None
  | (k, v) :: rest => if str_eqb k key then Some v else ownProperty rest key
  end.

(** [TYPE_MAP[jsdocType] || 'any']. *)
Definition mapTypeToTS (jsdocType : str) : JsValue :=
  match ownProperty TYPE_MAP jsdocType with
  | Some (a :: v) => JString (a :: v)
  | Some [] => JString (js "any")
  | None =>
      if existsb (str_eqb jsdocType) objectPrototypeKeys then JInherited jsdocType
      else JString (js "any")
  end.

(** The file system as [safeReadFile] sees it: [None] when the file does not
    exist or reading it throws. *)
Definition FileSystem : Type := str -> option str.

Definition safeReadFile (fs : FileSystem) (filePath : str) : option str := fs filePath.

Record Position : Type := mkPosition { pos_line : nat; pos_character : nat }.

Definition getPositionFromIndex (content : str) (index : nat) : Position :=
  let beforeMatch := firstn index content in
  let lines := split LF beforeMatch in
  mkPosition (List.length lines - 1) (List.length (last lines [])).

(* ------------------------------------------------------------------ *)
(** ** parser: the remaining helpers *)

(** [extractAliasAndFunction]: [fullWord] is the text of the range the editor
    finds around the position for [ALIAS_DOT_FUNCTION], [None] when it finds
    none. *)
Definition extractAliasAndFunction (fullWord : option str) : option (str * str) :=
  match fullWord with
  | None => None
  | Some w =>
      match regexMatch REGEX_PATTERNS.ALIAS_DOT_FUNCTION w with
      | None => None
      | Some m => Some (capture 1 m, capture 2 m)
      end
  end.

(* ------------------------------------------------------------------ *)
(** ** providers *)

(** [Array.prototype.join] with any separator. *)
Fixpoint joinWith (sep : str) (l : list str) : str :=
  match l with
  | [] => []
  | [x] => x
  | x :: rest => x ++ sep ++ joinWith sep rest
  end.

(** hover: createFunctionHoverMarkdown. *)
Definition paramLine (param : ParamDoc) : str :=
  js "- `" ++ pd_name param ++ js "` (" ++ pd_type param ++ js "): "
    ++ pd_description param ++ [LF].

Definition createFunctionHoverMarkdown (func : FunctionInfo) (alias0 : str) : str :=
  let paramSignature := joinWith (js ", ") (fn_params func) in
  let markdown :=
    js "**" ++ alias0 ++ js "." ++ fn_name func ++ js "**(" ++ paramSignature ++ js "): "
      ++ fn_returnType func ++ [LF; LF] in
  let markdown :=
    match fn_documentation func with
    | [] => markdown
    | _ :: _ => markdown ++ fn_documentation func ++ [LF; LF]
    end in
  match fn_paramDocs func with
  | [] => markdown
  | _ :: _ => markdown ++ js "**Parameters:**" ++ [LF] ++ List.concat (map paramLine (fn_paramDocs func))
  end.

(** What a provider hands back: [undefined], a value, or the TypeError a
    failing parse would raise.  A provider tests what it gets with [!x], so
    an empty path or an empty file content counts as missing. *)
Inductive Answer (A : Type) : Type :=
| Undefined
| Value (a : A)
| Throws.

Arguments Undefined {A}.
Arguments Throws {A}.

(** The pattern [new RegExp(`function\\s+${functionName}\\s*\\(`, 'g')] of the
    definition provider; [functionName] is a capture of [\w+], so it stands
    for itself in the pattern. *)
Definition functionHead (functionName : str) : regex :=
  Lit "function" >> Plus true CSpace >> lit functionName >> Star true CSpace >> Chr (CChar "(").

Section Providers.

Variable path_dirname : str -> str.
Variable path_resolve : str -> str -> str.
Variable fs : FileSystem.

(** hover: provideHover, from the word range text the editor found. *)
Definition provideHover (document : TextDocument) (fullWord : option str) (lastIndex : nat)
  : Answer str :=
  match extractAliasAndFunction fullWord with
  | None => Undefined
  | Some (alias0, functionName) =>
      match findJsFileForAlias path_dirname path_resolve document alias0 lastIndex with
      | None | Some [] => Undefined
      | Some jsFilePath =>
          match safeReadFile fs jsFilePath with
          | None | Some [] => Undefined
          | Some jsContent =>
              match parseJavaScriptFunctions jsContent with
              | None => Throws
              | Some functions =>
                  match find (fun f => str_eqb (fn_name f) functionName) functions with
                  | None => Undefined
                  | Some func => Value (createFunctionHoverMarkdown func alias0)
                  end
              end
          end
      end
  end.

(** definition: provideDefinition; the answer is the target file and
    position. *)
Definition provideDefinition (document : TextDocument) (fullWord : option str) (lastIndex : nat)
  : Answer (str * Position) :=
  match extractAliasAndFunction fullWord with
  | None => Undefined
  | Some (alias0, functionName) =>
      match findJsFileForAlias path_dirname path_resolve document alias0 lastIndex with
      | None | Some [] => Undefined
      | Some jsFilePath =>
          match safeReadFile fs jsFilePath with
          | None | Some [] => Undefined
          | Some jsContent =>
              match regexExec (functionHead functionName) jsContent 0 with
              | None => Undefined
              | Some funcMatch =>
                  Value (jsFilePath, getPositionFromIndex jsContent (m_index funcMatch))
              end
          end
      end
  end.

(** completion: the cache of parsed files, a [Map] from absolute path to
    functions. *)
Definition Cache : Type := str -> option (list FunctionInfo).

Definition cacheSet (cache : Cache) (key : str) (functions : list FunctionInfo) : Cache :=
  fun k => if str_eqb k key then Some functions else cache k.

Definition cacheDelete (cache : Cache) (key : str) : Cache :=
  fun k => if str_eqb k key then None else cache k.

(** completion: provideCompletionItems when the line prefix ends in
    [alias.]: the functions the items are made of, and the cache afterwards.
    On a miss the file is read and parsed, the result stored, and a watcher
    set on the file. *)
Definition completeAfterDot (cache : Cache) (document : TextDocument) (alias0 : str)
    (lastIndex : nat) : Answer (list FunctionInfo) * Cache :=
  match findJsFileForAlias path_dirname path_resolve document alias0 lastIndex with
  | None | Some [] => (Undefined, cache)
  | Some jsFilePath =>
      match cache jsFilePath with
      | Some functions => (Value functions, cache)
      | None =>
          match safeReadFile fs jsFilePath with
          | None | Some [] => (Undefined, cache)
          | Some jsContent =>
              match parseJavaScriptFunctions jsContent with
              | None => (Throws, cache)
              | Some functions => (Value functions, cacheSet cache jsFilePath functions)
              end
          end
      end
  end.

End Providers.

(** completion: the alias in front of the dot, [linePrefix.match(ALIAS_DOT_PREFIX)]. *)
Definition dotAlias (linePrefix : str) : option (str * str) :=
  match regexMatch REGEX_PATTERNS.ALIAS_DOT_PREFIX linePrefix with
  | None => None
  | Some dotMatch => Some (capture 1 dotMatch, capture 2 dotMatch)
  end.

(** completion: the watcher's [onDidChange] handler for a cached file. *)
Definition onDidChange (cache : Cache) (jsFilePath : str) : Cache :=
  cacheDelete cache jsFilePath.

(* ------------------------------------------------------------------ *)
(** ** Vocabulary for the further properties *)

(** A clean parameter: not empty, nothing to trim, no comma. *)
Definition isParam (p : str) : Prop :=
  p <> [] /\ trim p = p /\ Forall (fun c => c <> ","%char) p.

(** No white space at either end. *)
Definition trimmed (p : str) : Prop :=
  (forall a t, p = a :: t -> isSpace a = false) /\
  (forall a t, p = t ++ [a] -> isSpace a = false).

(** At offset [index] the content reads [function <ws> <fn> <ws>? (]. *)
Definition functionHeadAt (content fn : str) (index : nat) : Prop :=
  exists ws ws' rest,
    skipn index content = js "function" ++ ws ++ fn ++ ws' ++ "("%char :: rest /\
    ws <> [] /\ spaces ws /\ spaces ws'.

(** A base name of word characters and hyphens, as in [account-helper]. *)
Definition plainBaseName (baseName : str) : Prop :=
  Forall (fun a => isWord a = true \/ a = "-"%char) baseName.

(** The cache [new Map()] the extension starts with. *)
Definition emptyCache : Cache := fun _ => None.

(** Every cached list is what parsing the file's present, non-empty content
    gives. *)
Definition coherent (fs : FileSystem) (cache : Cache) : Prop :=
  forall jsFilePath functions,
    cache jsFilePath = Some functions ->
    exists jsContent, safeReadFile fs jsFilePath = Some jsContent /\ jsContent <> [] /\
                      parseJavaScriptFunctions jsContent = Some functions.

(** The types [mapTypeToTS] can answer as a string. *)
Definition tsTypes : list str :=
  map js ["string"; "number"; "boolean"; "any"; "any[]"; "Function"]%string.

(* ------------------------------------------------------------------ *)
(** ** providers: the edits of one request *)

(** A match of [findMatchingJsFiles]. *)
Record JsFileMatch : Type :=
  mkJsFileMatch { match_path : str; match_alias : str; match_relativePath : str }.

(** The edits that [provideCompletionItems] and [provideCodeActions] build,
    [matches.map(match => ...)]: the callback plans the insertion point anew
    for every match, each time from the [lastIndex] the planning before it
    left.  An edit is its line and the text to insert there. *)
Fixpoint importEdits (matches : list JsFileMatch) (qmlContent : str) (lastIndex : nat)
  : list (Z * str) * nat :=
  match matches with
  | [] => ([], lastIndex)
  | m :: rest =>
      let '(insertPoint, lastIndex') := getJsImportInsertionPoint qmlContent lastIndex in
      let '(edits, lastIndex'') := importEdits rest qmlContent lastIndex' in
      ((line insertPoint,
        importStatement insertPoint (match_relativePath m) (match_alias m)) :: edits,
       lastIndex'')
  end.

(* ------------------------------------------------------------------ *)
(** * Properties *)

(** Brings a concatenation into the right-nested form the matcher walks. *)
Ltac flatten_app := repeat (rewrite <- app_assoc || rewrite <- app_comm_cons).
Lemma split_nonempty sep s : split sep s <> [].
Proof.
  destruct s as [|a s]; simpl; [discriminate|].
  destruct (Ascii.eqb a sep); [discriminate|].
  destruct (split sep s); discriminate.
Qed.

Lemma split_length_pos sep s : 1 <= List.length (split sep s).
Proof.
  pose proof (split_nonempty sep s). destruct (split sep s); [congruence|simpl; lia].
Qed.

Lemma lastQmlImportLoop_bounds rest : forall i last,
  (-1 <= last < Z.of_nat i)%Z ->
  (-1 <= lastQmlImportLoop rest i last < Z.of_nat (i + List.length rest))%Z.
Proof.
  induction rest as [|l rest IH]; intros i last H; simpl.
  - rewrite Nat.add_0_r. exact H.
  - replace (i + S (List.length rest)) with (S i + List.length rest) by lia.
    apply IH. destruct (test _ l); lia.
Qed.

Lemma lastJsImportLoop_bounds rest : forall i last li,
  (-1 <= last < Z.of_nat i)%Z ->
  (-1 <= fst (lastJsImportLoop rest i last li) < Z.of_nat (i + List.length rest))%Z.
Proof.
  induction rest as [|l rest IH]; intros i last li H; simpl.
  - rewrite Nat.add_0_r. exact H.
  - destruct (testGlobal _ l li) as [found li'].
    replace (i + S (List.length rest)) with (S i + List.length rest) by lia.
    apply IH. destruct found; lia.
Qed.

Lemma blankAt_lt lines i : blankAt lines i = true -> (i < Z.of_nat (List.length lines))%Z.
Proof.
  unfold blankAt. intros H. apply andb_true_iff in H as [H _]. now apply Z.ltb_lt in H.
Qed.

(** C10: the line of the planned insertion point is never negative and never
    beyond the number of lines of the text. *)
Theorem insertion_line_within_document (qmlContent : str) (lastIndex : nat) :
  (0 <= line (fst (getJsImportInsertionPoint qmlContent lastIndex))
     <= Z.of_nat (List.length (split LF qmlContent)))%Z.
Proof.
  unfold getJsImportInsertionPoint, getLastJsImportLine, getLastQmlImportLine.
  pose proof (@lastJsImportLoop_bounds (split LF qmlContent) 0 (-1) lastIndex ltac:(lia)) as HJ.
  pose proof (@lastQmlImportLoop_bounds (split LF qmlContent) 0 (-1) ltac:(lia)) as HQ.
  destruct (lastJsImportLoop (split LF qmlContent) 0 (-1) lastIndex) as [lastJs li'].
  simpl in HJ.
  set (lastQml := lastQmlImportLoop (split LF qmlContent) 0 (-1)) in *.
  destruct (0 <=? lastJs)%Z eqn:EJ; simpl.
  - apply Z.leb_le in EJ. lia.
  - destruct (0 <=? lastQml)%Z eqn:EQ; simpl.
    + apply Z.leb_le in EQ.
      destruct (blankAt (split LF qmlContent) (lastQml + 1)) eqn:EB.
      * apply blankAt_lt in EB. lia.
      * lia.
    + pose proof (split_length_pos LF qmlContent). lia.
Qed.

(* ------------------------------------------------------------------ *)
(** ** The matcher does not depend on the position, except through [^] *)

Lemma starGreedy_shift cs d k k' : shifted d k k' ->
  forall s pos c, starGreedy cs k' (pos + d) s c = shiftRes d (starGreedy cs k pos s c).
Proof.
  intros Hk s. induction s as [|a s IH]; intros pos c; simpl.
  - apply Hk.
  - destruct (mem cs a); [|apply Hk].
    change (S (pos + d)) with (S pos + d). rewrite IH.
    destruct (starGreedy cs k (S pos) s c); simpl; [reflexivity|apply Hk].
Qed.

Lemma starLazy_shift cs d k k' : shifted d k k' ->
  forall s pos c, starLazy cs k' (pos + d) s c = shiftRes d (starLazy cs k pos s c).
Proof.
  intros Hk s. induction s as [|a s IH]; intros pos c; simpl.
  - rewrite Hk. destruct (k pos [] c); reflexivity.
  - rewrite Hk. destruct (k pos (a :: s) c); simpl; [reflexivity|].
    destruct (mem cs a); [|reflexivity].
    change (S (pos + d)) with (S pos + d). apply IH.
Qed.

Lemma accept_shifted d : shifted d accept accept.
Proof. intros p s c. reflexivity. Qed.

Lemma exec_shift r : bosFree r = true ->
  forall d k k', shifted d k k' ->
  forall pos s c, exec r k' (pos + d) s c = shiftRes d (exec r k pos s c).
Proof.
  induction r as [|cs|r1 IH1 r2 IH2|r1 IH1 r2 IH2|g cs|r1 IH1|n r1 IH1|b r1 IH1| |];
    simpl; intros HB d k k' Hk pos s c; try discriminate.
  - apply Hk.
  - destruct s as [|a s]; [reflexivity|]. destruct (mem cs a); [|reflexivity].
    apply (Hk (S pos)).
  - apply andb_true_iff in HB as [H1 H2].
    apply IH1; [assumption|]. intros p s0 c0. apply IH2; assumption.
  - apply andb_true_iff in HB as [H1 H2].
    rewrite (IH1 H1 d k k' Hk pos s c). destruct (exec r1 k pos s c); simpl; [reflexivity|].
    apply IH2; assumption.
  - destruct g; [apply starGreedy_shift|apply starLazy_shift]; assumption.
  - rewrite (IH1 HB d k k' Hk pos s c). destruct (exec r1 k pos s c); simpl; [reflexivity|apply Hk].
  - apply IH1; [assumption|]. intros p s0 c0.
    replace (p + d - (pos + d)) with (p - pos) by lia. apply Hk.
  - rewrite (IH1 HB d accept accept (accept_shifted d) pos s c).
    destruct b; destruct (exec r1 accept pos s c) as [[e c']|]; simpl;
      try reflexivity; apply Hk.
  - destruct s; [apply Hk|reflexivity].
Qed.

Lemma matchAt_shift r : bosFree r = true ->
  forall d pos s, matchAt r (pos + d) s = option_map (shiftMatch d) (matchAt r pos s).
Proof.
  intros HB d pos s. unfold matchAt.
  rewrite (@exec_shift r HB d accept accept (accept_shifted d) pos s []).
  destruct (exec r accept pos s []) as [[e c]|]; reflexivity.
Qed.

Lemma matchAt_none_any_pos r : bosFree r = true ->
  forall pos pos' s, matchAt r pos s = None -> matchAt r pos' s = None.
Proof.
  intros HB pos pos' s H.
  pose proof (@matchAt_shift r HB pos 0 s) as H1.
  pose proof (@matchAt_shift r HB pos' 0 s) as H2. simpl in H1, H2.
  rewrite H1 in H. rewrite H2.
  destruct (matchAt r 0 s); [discriminate|reflexivity].
Qed.

Lemma search_none_skipn r : bosFree r = true ->
  forall s pos, search r pos s = None ->
  forall n pos', search r pos' (skipn n s) = None.
Proof.
  intros HB s. induction s as [|a s IH]; intros pos H n pos'.
  - rewrite skipn_nil. simpl in *.
    destruct (matchAt r pos []) eqn:E; [discriminate|].
    now rewrite (@matchAt_none_any_pos r HB pos pos' [] E).
  - simpl in H. destruct (matchAt r pos (a :: s)) eqn:E; [discriminate|].
    destruct n as [|n]; simpl.
    + rewrite (@matchAt_none_any_pos r HB pos pos' _ E).
      apply (IH _ H 0).
    + apply (IH _ H).
Qed.

Lemma testGlobal_of_test_false r : bosFree r = true ->
  forall s, test r s = false -> forall li, testGlobal r s li = (false, 0).
Proof.
  intros HB s H li. unfold test, regexMatch, regexExec in H. unfold testGlobal, regexExec.
  simpl in H. destruct (search r 0 s) eqn:E; [discriminate|].
  destruct (List.length s <? li); [reflexivity|].
  now rewrite (@search_none_skipn r HB s 0 E).
Qed.

Lemma QML_JS_IMPORT_bosFree : bosFree REGEX_PATTERNS.QML_JS_IMPORT = true.
Proof. reflexivity. Qed.

Lemma split_no_sep sep s : ~ In sep s -> split sep s = [s].
Proof.
  induction s as [|a s IH]; simpl; intros H; [reflexivity|].
  destruct (Ascii.eqb_spec a sep) as [->|Hne]; [tauto|].
  rewrite IH by tauto. reflexivity.
Qed.


(** C4: on the empty document the planner answers line 0 with no blank line
    on either side; on a document that is one ordinary import line it answers
    line 1 with a blank line on both sides. *)
Theorem insertion_point_empty_and_single_import :
  (forall lastIndex,
      fst (getJsImportInsertionPoint [] lastIndex) = mkPoint 0 false false) /\
  (forall l lastIndex,
      ~ In LF l -> isOrdinaryImportLine l = true ->
      fst (getJsImportInsertionPoint l lastIndex) = mkPoint 1 true true).
Proof.
  split.
  - intros [|li]; reflexivity.
  - intros l li HLF HO. unfold isOrdinaryImportLine, containsScriptImport in HO.
    apply andb_true_iff in HO as [HQ HJ]. apply negb_true_iff in HJ.
    unfold getJsImportInsertionPoint, getLastJsImportLine, getLastQmlImportLine.
    rewrite (split_no_sep LF l HLF). simpl.
    rewrite (@testGlobal_of_test_false _ QML_JS_IMPORT_bosFree l HJ li).
    rewrite HQ. reflexivity.
Qed.

Lemma insertion_point_single_import_witness :
  fst (getJsImportInsertionPoint (js "import QtQuick 2.15") 0) = mkPoint 1 true true.
Proof.
  apply insertion_point_empty_and_single_import.
  - intros H. vm_compute in H. intuition discriminate.
  - vm_compute. reflexivity.
Defined.

(* ------------------------------------------------------------------ *)
(** ** Blank lines *)

Lemma trimStart_nil_iff s : trimStart s = [] <-> Forall (fun a => isSpace a = true) s.
Proof.
  induction s as [|a s IH]; simpl.
  - split; [constructor|reflexivity].
  - destruct (isSpace a) eqn:E.
    + rewrite IH. split; [intros H; constructor; assumption|intros H; inversion H; assumption].
    + split; [discriminate|intros H; inversion H; congruence].
Qed.

Lemma trimStart_suffix s : exists p, s = p ++ trimStart s.
Proof.
  induction s as [|a s [p IH]]; simpl.
  - exists []. reflexivity.
  - destruct (isSpace a).
    + exists (a :: p). simpl. congruence.
    + exists []. reflexivity.
Qed.

Lemma trimStart_head s a t : trimStart s = a :: t -> isSpace a = false.
Proof.
  induction s as [|b s IH]; simpl; [discriminate|].
  destruct (isSpace b) eqn:E; [exact IH|]. intros H. now inversion H; subst.
Qed.

Lemma isBlank_spaces s : isBlank s = true <-> Forall (fun a => isSpace a = true) s.
Proof.
  unfold isBlank, trim, trimEnd. split.
  - intros H. destruct (rev (trimStart (rev (trimStart s)))) eqn:E; [|discriminate].
    apply (f_equal (@rev ascii)) in E. rewrite rev_involutive in E. simpl in E.
    apply trimStart_nil_iff in E. apply Forall_rev in E. rewrite rev_involutive in E.
    destruct (trimStart s) as [|a t] eqn:Et.
    + now apply trimStart_nil_iff.
    + apply trimStart_head in Et. inversion E; congruence.
  - intros H. apply trimStart_nil_iff in H. rewrite H. reflexivity.
Qed.

Lemma search_lit_spaces c l : isSpace c = false ->
  forall s, Forall (fun a => isSpace a = true) s ->
  forall pos, search (lit (c :: l)) pos s = None.
Proof.
  intros Hc s Hs. induction Hs as [|a s Ha Hs IH]; intros pos; simpl.
  - reflexivity.
  - unfold matchAt. simpl.
    destruct (Ascii.eqb_spec a c) as [->|_]; [congruence|]. apply IH.
Qed.

Lemma blank_has_no_terminator l :
  isBlank l = true -> test REGEX_PATTERNS.JSDOC_END l = false.
Proof.
  intros H. apply isBlank_spaces in H.
  unfold test, regexMatch, regexExec. simpl.
  unfold REGEX_PATTERNS.JSDOC_END, Lit. simpl js.
  now rewrite (@search_lit_spaces "*"%char _ eq_refl l H 0).
Qed.

(* ------------------------------------------------------------------ *)
(** ** The Documentation Extractor without a block to read *)

Lemma scanToDocEnd_stops lines b :
  (b = 0 \/ exists l, nth_error lines (b - 1) = Some l /\ isBlank l = true) ->
  forall n, b <= n -> n <= List.length lines ->
  (forall i l, b <= i < n -> nth_error lines i = Some l ->
               test REGEX_PATTERNS.JSDOC_END l = false) ->
  exists j, scanToDocEnd lines n = Some j /\
            (lineAt lines j = None \/
             exists l, lineAt lines j = Some l /\ test REGEX_PATTERNS.JSDOC_END l = false).
Proof.
  intros Hb n. induction n as [|j IH]; intros Hbn Hlen Hno; simpl.
  - exists (-1)%Z. split; [reflexivity|left; reflexivity].
  - destruct (nth_error lines j) as [l|] eqn:El.
    2:{ apply nth_error_None in El. lia. }
    assert (Hat : lineAt lines (Z.of_nat j) = Some l).
    { unfold lineAt. destruct (Z.ltb_spec (Z.of_nat j) 0); [lia|].
      now rewrite Nat2Z.id. }
    destruct (Nat.eq_dec b (S j)) as [->|Hne].
    + destruct Hb as [Hb|[l' [Hl' Hblank]]]; [discriminate|].
      simpl in Hl'. rewrite Nat.sub_0_r in Hl'. rewrite El in Hl'. inversion Hl'; subst l'.
      rewrite Hblank. simpl. exists (Z.of_nat j). split; [reflexivity|].
      right. exists l. split; [assumption|now apply blank_has_no_terminator].
    + assert (Hend : test REGEX_PATTERNS.JSDOC_END l = false) by (apply (Hno j); [lia|assumption]).
      rewrite Hend. simpl. rewrite andb_true_r.
      destruct (isBlank l); simpl.
      * exists (Z.of_nat j). split; [reflexivity|]. right. exists l. tauto.
      * apply IH; [lia|lia|]. intros i l0 Hi. apply Hno. lia.
Qed.

(** C1 (amended): when the upward scan meets a blank line or the start of the
    file before any line that closes a block comment, the Documentation
    Extractor returns the all-default result and does not fail; a blank line
    directly above the declaration is the case [b = functionLineIndex]. *)
Theorem extractJSDoc_default_without_block (lines : list str) (functionLineIndex : nat) :
  functionLineIndex < List.length lines ->
  noTerminatorBeforeBlank lines functionLineIndex ->
  extractJSDoc lines functionLineIndex = Some defaultJSDoc.
Proof.
  intros Hlen [b [Hb [Hstart Hno]]].
  destruct (@scanToDocEnd_stops lines b Hstart functionLineIndex Hb ltac:(lia) Hno)
    as [j [Hj Hline]].
  unfold extractJSDoc. rewrite Hj.
  destruct Hline as [Hnone|[l [Hl Hend]]].
  - rewrite Hnone. reflexivity.
  - rewrite Hl, Hend, andb_false_r. reflexivity.
Qed.

Lemma extractJSDoc_default_witness :
  extractJSDoc (map js ["/** Adds. */"; ""; "function add(a, b) {}"]%string) 2 = Some defaultJSDoc.
Proof.
  apply extractJSDoc_default_without_block.
  - simpl. lia.
  - exists 2. split; [lia|]. split.
    + right. exists []. split; reflexivity.
    + intros i l Hi. lia.
Defined.

(** C1 as stated fails: a block above a declaration is still read through
    lines that are not blank, so the second function below, which has no
    block immediately above it, receives the block of the first. *)
Lemma extractJSDoc_reads_distant_block :
  let lines := map js ["/**"; " * Adds."; " * @returns {number} sum"; " */";
                       "function add(a, b) { return a + b; }";
                       "function sub(a, b) { return a - b; }"]%string in
  5 < List.length lines /\
  ~ docBlockImmediatelyAbove lines 5 /\
  extractJSDoc lines 5 = Some (mkJSDocInfo (js "Adds.") (js "number") []) /\
  extractJSDoc lines 5 <> Some defaultJSDoc.
Proof.
  cbv zeta. split; [simpl; lia|]. split; [|split].
  - intros [l [_ [Hl Hend]]]. simpl in Hl. inversion Hl; subst l.
    vm_compute in Hend. discriminate.
  - vm_compute. reflexivity.
  - vm_compute. discriminate.
Qed.

(* ------------------------------------------------------------------ *)
(** ** Alias suggestion *)

Lemma regexMatch_search r s : regexMatch r s = search r 0 s.
Proof.
  unfold regexMatch, regexExec. destruct (Nat.ltb_spec (List.length s) 0); [lia|reflexivity].
Qed.

Lemma matchAt_dotJsAtEnd_hit pos :
  matchAt dotJsAtEnd pos (js ".js") = Some (mkMatch pos (pos + 3) []).
Proof.
  unfold matchAt, dotJsAtEnd, Lit. simpl.
  replace (S (S (S pos))) with (pos + 3) by lia. reflexivity.
Qed.

Lemma matchAt_dotJsAtEnd_miss pos s : s <> js ".js" -> matchAt dotJsAtEnd pos s = None.
Proof.
  intros H. unfold matchAt, dotJsAtEnd, Lit. simpl js.
  destruct s as [|a [|b [|c [|d s]]]]; simpl; try reflexivity;
    repeat match goal with
    | |- context [Ascii.eqb ?x ?y] => destruct (Ascii.eqb_spec x y); subst
    end; try reflexivity.
  exfalso. apply H. reflexivity.
Qed.

Lemma search_dotJsAtEnd_suffix b : forall pos,
  search dotJsAtEnd pos (b ++ js ".js")
  = Some (mkMatch (pos + List.length b) (pos + List.length b + 3) []).
Proof.
  induction b as [|a b IH]; intros pos.
  - simpl app. cbn [search]. rewrite matchAt_dotJsAtEnd_hit.
    simpl. now rewrite Nat.add_0_r.
  - simpl app. cbn [search]. rewrite matchAt_dotJsAtEnd_miss.
    + rewrite IH. simpl. f_equal. f_equal; lia.
    + intros E. apply (f_equal (@List.length ascii)) in E. simpl in E.
      rewrite length_app in E. simpl in E. lia.
Qed.

Lemma search_dotJsAtEnd_none s : ~ hasJsExtension s ->
  forall pos, search dotJsAtEnd pos s = None.
Proof.
  induction s as [|a s IH]; intros H pos; cbn [search].
  - reflexivity.
  - rewrite matchAt_dotJsAtEnd_miss.
    + apply IH. intros [b Hb]. apply H. exists (a :: b). rewrite Hb. reflexivity.
    + intros E. apply H. exists []. exact E.
Qed.

Lemma replaceFirst_strips_extension b :
  replaceFirst dotJsAtEnd [] (b ++ js ".js") = b.
Proof.
  unfold replaceFirst. rewrite regexMatch_search, search_dotJsAtEnd_suffix.
  cbn [m_index m_end Nat.add app].
  rewrite firstn_app, firstn_all, Nat.sub_diag. cbn [firstn].
  rewrite skipn_all2 by (rewrite length_app; simpl; lia).
  now rewrite !app_nil_r.
Qed.

Lemma replaceFirst_keeps_other s : ~ hasJsExtension s -> replaceFirst dotJsAtEnd [] s = s.
Proof.
  intros H. unfold replaceFirst. now rewrite regexMatch_search, search_dotJsAtEnd_none.
Qed.

Lemma matchAt_separator pos a s :
  matchAt separator pos (a :: s) =
  if isHyphenOrUnderscore a then Some (mkMatch pos (S pos) []) else None.
Proof.
  unfold matchAt, separator, isHyphenOrUnderscore. simpl. rewrite orb_false_r.
  destruct (Ascii.eqb a "-" || Ascii.eqb a "_"); reflexivity.
Qed.

Lemma splitBy_nonempty p s : splitBy p s <> [].
Proof.
  destruct s as [|a s]; simpl; [discriminate|].
  destruct (p a); [discriminate|]. destruct (splitBy p s); discriminate.
Qed.

Lemma splitScan_separator s : forall pos piece,
  splitScan separator pos s piece 0 =
  match splitBy isHyphenOrUnderscore s with
  | h :: t => (piece ++ h) :: t
  | [] => [piece]
  end.
Proof.
  induction s as [|a s IH]; intros pos piece.
  - simpl. now rewrite app_nil_r.
  - cbn [splitScan splitBy]. rewrite matchAt_separator.
    pose proof (splitBy_nonempty isHyphenOrUnderscore s) as Hne.
    destruct (isHyphenOrUnderscore a).
    + cbn [m_end]. replace (S pos =? pos) with false by (symmetry; apply Nat.eqb_neq; lia).
      replace (Nat.pred (S pos - pos)) with 0 by lia.
      rewrite IH, app_nil_r.
      destruct (splitBy isHyphenOrUnderscore s); [congruence|reflexivity].
    + rewrite IH. destruct (splitBy isHyphenOrUnderscore s) as [|h t]; [congruence|].
      now rewrite <- app_assoc.
Qed.

Lemma splitRegex_separator s : splitRegex separator s = splitBy isHyphenOrUnderscore s.
Proof.
  destruct s as [|a s]; [reflexivity|].
  unfold splitRegex. rewrite splitScan_separator.
  pose proof (splitBy_nonempty isHyphenOrUnderscore (a :: s)) as Hne.
  destruct (splitBy isHyphenOrUnderscore (a :: s)); [congruence|reflexivity].
Qed.

Lemma generateAliasFromFilename_base (filename baseName : str) :
  filename = baseName ++ js ".js" \/ (baseName = filename /\ ~ hasJsExtension filename) ->
  generateAliasFromFilename filename = aliasOfBaseName baseName.
Proof.
  intros H. unfold generateAliasFromFilename, aliasOfBaseName.
  fold dotJsAtEnd. fold separator. rewrite splitRegex_separator.
  destruct H as [->|[-> H]].
  - now rewrite replaceFirst_strips_extension.
  - now rewrite replaceFirst_keeps_other.
Qed.



(* ------------------------------------------------------------------ *)
(** ** Alias resolution *)

Lemma str_eqb_eq a b : str_eqb a b = true <-> a = b.
Proof.
  unfold str_eqb. destruct (list_eq_dec ascii_dec a b); split; congruence.
Qed.

Lemma str_eqb_neq a b : str_eqb a b = false <-> a <> b.
Proof.
  unfold str_eqb. destruct (list_eq_dec ascii_dec a b); split; congruence.
Qed.





(** C2 (the code departs from the claim): of two consecutive script import
    lines the second is not seen, because its [test] starts at the
    [lastIndex] the first one left; the answer is line 0 although line 1
    contains a script import.  The same stale [lastIndex] is what the Import
    Extractor starts from when the last line of a document is a script
    import. *)
Theorem getLastJsImportLine_misses_consecutive_import :
  let qmlContent := unlines [importLine "a.js" "A"; importLine "b.js" "B"] in
  nth_error (split LF qmlContent) 1 = Some (importLine "b.js" "B") /\
  containsScriptImport (importLine "b.js" "B") = true /\
  getLastJsImportLine qmlContent 0 = (0%Z, 0) /\
  getLastJsImportLine (importLine "a.js" "A") 0 = (0%Z, 18) /\
  findJavaScriptImports (importLine "a.js" "A") 18 = [].
Proof. vm_compute. repeat split; reflexivity. Qed.

(* ------------------------------------------------------------------ *)
(** ** Inversion and completeness lemmas for the matcher *)

Lemma exec_lit_app l k pos s c : exec (lit l) k pos (l ++ s) c = k (pos + List.length l) s c.
Proof.
  revert pos. induction l as [|a l IH]; intros pos; simpl.
  - now rewrite Nat.add_0_r.
  - rewrite Ascii.eqb_refl, IH. f_equal. lia.
Qed.

Lemma exec_lit_inv l k pos s c x :
  exec (lit l) k pos s c = Some x ->
  exists s', s = l ++ s' /\ k (pos + List.length l) s' c = Some x.
Proof.
  revert pos s. induction l as [|a l IH]; intros pos s H; simpl in *.
  - exists s. now rewrite Nat.add_0_r.
  - destruct s as [|b s]; [discriminate|].
    destruct (Ascii.eqb_spec b a) as [->|]; [|discriminate].
    apply IH in H as [s' [-> H]]. exists s'. split; [reflexivity|].
    now replace (pos + S (List.length l)) with (S pos + List.length l) by lia.
Qed.

Lemma exec_lit_none l k pos s c :
  (forall s', s <> l ++ s') -> exec (lit l) k pos s c = None.
Proof.
  intros H. destruct (exec (lit l) k pos s c) eqn:E; [|reflexivity].
  apply exec_lit_inv in E as [s' [E _]]. now apply H in E.
Qed.

Lemma exec_chr_inv cs k pos s c x :
  exec (Chr cs) k pos s c = Some x ->
  exists a s', s = a :: s' /\ mem cs a = true /\ k (S pos) s' c = Some x.
Proof.
  simpl. destruct s as [|a s]; [discriminate|].
  destruct (mem cs a) eqn:E; [|discriminate]. intros H. now exists a, s.
Qed.

Lemma starGreedy_total cs k c : (forall p s0 c0, k p s0 c0 <> None) ->
  forall s pos, starGreedy cs k pos s c <> None.
Proof.
  intros Htotal. induction s as [|b s IH]; intros pos; simpl; [apply Htotal|].
  destruct (mem cs b); [|apply Htotal].
  destruct (starGreedy cs k (S pos) s c) eqn:E; [discriminate|].
  now apply IH in E.
Qed.

Lemma starGreedy_inv cs k c x : forall s pos,
  starGreedy cs k pos s c = Some x ->
  exists run s', s = run ++ s' /\ inSet cs run /\ k (pos + List.length run) s' c = Some x /\
    ((forall p s0 c0, k p s0 c0 <> None) -> stopsAt cs s').
Proof.
  induction s as [|a s IH]; intros pos H; simpl in H.
  - exists [], []. split; [reflexivity|]. split; [constructor|].
    split; [now rewrite Nat.add_0_r|]. intros _. exact I.
  - destruct (mem cs a) eqn:Ea.
    + destruct (starGreedy cs k (S pos) s c) eqn:E.
      * inversion H; subst p. apply IH in E as [run [s' [-> [Hrun [Hk Hstop]]]]].
        exists (a :: run), s'. split; [reflexivity|]. split; [now constructor|].
        split; [|assumption].
        now replace (pos + List.length (a :: run)) with (S pos + List.length run)
          by (simpl; lia).
      * exists [], (a :: s). split; [reflexivity|]. split; [constructor|].
        split; [now rewrite Nat.add_0_r|].
        intros Htotal. exfalso. now apply (@starGreedy_total cs k c Htotal s (S pos)).
    + exists [], (a :: s). split; [reflexivity|]. split; [constructor|].
      split; [now rewrite Nat.add_0_r|]. intros _. exact Ea.
Qed.

Lemma starGreedy_app cs k c x run : inSet cs run -> forall pos s,
  starGreedy cs k (pos + List.length run) s c = Some x ->
  starGreedy cs k pos (run ++ s) c = Some x.
Proof.
  intros Hrun. induction Hrun as [|a run Ha Hrun IH]; intros pos s H; simpl in *.
  - now rewrite Nat.add_0_r in H.
  - rewrite Ha. rewrite (IH (S pos) s); [reflexivity|].
    now replace (S pos + List.length run) with (pos + S (List.length run)) by lia.
Qed.

Lemma starGreedy_stop cs k c pos s : stopsAt cs s -> starGreedy cs k pos s c = k pos s c.
Proof.
  destruct s as [|a s]; simpl; [reflexivity|]. now intros ->.
Qed.

Lemma starGreedy_max cs k c x run pos s :
  inSet cs run -> stopsAt cs s -> k (pos + List.length run) s c = Some x ->
  starGreedy cs k pos (run ++ s) c = Some x.
Proof.
  intros Hrun Hs Hk. apply starGreedy_app; [assumption|]. now rewrite starGreedy_stop.
Qed.

Lemma plus_inv cs k pos s c x :
  exec (Plus true cs) k pos s c = Some x ->
  exists run s', s = run ++ s' /\ run <> [] /\ inSet cs run /\
    k (pos + List.length run) s' c = Some x /\
    ((forall p s0 c0, k p s0 c0 <> None) -> stopsAt cs s').
Proof.
  unfold Plus. cbn [exec]. intros H.
  apply exec_chr_inv in H as [a [s1 [-> [Ha H]]]].
  apply starGreedy_inv in H as [run [s' [-> [Hrun [Hk Hstop]]]]].
  exists (a :: run), s'. split; [reflexivity|]. split; [discriminate|].
  split; [now constructor|]. split; [|assumption].
  now replace (pos + List.length (a :: run)) with (S pos + List.length run) by (simpl; lia).
Qed.

Lemma plus_max cs k c x run pos s :
  run <> [] -> inSet cs run -> stopsAt cs s -> k (pos + List.length run) s c = Some x ->
  exec (Plus true cs) k pos (run ++ s) c = Some x.
Proof.
  intros Hne Hrun Hs Hk. destruct run as [|a run]; [congruence|].
  inversion Hrun; subst. unfold Plus. cbn [exec app].
  rewrite H1. apply starGreedy_max; try assumption.
  now replace (S pos + List.length run) with (pos + List.length (a :: run)) by (simpl; lia).
Qed.

(* ------------------------------------------------------------------ *)
(** ** What [QML_JS_IMPORT] matches *)

Lemma word_not_space a : isWord a = true -> isSpace a = false.
Proof.
  destruct a as [[] [] [] [] [] [] [] []]; vm_compute; congruence.
Qed.

Lemma mem_char_eq c a : mem (CChar c) a = true -> a = c.
Proof. simpl. now intros H%Ascii.eqb_eq. Qed.

Lemma inSet_noQuote p : inSet (CNoneOf [DQUOTE]) p <-> noQuote p.
Proof.
  unfold inSet, noQuote. rewrite !Forall_forall. split; intros H a Ha; specialize (H a Ha).
  - simpl in H. rewrite orb_false_r in H. apply negb_true_iff in H.
    now apply Ascii.eqb_neq in H.
  - simpl. rewrite orb_false_r. apply negb_true_iff. now apply Ascii.eqb_neq.
Qed.

Lemma notWordStart_stops rest : stopsAt CWord rest <-> notWordStart rest.
Proof. destruct rest; simpl; tauto. Qed.

Lemma stopsAt_space_word a rest : isWord a = true -> stopsAt CSpace (a :: rest).
Proof. simpl. apply word_not_space. Qed.

Lemma firstn_length_app (A : Type) (l r : list A) n : n = List.length l -> firstn n (l ++ r) = l.
Proof.
  intros ->. rewrite firstn_app, firstn_all, Nat.sub_diag. simpl. apply app_nil_r.
Qed.

(** The greedy run of [[^\x22]+] in front of [\.js\x22] gives back exactly the
    three characters of the extension. *)
Lemma noquote_run_js (kw : cont) p pos rest c x :
  p <> [] -> noQuote p ->
  kw (pos + List.length p + 3) (DQUOTE :: rest) c = Some x ->
  exec (Plus true (CNoneOf [DQUOTE])) (exec (lit (js ".js")) kw) pos
       (p ++ js ".js" ++ DQUOTE :: rest) c = Some x.
Proof.
  intros Hne Hp Hk. destruct p as [|a p]; [congruence|].
  inversion Hp as [|? ? Ha Hp']; subst. unfold Plus. cbn [exec app].
  assert (Hma : mem (CNoneOf [DQUOTE]) a = true).
  { simpl. rewrite orb_false_r. apply negb_true_iff. now apply Ascii.eqb_neq. }
  rewrite Hma. apply starGreedy_app; [now apply inSet_noQuote|].
  simpl. simpl in Hk.
  replace (S (S (S (S (pos + List.length p))))) with (pos + S (List.length p) + 3) by lia.
  exact Hk.
Qed.

Lemma importText_length ws1 p ws2 ws3 a :
  List.length (importText ws1 p ws2 ws3 a)
  = 13 + List.length ws1 + List.length p + List.length ws2 + List.length ws3 + List.length a.
Proof.
  unfold importText.
  repeat (rewrite length_app || cbn [List.length]). simpl. lia.
Qed.

Lemma mem_char_refl c : mem (CChar c) c = true.
Proof. apply Ascii.eqb_refl. Qed.

Lemma exec_import_complete pos ws1 p ws2 ws3 a rest :
  ws1 <> [] -> spaces ws1 -> p <> [] -> noQuote p ->
  ws2 <> [] -> spaces ws2 -> ws3 <> [] -> spaces ws3 ->
  a <> [] -> wordChars a -> notWordStart rest ->
  exec REGEX_PATTERNS.QML_JS_IMPORT accept pos (importText ws1 p ws2 ws3 a ++ rest) []
  = Some (pos + List.length (importText ws1 p ws2 ws3 a), importCaps (p ++ js ".js") a).
Proof.
  intros Hn1 H1 Hnp Hp Hn2 H2 Hn3 H3 Hna Ha Hrest.
  unfold REGEX_PATTERNS.QML_JS_IMPORT, REGEX_PATTERNS.quoted_js, Lit.
  replace (importText ws1 p ws2 ws3 a ++ rest)
    with (js "import" ++ ws1 ++ DQUOTE :: p ++ js ".js" ++ DQUOTE :: ws2 ++ js "as" ++ ws3 ++ a ++ rest)
    by (unfold importText; flatten_app; reflexivity).
  cbn [exec]. rewrite exec_lit_app.
  apply plus_max; [assumption|assumption|reflexivity|].
  rewrite mem_char_refl.
  apply noquote_run_js; [assumption|assumption|].
  cbn beta iota. rewrite mem_char_refl.
  apply plus_max; [assumption|assumption|reflexivity|].
  rewrite exec_lit_app.
  destruct a as [|a0 a]; [congruence|]. inversion Ha as [|? ? Ha0 Ha']; subst.
  apply plus_max; [assumption|assumption|now apply stopsAt_space_word|].
  apply plus_max; [discriminate|exact Ha|now apply notWordStart_stops|].
  unfold accept. f_equal. f_equal.
  - rewrite importText_length. simpl. lia.
  - unfold importCaps.
    rewrite (@firstn_length_app _ (a0 :: a) rest) by lia.
    rewrite (app_assoc p).
    rewrite (@firstn_length_app _ (p ++ js ".js")) by (rewrite length_app; simpl; lia).
    reflexivity.
Qed.

Lemma matchAt_import_complete pos body f a rest :
  isScriptImport body f a -> notWordStart rest ->
  matchAt REGEX_PATTERNS.QML_JS_IMPORT pos (body ++ rest)
  = Some (mkMatch pos (pos + List.length body) (importCaps f a)).
Proof.
  intros [ws1 [p [ws2 [ws3 [-> [-> [Hn1 [H1 [Hnp [Hp [Hn2 [H2 [Hn3 [H3 [Hna Ha]]]]]]]]]]]]]]] Hrest.
  unfold matchAt. now rewrite exec_import_complete.
Qed.

Lemma exec_import_sound pos s x :
  exec REGEX_PATTERNS.QML_JS_IMPORT accept pos s [] = Some x ->
  exists ws1 p ws2 ws3 a rest,
    s = importText ws1 p ws2 ws3 a ++ rest /\
    ws1 <> [] /\ spaces ws1 /\ p <> [] /\ noQuote p /\
    ws2 <> [] /\ spaces ws2 /\ ws3 <> [] /\ spaces ws3 /\
    a <> [] /\ wordChars a /\ notWordStart rest.
Proof.
  unfold REGEX_PATTERNS.QML_JS_IMPORT, REGEX_PATTERNS.quoted_js, Lit.
  cbn [exec]. intros H.
  apply exec_lit_inv in H as [s1 [-> H]].
  apply plus_inv in H as [ws1 [s2 [-> [Hn1 [H1 [H _]]]]]].
  destruct s2 as [|q s3]; [discriminate|].
  destruct (mem (CChar DQUOTE) q) eqn:Eq; [|discriminate].
  apply mem_char_eq in Eq. subst q.
  apply plus_inv in H as [p [s4 [-> [Hnp [Hp [H _]]]]]].
  apply exec_lit_inv in H as [s5 [-> H]].
  cbn beta iota in H.
  destruct s5 as [|q s6]; [discriminate|].
  destruct (mem (CChar DQUOTE) q) eqn:Eq; [|discriminate].
  apply mem_char_eq in Eq. subst q.
  apply plus_inv in H as [ws2 [s7 [-> [Hn2 [H2 [H _]]]]]].
  apply exec_lit_inv in H as [s8 [-> H]].
  apply plus_inv in H as [ws3 [s9 [-> [Hn3 [H3 [H _]]]]]].
  apply plus_inv in H as [a [rest [-> [Hna [Ha [H Hstop]]]]]].
  exists ws1, p, ws2, ws3, a, rest.
  split.
  { unfold importText. flatten_app. reflexivity. }
  repeat (split; [assumption|]).
  split; [now apply inSet_noQuote|].
  repeat (split; [assumption|]).
  apply notWordStart_stops. apply Hstop. intros p0 s0 c0. discriminate.
Qed.

Lemma matchAt_import_sound pos s m :
  matchAt REGEX_PATTERNS.QML_JS_IMPORT pos s = Some m ->
  exists body f a rest,
    s = body ++ rest /\ isScriptImport body f a /\ notWordStart rest /\
    m = mkMatch pos (pos + List.length body) (importCaps f a).
Proof.
  intros H. unfold matchAt in H.
  destruct (exec REGEX_PATTERNS.QML_JS_IMPORT accept pos s []) as [[e c]|] eqn:E; [|discriminate].
  pose proof E as E'.
  apply exec_import_sound in E'
    as [ws1 [p [ws2 [ws3 [a [rest [-> [Hn1 [H1 [Hnp [Hp [Hn2 [H2 [Hn3 [H3 [Hna [Ha Hrest]]]]]]]]]]]]]]]]].
  rewrite exec_import_complete in E by assumption.
  inversion E; subst e c. inversion H; subst m.
  exists (importText ws1 p ws2 ws3 a), (p ++ js ".js"), a, rest.
  split; [reflexivity|]. split; [|split; [assumption|reflexivity]].
  exists ws1, p, ws2, ws3. repeat (split; [first [reflexivity|assumption]|]). assumption.
Qed.

(** A match of [QML_JS_IMPORT] at a position is exactly a script import
    statement there whose alias cannot be extended. *)
Lemma matchAt_import_iff pos s m :
  matchAt REGEX_PATTERNS.QML_JS_IMPORT pos s = Some m <->
  exists body f a rest,
    s = body ++ rest /\ isScriptImport body f a /\ notWordStart rest /\
    m = mkMatch pos (pos + List.length body) (importCaps f a).
Proof.
  split; [apply matchAt_import_sound|].
  intros [body [f [a [rest [-> [Hb [Hr ->]]]]]]]. now apply matchAt_import_complete.
Qed.

(* ------------------------------------------------------------------ *)
(** ** The Import Extractor as a function of the text alone *)

Lemma scan_skip r u : forall v pos,
  scan r pos (u ++ v) (List.length u) = scan r (pos + List.length u) v 0.
Proof.
  induction u as [|a u IH]; intros v pos; simpl.
  - now rewrite Nat.add_0_r.
  - rewrite IH. f_equal. lia.
Qed.

Lemma matchAt_from_zero r : bosFree r = true ->
  forall pos s, matchAt r pos s = option_map (shiftMatch pos) (matchAt r 0 s).
Proof.
  intros HB pos s. now rewrite <- (@matchAt_shift r HB pos 0 s).
Qed.

Lemma importsOf_scan_pos s : forall pos skip,
  importsOf (scan REGEX_PATTERNS.QML_JS_IMPORT pos s skip)
  = importsOf (scan REGEX_PATTERNS.QML_JS_IMPORT 0 s skip).
Proof.
  induction s as [|a s IH]; intros pos skip.
  - destruct skip; [|reflexivity]. cbn [scan].
    rewrite (@matchAt_from_zero _ QML_JS_IMPORT_bosFree pos []).
    destruct (matchAt REGEX_PATTERNS.QML_JS_IMPORT 0 []); reflexivity.
  - destruct skip as [|skip]; cbn [scan].
    + rewrite (@matchAt_from_zero _ QML_JS_IMPORT_bosFree pos (a :: s)).
      destruct (matchAt REGEX_PATTERNS.QML_JS_IMPORT 0 (a :: s)) as [m|]; cbn [option_map].
      * cbn [importsOf map]. f_equal.
        fold (importsOf (scan REGEX_PATTERNS.QML_JS_IMPORT (S pos) s
                              (Nat.pred (m_end (shiftMatch pos m) - pos)))).
        fold (importsOf (scan REGEX_PATTERNS.QML_JS_IMPORT 1 s (Nat.pred (m_end m - 0)))).
        rewrite IH, (IH 1). do 2 f_equal. simpl. lia.
      * rewrite IH, (IH 1). reflexivity.
    + rewrite IH, (IH 1). reflexivity.
Qed.

Lemma findJavaScriptImports_importsFrom qmlContent lastIndex :
  findJavaScriptImports qmlContent lastIndex =
  if List.length qmlContent <? lastIndex then [] else importsFrom (skipn lastIndex qmlContent).
Proof.
  unfold findJavaScriptImports, matchAllFrom, importsFrom.
  destruct (List.length qmlContent <? lastIndex); [reflexivity|].
  apply importsOf_scan_pos.
Qed.

Lemma importsFrom_nil : importsFrom [] = [].
Proof. reflexivity. Qed.

Lemma importsFrom_miss a s :
  matchAt REGEX_PATTERNS.QML_JS_IMPORT 0 (a :: s) = None ->
  importsFrom (a :: s) = importsFrom s.
Proof.
  intros H. unfold importsFrom. cbn [scan]. rewrite H. apply importsOf_scan_pos.
Qed.

Lemma isScriptImport_length body f a : isScriptImport body f a -> 13 < List.length body.
Proof.
  intros [ws1 [p [ws2 [ws3 [-> [_ [Hn1 _]]]]]]]. rewrite importText_length.
  destruct ws1; [congruence|simpl; lia].
Qed.

Lemma importsFrom_hit body f a rest :
  isScriptImport body f a -> notWordStart rest ->
  importsFrom (body ++ rest) = mkImport f a :: importsFrom rest.
Proof.
  intros Hb Hr. unfold importsFrom.
  pose proof (isScriptImport_length Hb) as Hlen.
  destruct body as [|b0 body]; [simpl in Hlen; lia|].
  cbn [app scan].
  change (b0 :: body ++ rest) with ((b0 :: body) ++ rest).
  rewrite (@matchAt_import_complete 0 _ _ _ rest Hb Hr).
  cbn [importsOf map m_end]. f_equal.
  fold (importsOf (scan REGEX_PATTERNS.QML_JS_IMPORT 1 (body ++ rest)
                        (Nat.pred (0 + List.length (b0 :: body) - 0)))).
  replace (Nat.pred (0 + List.length (b0 :: body) - 0)) with (List.length body) by (simpl; lia).
  rewrite scan_skip. apply importsOf_scan_pos.
Qed.

Lemma matchAt_import_needs_i a s :
  a <> "i"%char -> matchAt REGEX_PATTERNS.QML_JS_IMPORT 0 (a :: s) = None.
Proof.
  intros Ha. destruct (matchAt REGEX_PATTERNS.QML_JS_IMPORT 0 (a :: s)) eqn:E; [|reflexivity].
  apply matchAt_import_sound in E as [body [f [a0 [rest [Hs [[ws1 [p [ws2 [ws3 [-> _]]]]] _]]]]]].
  unfold importText in Hs. simpl in Hs. inversion Hs. congruence.
Qed.



Lemma importStatementLine_isScriptImport imp :
  wellFormedImport imp -> isScriptImport (importStatementLine imp) (file imp) (alias imp).
Proof.
  intros [p [Hf [Hnp [Hp [Hna Ha]]]]].
  exists [" "%char], p, [" "%char], [" "%char].
  split; [unfold importStatementLine, importText; rewrite Hf; reflexivity|].
  split; [assumption|].
  repeat (split; [first [discriminate|assumption|repeat constructor]|]). assumption.
Qed.




(* ------------------------------------------------------------------ *)
(** ** What [FUNCTION_DECLARATION] matches *)

Lemma starLazy_inv cs k c x : forall s pos,
  starLazy cs k pos s c = Some x ->
  exists run s', s = run ++ s' /\ inSet cs run /\ k (pos + List.length run) s' c = Some x /\
    forall run1 a run2, run = run1 ++ a :: run2 ->
                        k (pos + List.length run1) (a :: run2 ++ s') c = None.
Proof.
  induction s as [|a s IH]; intros pos H; simpl in H.
  - destruct (k pos [] c) eqn:E; [|discriminate]. inversion H; subst p.
    exists [], []. split; [reflexivity|]. split; [constructor|].
    split; [now rewrite Nat.add_0_r|]. intros [|] ? ? ?; discriminate.
  - destruct (k pos (a :: s) c) eqn:E.
    + inversion H; subst p. exists [], (a :: s). split; [reflexivity|]. split; [constructor|].
      split; [now rewrite Nat.add_0_r|]. intros [|] ? ? ?; discriminate.
    + destruct (mem cs a) eqn:Ea; [|discriminate].
      apply IH in H as [run [s' [-> [Hrun [Hk Hmin]]]]].
      exists (a :: run), s'. split; [reflexivity|]. split; [now constructor|]. split.
      * now replace (pos + List.length (a :: run)) with (S pos + List.length run)
          by (simpl; lia).
      * intros run1 b run2 Hsplit. destruct run1 as [|a1 run1]; simpl in Hsplit.
        -- inversion Hsplit; subst. now rewrite Nat.add_0_r.
        -- inversion Hsplit; subst.
           replace (pos + List.length (a1 :: run1)) with (S pos + List.length run1)
             by (simpl; lia).
           now apply Hmin.
Qed.

Lemma starLazy_min cs k c x run : inSet cs run -> forall pos s,
  (forall run1 a run2, run = run1 ++ a :: run2 ->
                       k (pos + List.length run1) (a :: run2 ++ s) c = None) ->
  k (pos + List.length run) s c = Some x ->
  starLazy cs k pos (run ++ s) c = Some x.
Proof.
  intros Hrun. induction Hrun as [|a run Ha Hrun IH]; intros pos s Hmin Hk.
  - simpl in *. rewrite Nat.add_0_r in Hk. destruct s; simpl; now rewrite Hk.
  - cbn [app starLazy].
    pose proof (Hmin [] a run eq_refl) as H0. simpl in H0. rewrite Nat.add_0_r in H0.
    rewrite H0, Ha. apply IH.
    + intros run1 b run2 ->.
      replace (S pos + List.length run1) with (pos + List.length (a :: run1)) by (simpl; lia).
      now apply (Hmin (a :: run1) b run2).
    + now replace (S pos + List.length run) with (pos + List.length (a :: run)) by (simpl; lia).
Qed.

Lemma space_not_word a : isSpace a = true -> isWord a = false.
Proof.
  intros H. destruct (isWord a) eqn:E; [|reflexivity].
  apply word_not_space in E. congruence.
Qed.

Lemma search_bos_later r s : forall pos, search (Bos >> r) (S pos) s = None.
Proof.
  induction s as [|a s IH]; intros pos; simpl; [reflexivity|apply IH].
Qed.

Lemma regexMatch_bos r s : regexMatch (Bos >> r) s = matchAt (Bos >> r) 0 s.
Proof.
  rewrite regexMatch_search. destruct s as [|a s]; simpl.
  - destruct (matchAt (Bos >> r) 0 []); reflexivity.
  - destruct (matchAt (Bos >> r) 0 (a :: s)); [reflexivity|apply search_bos_later].
Qed.

Lemma rawParams_inSet raw : rawParams raw -> inSet CDot raw.
Proof.
  unfold rawParams, inSet. apply Forall_impl. intros a [_ H]. simpl. now rewrite H.
Qed.

Lemma exec_function_complete ws name ws' raw rest :
  ws <> [] -> spaces ws -> name <> [] -> wordChars name -> spaces ws' -> rawParams raw ->
  exec REGEX_PATTERNS.FUNCTION_DECLARATION accept 0
       (js "function" ++ ws ++ name ++ ws' ++ "("%char :: raw ++ ")"%char :: rest) []
  = Some (8 + List.length ws + List.length name + List.length ws' + 1 + List.length raw + 1,
          functionCaps name raw).
Proof.
  intros Hnw Hw Hnn Hn Hw' Hraw.
  unfold REGEX_PATTERNS.FUNCTION_DECLARATION, Lit. cbn [exec Nat.eqb].
  rewrite exec_lit_app.
  assert (Hstop : stopsAt CWord (ws' ++ "("%char :: raw ++ ")"%char :: rest)).
  { destruct ws' as [|b ws']; [reflexivity|]. inversion Hw'; subst. simpl.
    now apply space_not_word. }
  destruct name as [|n0 name]; [congruence|]. inversion Hn as [|? ? Hn0 Hn']; subst.
  apply plus_max; [assumption|assumption|now apply stopsAt_space_word|].
  apply plus_max; [discriminate|exact Hn|exact Hstop|].
  apply starGreedy_max; [exact Hw'|reflexivity|].
  rewrite mem_char_refl.
  apply starLazy_min; [now apply rawParams_inSet| |].
  - intros run1 a run2 ->. apply Forall_app in Hraw as [_ Hraw].
    inversion Hraw as [|? ? [Ha _] _]; subst.
    destruct (mem (CChar ")") a) eqn:E; [|reflexivity].
    apply mem_char_eq in E. congruence.
  - rewrite mem_char_refl. unfold accept, functionCaps. f_equal. f_equal.
    + simpl. lia.
    + rewrite (@firstn_length_app _ raw) by lia.
      rewrite (@firstn_length_app _ (n0 :: name)) by lia. reflexivity.
Qed.

Lemma exec_function_sound pos s x :
  exec REGEX_PATTERNS.FUNCTION_DECLARATION accept pos s [] = Some x ->
  pos = 0 /\
  exists ws name ws' raw rest,
    s = js "function" ++ ws ++ name ++ ws' ++ "("%char :: raw ++ ")"%char :: rest /\
    ws <> [] /\ spaces ws /\ name <> [] /\ wordChars name /\ spaces ws' /\ rawParams raw.
Proof.
  unfold REGEX_PATTERNS.FUNCTION_DECLARATION, Lit. cbn [exec]. intros H.
  destruct (Nat.eqb_spec pos 0) as [->|]; [|discriminate]. split; [reflexivity|].
  apply exec_lit_inv in H as [s1 [-> H]].
  apply plus_inv in H as [ws [s2 [-> [Hnw [Hw [H _]]]]]].
  apply plus_inv in H as [name [s3 [-> [Hnn [Hn [H _]]]]]].
  apply starGreedy_inv in H as [ws' [s4 [-> [Hw' [H _]]]]].
  destruct s4 as [|q s5]; [discriminate|].
  destruct (mem (CChar "(") q) eqn:Eq; [|discriminate].
  apply mem_char_eq in Eq. subst q.
  apply starLazy_inv in H as [raw [s6 [-> [Hraw [H Hmin]]]]].
  destruct s6 as [|q rest]; [discriminate|].
  destruct (mem (CChar ")") q) eqn:Eq; [|discriminate].
  apply mem_char_eq in Eq. subst q.
  exists ws, name, ws', raw, rest. split; [reflexivity|].
  repeat (split; [assumption|]).
  unfold rawParams. apply Forall_forall. intros a Hin.
  split.
  - intros ->. apply in_split in Hin as [run1 [run2 ->]].
    specialize (Hmin run1 ")"%char run2 eq_refl).
    cbn beta iota in Hmin. rewrite mem_char_refl in Hmin. discriminate.
  - unfold inSet in Hraw. rewrite Forall_forall in Hraw. specialize (Hraw a Hin).
    simpl in Hraw. now apply negb_true_iff in Hraw.
Qed.

Lemma regexMatch_function_sound l m :
  regexMatch REGEX_PATTERNS.FUNCTION_DECLARATION l = Some m ->
  exists name raw, isDeclarationLine l name raw /\ capture 1 m = name /\ capture 2 m = raw.
Proof.
  unfold REGEX_PATTERNS.FUNCTION_DECLARATION. rewrite regexMatch_bos.
  fold REGEX_PATTERNS.FUNCTION_DECLARATION. unfold matchAt.
  destruct (exec REGEX_PATTERNS.FUNCTION_DECLARATION accept 0 l []) as [[e c]|] eqn:E;
    [|discriminate].
  intros H. inversion H; subst m. pose proof E as E'.
  apply exec_function_sound in E'
    as [_ [ws [name [ws' [raw [rest [-> [Hnw [Hw [Hnn [Hn [Hw' Hraw]]]]]]]]]]]].
  rewrite exec_function_complete in E by assumption. inversion E; subst e c.
  exists name, raw. split; [|split; reflexivity].
  exists ws, ws', rest. repeat (split; [first [reflexivity|assumption]|]). assumption.
Qed.

Lemma regexMatch_function_complete l name raw :
  isDeclarationLine l name raw ->
  exists m, regexMatch REGEX_PATTERNS.FUNCTION_DECLARATION l = Some m /\
            capture 1 m = name /\ capture 2 m = raw.
Proof.
  intros [ws [ws' [rest [-> [Hnw [Hw [Hnn [Hn [Hw' Hraw]]]]]]]]].
  unfold REGEX_PATTERNS.FUNCTION_DECLARATION. rewrite regexMatch_bos.
  fold REGEX_PATTERNS.FUNCTION_DECLARATION. unfold matchAt.
  rewrite exec_function_complete by assumption.
  eexists. split; [reflexivity|split; reflexivity].
Qed.

Lemma regexMatch_function_none l :
  (forall name raw, ~ isDeclarationLine l name raw) ->
  regexMatch REGEX_PATTERNS.FUNCTION_DECLARATION l = None.
Proof.
  intros H. destruct (regexMatch REGEX_PATTERNS.FUNCTION_DECLARATION l) eqn:E; [|reflexivity].
  apply regexMatch_function_sound in E as [name [raw [Hd _]]]. now apply H in Hd.
Qed.

Lemma isDeclarationLine_unique l name raw name' raw' :
  isDeclarationLine l name raw -> isDeclarationLine l name' raw' -> name = name' /\ raw = raw'.
Proof.
  intros H H'.
  apply regexMatch_function_complete in H as [m [Hm [<- <-]]].
  apply regexMatch_function_complete in H' as [m' [Hm' [<- <-]]].
  rewrite Hm in Hm'. inversion Hm'. now subst m'.
Qed.

(* ------------------------------------------------------------------ *)
(** ** The Function Extractor *)

Lemma scanToDocEnd_total lines : forall n,
  n <= List.length lines -> exists j, scanToDocEnd lines n = Some j.
Proof.
  induction n as [|j IH]; intros Hn; simpl.
  - now exists (-1)%Z.
  - destruct (nth_error lines j) as [l|] eqn:El.
    + destruct (negb (isBlank l) && negb (test REGEX_PATTERNS.JSDOC_END l)).
      * apply IH. lia.
      * now exists (Z.of_nat j).
    + apply nth_error_None in El. lia.
Qed.

Lemma extractJSDoc_total lines i :
  i <= List.length lines -> exists d, extractJSDoc lines i = Some d.
Proof.
  intros Hi. destruct (scanToDocEnd_total lines Hi) as [j Hj].
  unfold extractJSDoc. rewrite Hj.
  destruct (lineAt lines j) as [lj|]; [|now eexists].
  destruct ((0 <=? j)%Z && test REGEX_PATTERNS.JSDOC_END lj); [|now eexists].
  destruct (collectDocLines lines (S (Z.to_nat j)) []) as [k1 jsdocLines]. now eexists.
Qed.

Lemma parseParams_spec raw :
  parseParams raw = filter (fun p => negb (str_eqb p [])) (map trim (split "," raw)).
Proof.
  unfold parseParams. apply filter_ext. intros [|a p]; reflexivity.
Qed.

Lemma parseLoop_spec lines : forall rest i functions,
  i + List.length rest = List.length lines ->
  exists fs, parseLoop lines rest i functions = Some (functions ++ fs) /\
             declarationsOf rest (map signature fs).
Proof.
  induction rest as [|l rest IH]; intros i functions Hlen.
  - exists []. split; [simpl; now rewrite app_nil_r|constructor].
  - cbn [parseLoop]. simpl in Hlen.
    destruct (regexMatch REGEX_PATTERNS.FUNCTION_DECLARATION l) as [m|] eqn:E.
    + destruct (@extractJSDoc_total lines i ltac:(lia)) as [d Hd]. rewrite Hd.
      destruct (IH (S i) (functions ++ [mkFunctionInfo (capture 1 m) (parseParams (capture 2 m))
                                          (paramDocs d) (returnType d) (documentation d)])
                   ltac:(lia)) as [fs [Hfs Hdecl]].
      apply regexMatch_function_sound in E as [name [raw [Hline [Hname Hraw]]]].
      eexists (_ :: fs). split.
      * rewrite Hfs, <- app_assoc. reflexivity.
      * cbn [map signature fn_name fn_params]. rewrite Hname, Hraw, parseParams_spec.
        now apply decl_line.
    + destruct (IH (S i) functions ltac:(lia)) as [fs [Hfs Hdecl]].
      exists fs. split; [assumption|]. apply decl_skip; [|assumption].
      intros name raw Hline.
      apply regexMatch_function_complete in Hline as [m [Hm _]]. congruence.
Qed.

Lemma not_declaration_without_keyword l :
  (forall t, l <> js "function" ++ t) -> forall name raw, ~ isDeclarationLine l name raw.
Proof.
  intros H name raw [ws [ws' [rest [Hl _]]]]. now apply H in Hl.
Qed.

(** C7: the Function Extractor never fails and yields, in the order of the
    lines, one record per line that starts at column 0 with the keyword, a
    name and a parenthesized parameter list, its parameters being the raw
    list split on commas, trimmed, without the empty entries; a line that does
    not start with the keyword yields no record. *)
Theorem parseJavaScriptFunctions_declarations :
  (forall jsContent,
      exists fs, parseJavaScriptFunctions jsContent = Some fs /\
                 declarationsOf (split LF jsContent) (map signature fs)) /\
  (forall l, (forall t, l <> js "function" ++ t) ->
             regexMatch REGEX_PATTERNS.FUNCTION_DECLARATION l = None /\
             forall name raw, ~ isDeclarationLine l name raw) /\
  option_map (map signature)
    (parseJavaScriptFunctions
       (unlines (map js ["function add(a, b ,, c ) {"; "  function inner(x) {}"; "}";
                         "function none() {}"]%string)))
  = Some [(js "add", [js "a"; js "b"; js "c"]); (js "none", [])].
Proof.
  split; [|split].
  - intros jsContent. unfold parseJavaScriptFunctions.
    destruct (@parseLoop_spec (split LF jsContent) (split LF jsContent) 0 [] eq_refl)
      as [fs [Hfs Hdecl]].
    exists fs. split; assumption.
  - intros l H. split; [|now apply not_declaration_without_keyword].
    apply regexMatch_function_none. now apply not_declaration_without_keyword.
  - vm_compute. reflexivity.
Qed.

Lemma parseJavaScriptFunctions_witness :
  regexMatch REGEX_PATTERNS.FUNCTION_DECLARATION (js "  function inner(x) {}") = None /\
  forall name raw, ~ isDeclarationLine (js "  function inner(x) {}") name raw.
Proof.
  apply (proj1 (proj2 parseJavaScriptFunctions_declarations)).
  intros t H. vm_compute in H. discriminate.
Defined.

(* ------------------------------------------------------------------ *)
(** ** What [JSDOC_PARAM] captures *)

Lemma exec_opt_inv r k pos s c x :
  exec (Opt r) k pos s c = Some x -> exec r k pos s c = Some x \/ k pos s c = Some x.
Proof.
  simpl. destruct (exec r k pos s c); [intros H; now left|intros H; now right].
Qed.

Lemma plus_lazy_inv cs k pos s c x :
  exec (Plus false cs) k pos s c = Some x ->
  exists run s', s = run ++ s' /\ run <> [] /\ inSet cs run /\
                 k (pos + List.length run) s' c = Some x.
Proof.
  unfold Plus. cbn [exec]. intros H.
  apply exec_chr_inv in H as [a [s1 [-> [Ha H]]]].
  apply starLazy_inv in H as [run [s' [-> [Hrun [Hk _]]]]].
  exists (a :: run), s'. split; [reflexivity|]. split; [discriminate|].
  split; [now constructor|].
  now replace (pos + List.length (a :: run)) with (S pos + List.length run) by (simpl; lia).
Qed.

Lemma exec_paramEnd_inv pos s c e c' :
  exec paramEnd accept pos s c = Some (e, c') -> e = pos /\ c' = c.
Proof.
  unfold paramEnd. cbn [exec].
  destruct s as [|a s]; simpl.
  - intros H. now inversion H.
  - destruct (Ascii.eqb a LF); simpl; [|discriminate]. intros H. now inversion H.
Qed.



Lemma scan_In r s : forall pos skip m,
  In m (scan r pos s skip) ->
  exists i, i <= List.length s /\ m_index m = pos + i /\
            matchAt r (pos + i) (skipn i s) = Some m.
Proof.
  assert (Hidx : forall pos s0 m, matchAt r pos s0 = Some m -> m_index m = pos).
  { intros pos s0 m. unfold matchAt.
    destruct (exec r accept pos s0 []) as [[e c]|]; [|discriminate].
    intros H. now inversion H. }
  induction s as [|a s IH]; intros pos skip m Hin.
  - destruct skip; [|contradiction]. cbn [scan] in Hin.
    destruct (matchAt r pos []) as [m0|] eqn:E; [|contradiction].
    destruct Hin as [<-|[]]. exists 0. rewrite Nat.add_0_r.
    split; [simpl; lia|]. split; [now apply Hidx in E|assumption].
  - assert (Hlater : forall sk, In m (scan r (S pos) s sk) ->
              exists i, i <= List.length (a :: s) /\ m_index m = pos + i /\
                        matchAt r (pos + i) (skipn i (a :: s)) = Some m).
    { intros sk H. apply IH in H as [i [Hi [Hm Hat]]]. exists (S i).
      split; [simpl; lia|]. replace (pos + S i) with (S pos + i) by lia. now split. }
    destruct skip as [|skip]; cbn [scan] in Hin; [|now apply Hlater in Hin].
    destruct (matchAt r pos (a :: s)) as [m0|] eqn:E; [|now apply Hlater in Hin].
    destruct Hin as [<-|Hin]; [|now apply Hlater in Hin].
    exists 0. rewrite Nat.add_0_r. split; [simpl; lia|].
    split; [now apply Hidx in E|assumption].
Qed.



(* ------------------------------------------------------------------ *)
(** ** Cutting a text where no match crosses *)







Lemma importsFrom_skip_LF s : importsFrom (LF :: s) = importsFrom s.
Proof. apply importsFrom_miss. apply matchAt_import_needs_i. discriminate. Qed.

Lemma importStatement_shape insertPoint relativePath alias0 :
  importStatement insertPoint relativePath alias0
  = (if needsBlankLine insertPoint then [LF] else [])
      ++ importStatementLine (mkImport relativePath alias0)
      ++ LF :: (if needsTrailingBlankLine insertPoint then [LF] else []).
Proof.
  unfold importStatement, importStatementLine. cbn [file alias].
  f_equal. flatten_app. reflexivity.
Qed.

Lemma importsFrom_skip_optional_LF (b : bool) s :
  importsFrom ((if b then [LF] else []) ++ s) = importsFrom s.
Proof. destruct b; [apply importsFrom_skip_LF|reflexivity]. Qed.

(** The statement built by the providers is read back as one import. *)
Lemma importsFrom_statement insertPoint relativePath alias0 after :
  wellFormedImport (mkImport relativePath alias0) ->
  importsFrom (importStatement insertPoint relativePath alias0 ++ after)
  = mkImport relativePath alias0 :: importsFrom after.
Proof.
  intros Hwf. apply importStatementLine_isScriptImport in Hwf. cbn [file alias] in Hwf.
  rewrite importStatement_shape, <- !app_assoc, importsFrom_skip_optional_LF.
  rewrite <- app_comm_cons.
  rewrite (@importsFrom_hit _ _ _ _ Hwf) by reflexivity.
  now rewrite importsFrom_skip_LF, importsFrom_skip_optional_LF.
Qed.

(* ------------------------------------------------------------------ *)
(** ** The state the planner leaves in [QML_JS_IMPORT] *)

Lemma search_import_end_le s : forall pos m,
  search REGEX_PATTERNS.QML_JS_IMPORT pos s = Some m -> m_end m <= pos + List.length s.
Proof.
  induction s as [|a s IH]; intros pos m H; cbn [search] in H.
  - destruct (matchAt REGEX_PATTERNS.QML_JS_IMPORT pos []) as [m0|] eqn:E; [|discriminate].
    inversion H; subst m0.
    apply matchAt_import_sound in E as [body [f [b [rest [Hs [_ [_ ->]]]]]]].
    apply (f_equal (@List.length ascii)) in Hs. rewrite length_app in Hs. simpl in *. lia.
  - destruct (matchAt REGEX_PATTERNS.QML_JS_IMPORT pos (a :: s)) as [m0|] eqn:E.
    + inversion H; subst m0.
      apply matchAt_import_sound in E as [body [f [b [rest [Hs [_ [_ ->]]]]]]].
      apply (f_equal (@List.length ascii)) in Hs. rewrite length_app in Hs. simpl in *. lia.
    + apply IH in H. simpl. lia.
Qed.

Lemma testGlobal_import_state l lastIndex found lastIndex' :
  testGlobal REGEX_PATTERNS.QML_JS_IMPORT l lastIndex = (found, lastIndex') ->
  (found = false /\ lastIndex' = 0) \/ (found = true /\ lastIndex' <= List.length l).
Proof.
  unfold testGlobal, regexExec.
  destruct (Nat.ltb_spec (List.length l) lastIndex) as [Hlt|Hge].
  - intros H. inversion H. now left.
  - destruct (search REGEX_PATTERNS.QML_JS_IMPORT lastIndex (skipn lastIndex l)) as [m|] eqn:E.
    + intros H. inversion H; subst. right. split; [reflexivity|].
      apply search_import_end_le in E. rewrite length_skipn in E. lia.
    + intros H. inversion H. now left.
Qed.

Lemma lastJsImportLoop_state N rest : forall i last lastIndex,
  Forall (fun l => List.length l <= N) rest ->
  lastIndex = 0 \/ (last = (Z.of_nat i - 1)%Z /\ lastIndex <= N) ->
  snd (lastJsImportLoop rest i last lastIndex) = 0 \/
  (fst (lastJsImportLoop rest i last lastIndex) = (Z.of_nat (i + List.length rest) - 1)%Z /\
   snd (lastJsImportLoop rest i last lastIndex) <= N).
Proof.
  induction rest as [|l rest IH]; intros i last lastIndex Hall Hinv.
  - simpl. rewrite Nat.add_0_r. exact Hinv.
  - cbn [lastJsImportLoop].
    destruct (testGlobal REGEX_PATTERNS.QML_JS_IMPORT l lastIndex) as [found li'] eqn:E.
    inversion Hall as [|? ? Hl Hrest]; subst.
    replace (i + List.length (l :: rest)) with (S i + List.length rest) by (simpl; lia).
    apply IH; [assumption|].
    apply testGlobal_import_state in E as [[-> ->]|[-> Hle]]; [now left|].
    right. split; lia.
Qed.

Lemma split_lengths sep s : Forall (fun l => List.length l <= List.length s) (split sep s).
Proof.
  induction s as [|a s IH]; simpl.
  - constructor; [simpl; lia|constructor].
  - assert (IH' : Forall (fun l => List.length l <= S (List.length s)) (split sep s)).
    { revert IH. apply Forall_impl. intros; lia. }
    destruct (Ascii.eqb a sep).
    + constructor; [simpl; lia|assumption].
    + destruct (split sep s) as [|p ps]; [constructor; [simpl; lia|constructor]|].
      inversion IH; subst. inversion IH'; subst. constructor; [simpl; lia|assumption].
Qed.

Lemma getLastJsImportLine_state qmlContent lastIndex :
  snd (getLastJsImportLine qmlContent lastIndex) = 0 \/
  (fst (getLastJsImportLine qmlContent lastIndex)
   = (Z.of_nat (List.length (split LF qmlContent)) - 1)%Z /\
   snd (getLastJsImportLine qmlContent lastIndex) <= List.length qmlContent).
Proof.
  unfold getLastJsImportLine.
  pose proof (split_lengths LF qmlContent) as Hall.
  pose proof (split_nonempty LF qmlContent) as Hne.
  destruct (split LF qmlContent) as [|l rest]; [congruence|].
  cbn [lastJsImportLoop].
  destruct (testGlobal REGEX_PATTERNS.QML_JS_IMPORT l lastIndex) as [found li'] eqn:E.
  inversion Hall as [|? ? Hl Hrest]; subst.
  replace (List.length (l :: rest)) with (1 + List.length rest) by reflexivity.
  apply lastJsImportLoop_state; [assumption|].
  apply testGlobal_import_state in E as [[-> ->]|[-> Hle]]; [now left|].
  right. split; [reflexivity|lia].
Qed.




(* ------------------------------------------------------------------ *)
(** ** The round trip of a planned import *)





(* ------------------------------------------------------------------ *)
(** ** Well-formed [@param] tags are read as written *)
















(* ------------------------------------------------------------------ *)
(** * Further properties of the code *)

(** ** utils: getPositionFromIndex *)

Lemma lineOffset_zero (text : str) : lineOffset text 0 = 0.
Proof. destruct text; reflexivity. Qed.

(** The offset of the last line of [s] plus the length of that line is the
    length of [s]. *)
Lemma position_offset (s rest : str) :
  lineOffset (s ++ rest) (List.length (split LF s) - 1) + List.length (last (split LF s) [])
  = List.length s.
Proof.
  induction s as [|a s IH]; [cbn; rewrite lineOffset_zero; reflexivity|].
  cbn [split]. destruct (Ascii.eqb a LF) eqn:Ea.
  - pose proof (@split_length_pos LF s) as Hp.
    cbn [List.length]. replace (S (List.length (split LF s)) - 1) with (S (List.length (split LF s) - 1)) by lia.
    cbn [app lineOffset]. rewrite Ea.
    destruct (split LF s) as [|p ps] eqn:E; [cbn [List.length] in Hp; lia|].
    change (last ([] :: p :: ps) []) with (last (p :: ps) []).
    cbn [List.length] in *. lia.
  - destruct (split LF s) as [|p ps] eqn:E; [exfalso; exact (@split_nonempty LF s E)|].
    cbn [List.length] in *. destruct ps as [|q ps].
    + cbn [List.length last Nat.sub] in *. rewrite lineOffset_zero in *. cbn [List.length]. lia.
    + change (last ((a :: p) :: q :: ps) []) with (last (q :: ps) []).
      change (last (p :: q :: ps) []) with (last (q :: ps) []) in IH.
      cbn [List.length] in *.
      replace (S (S (List.length ps)) - 1) with (S (List.length ps)) in * by lia.
      cbn [app lineOffset]. rewrite Ea. lia.
Qed.

(** The text from that offset on begins with the last line of [s]. *)
Lemma position_line_text (s rest : str) :
  firstn (List.length (last (split LF s) []))
         (skipn (lineOffset (s ++ rest) (List.length (split LF s) - 1)) (s ++ rest))
  = last (split LF s) [].
Proof.
  induction s as [|a s IH]; [reflexivity|].
  cbn [split]. destruct (Ascii.eqb a LF) eqn:Ea.
  - pose proof (@split_length_pos LF s) as Hp.
    cbn [List.length]. replace (S (List.length (split LF s)) - 1) with (S (List.length (split LF s) - 1)) by lia.
    cbn [app lineOffset]. rewrite Ea. cbn [skipn].
    destruct (split LF s) as [|p ps] eqn:E; [cbn [List.length] in Hp; lia|].
    change (last ([] :: p :: ps) []) with (last (p :: ps) []). exact IH.
  - destruct (split LF s) as [|p ps] eqn:E; [exfalso; exact (@split_nonempty LF s E)|].
    destruct ps as [|q ps].
    + cbn [List.length last Nat.sub] in *. rewrite lineOffset_zero in *.
      cbn [skipn app firstn] in *. f_equal. exact IH.
    + change (last ((a :: p) :: q :: ps) []) with (last (q :: ps) []).
      change (last (p :: q :: ps) []) with (last (q :: ps) []) in IH.
      cbn [List.length] in *.
      replace (S (S (List.length ps)) - 1) with (S (List.length ps)) in * by lia.
      cbn [app lineOffset]. rewrite Ea. cbn [skipn]. exact IH.
Qed.

Lemma split_pieces_no_sep sep (s : str) :
  Forall (fun p => Forall (fun c => c <> sep) p) (split sep s).
Proof.
  induction s as [|a s IH]; [repeat constructor|].
  cbn [split]. destruct (Ascii.eqb a sep) eqn:Ea.
  - constructor; [constructor|exact IH].
  - assert (a <> sep) by (intros ->; rewrite Ascii.eqb_refl in Ea; discriminate).
    destruct (split sep s) as [|p ps]; [repeat constructor; assumption|].
    inversion IH; subst. constructor; [|assumption].
    constructor; assumption.
Qed.

Lemma last_In (A : Type) (l : list A) (d : A) : l <> [] -> In (last l d) l.
Proof.
  induction l as [|x l IH]; [congruence|]. intros _.
  destruct l as [|y l]; [now left|]. right. apply IH. discriminate.
Qed.

Lemma split_length_app sep (s rest : str) :
  List.length (split sep (s ++ rest)) = List.length (split sep s) + List.length (split sep rest) - 1.
Proof.
  pose proof (@split_length_pos sep rest) as Hr.
  induction s as [|a s IH]; [cbn [app split List.length]; lia|].
  cbn [app split]. destruct (Ascii.eqb a sep).
  - cbn [List.length]. pose proof (@split_length_pos sep s). lia.
  - pose proof (@split_length_pos sep s) as Hs. pose proof (@split_length_pos sep (s ++ rest)) as Hsr.
    destruct (split sep (s ++ rest)); destruct (split sep s); cbn [List.length] in *; lia.
Qed.

(** X1: for every index inside the content, the position that
    getPositionFromIndex computes is the position of that index: the index is
    the start of the computed line plus the computed character, the
    characters between that start and the index hold no line feed, and the
    computed line is one of the lines of the content. *)
Theorem getPositionFromIndex_locates_index (content : str) (index : nat) :
  index <= List.length content ->
  let p := getPositionFromIndex content index in
  let start := lineOffset content (pos_line p) in
  start + pos_character p = index /\
  Forall (fun c => c <> LF) (firstn (pos_character p) (skipn start content)) /\
  pos_line p < List.length (split LF content).
Proof.
  intros Hi. cbn zeta. unfold getPositionFromIndex. cbn [pos_line pos_character].
  pose proof (@position_offset (firstn index content) (skipn index content)) as H1.
  pose proof (@position_line_text (firstn index content) (skipn index content)) as H2.
  pose proof (@split_length_app LF (firstn index content) (skipn index content)) as H3.
  rewrite firstn_skipn in H1, H2, H3.
  rewrite length_firstn in H1.
  split; [|split].
  - lia.
  - rewrite H2.
    pose proof (@split_pieces_no_sep LF (firstn index content)) as Hf. rewrite Forall_forall in Hf.
    apply Hf. apply last_In. apply split_nonempty.
  - pose proof (@split_length_pos LF (firstn index content)).
    pose proof (@split_length_pos LF (skipn index content)). lia.
Qed.

Lemma getPositionFromIndex_witness :
  let content := js "var a;
function f() {}" in
  getPositionFromIndex content 16 = mkPosition 1 9 /\
  lineOffset content 1 + 9 = 16.
Proof.
  cbn zeta. split; [reflexivity|].
  assert (H16 : 16 <= List.length (js "var a;
function f() {}")) by (vm_compute; lia).
  exact (proj1 (@getPositionFromIndex_locates_index _ 16 H16)).
Defined.

(* ------------------------------------------------------------------ *)
(** ** parser: the import check and the alias resolver agree *)

Lemma existsb_find_alias (a : str) (imports : list Import) :
  existsb (fun imp => str_eqb (alias imp) a) imports = true <->
  find (fun imp => str_eqb (alias imp) a) imports <> None.
Proof.
  induction imports as [|x imports IH]; cbn [existsb find].
  - split; [discriminate|congruence].
  - destruct (str_eqb (alias x) a); cbn [orb]; [split; [discriminate|reflexivity]|exact IH].
Qed.

(** X2: from the same state of the shared pattern, isAliasImported answers
    true for an alias exactly when findJsFileForAlias resolves that alias to
    a file: an import suggestion is withheld exactly for the aliases that
    the Alias Resolver knows. *)
Theorem isAliasImported_iff_alias_resolves
    (path_dirname : str -> str) (path_resolve : str -> str -> str)
    (document : TextDocument) (alias0 : str) (lastIndex : nat) :
  isAliasImported (getText document) alias0 lastIndex = true <->
  findJsFileForAlias path_dirname path_resolve document alias0 lastIndex <> None.
Proof.
  unfold isAliasImported, findJsFileForAlias. cbn zeta.
  rewrite existsb_find_alias.
  destruct (find _ (findJavaScriptImports (getText document) lastIndex));
    split; intros H; congruence.
Qed.

(* ------------------------------------------------------------------ *)
(** ** parser: the last import lines *)

(** The loop of getLastQmlImportLine keeps [last], or moves it to the last
    of the remaining lines that the pattern matches. *)
Lemma lastQmlImportLoop_spec rest : forall i last,
  (lastQmlImportLoop rest i last = last /\
   forall l, In l rest -> test REGEX_PATTERNS.QML_IMPORT l = false) \/
  (exists k l, lastQmlImportLoop rest i last = Z.of_nat (i + k) /\
               nth_error rest k = Some l /\ test REGEX_PATTERNS.QML_IMPORT l = true /\
               forall j l', k < j -> nth_error rest j = Some l' ->
                            test REGEX_PATTERNS.QML_IMPORT l' = false).
Proof.
  induction rest as [|x rest IH]; intros i last; cbn [lastQmlImportLoop].
  - left. split; [reflexivity|]. intros l [].
  - destruct (test REGEX_PATTERNS.QML_IMPORT x) eqn:Ex.
    + destruct (IH (S i) (Z.of_nat i)) as [[Hr Hnone]|[k [l [Hr [Hk [Hl Hlater]]]]]].
      * right. exists 0, x. rewrite Hr, Nat.add_0_r. repeat split; try assumption; try reflexivity.
        intros j l' Hj Hn. destruct j as [|j]; [lia|]. cbn [nth_error] in Hn.
        apply Hnone. eapply nth_error_In. exact Hn.
      * right. exists (S k), l. rewrite Hr. replace (S i + k) with (i + S k) by lia.
        repeat split; try assumption; try reflexivity.
        intros j l' Hj Hn. destruct j as [|j]; [lia|]. cbn [nth_error] in Hn.
        apply (Hlater j); [lia|assumption].
    + destruct (IH (S i) last) as [[Hr Hnone]|[k [l [Hr [Hk [Hl Hlater]]]]]].
      * left. split; [assumption|]. intros l [<-|Hin]; [assumption|now apply Hnone].
      * right. exists (S k), l. rewrite Hr. replace (S i + k) with (i + S k) by lia.
        repeat split; try assumption; try reflexivity.
        intros j l' Hj Hn. destruct j as [|j]; [lia|]. cbn [nth_error] in Hn.
        apply (Hlater j); [lia|assumption].
Qed.

(** X3: getLastQmlImportLine answers -1 exactly when the import pattern
    matches no line of the text, and otherwise the index of the last line
    that the pattern matches. *)
Theorem getLastQmlImportLine_is_last_match (qmlContent : str) :
  let lines := split LF qmlContent in
  let r := getLastQmlImportLine qmlContent in
  (r = (-1)%Z /\ forall l, In l lines -> test REGEX_PATTERNS.QML_IMPORT l = false) \/
  (exists k l, r = Z.of_nat k /\ nth_error lines k = Some l /\
               test REGEX_PATTERNS.QML_IMPORT l = true /\
               forall j l', k < j -> nth_error lines j = Some l' ->
                            test REGEX_PATTERNS.QML_IMPORT l' = false).
Proof.
  cbn zeta. unfold getLastQmlImportLine.
  destruct (lastQmlImportLoop_spec (split LF qmlContent) 0 (-1)%Z)
    as [[Hr Hnone]|[k [l H]]]; [left; now split|right; exists k, l; exact H].
Qed.

(** A match from any [lastIndex] is also found by a fresh search. *)
Lemma testGlobal_found_contains l lastIndex lastIndex' :
  testGlobal REGEX_PATTERNS.QML_JS_IMPORT l lastIndex = (true, lastIndex') ->
  containsScriptImport l = true.
Proof.
  intros H. unfold containsScriptImport.
  destruct (test REGEX_PATTERNS.QML_JS_IMPORT l) eqn:E; [reflexivity|].
  rewrite (@testGlobal_of_test_false _ QML_JS_IMPORT_bosFree l E lastIndex) in H. discriminate.
Qed.

Lemma testGlobal_fresh r l : fst (testGlobal r l 0) = test r l.
Proof.
  unfold testGlobal, test, regexMatch. destruct (regexExec r l 0); reflexivity.
Qed.

(** The loop of getLastJsImportLine keeps [last] or moves it to one of the
    remaining lines, and that line contains a script import. *)
Lemma lastJsImportLoop_sound rest : forall i last li,
  fst (lastJsImportLoop rest i last li) = last \/
  exists k l, fst (lastJsImportLoop rest i last li) = Z.of_nat (i + k) /\
              nth_error rest k = Some l /\ containsScriptImport l = true.
Proof.
  induction rest as [|x rest IH]; intros i last li; cbn [lastJsImportLoop]; [now left|].
  destruct (testGlobal REGEX_PATTERNS.QML_JS_IMPORT x li) as [found li'] eqn:E.
  destruct found.
  - destruct (IH (S i) (Z.of_nat i) li') as [Hr|[k [l [Hr [Hk Hl]]]]].
    + right. exists 0, x. rewrite Hr, Nat.add_0_r. repeat split.
      exact (@testGlobal_found_contains x li li' E).
    + right. exists (S k), l. rewrite Hr. replace (S i + k) with (i + S k) by lia. now repeat split.
  - destruct (IH (S i) last li') as [Hr|[k [l [Hr [Hk Hl]]]]]; [now left|].
    right. exists (S k), l. rewrite Hr. replace (S i + k) with (i + S k) by lia. now repeat split.
Qed.

(** X4: whatever the state of the shared pattern, a line index that
    getLastJsImportLine reports is the index of a line of the text that
    contains a script import statement. *)
Theorem getLastJsImportLine_reports_import_line (qmlContent : str) (lastIndex : nat) :
  let r := fst (getLastJsImportLine qmlContent lastIndex) in
  r = (-1)%Z \/
  exists k l, r = Z.of_nat k /\ nth_error (split LF qmlContent) k = Some l /\
              containsScriptImport l = true.
Proof.
  cbn zeta. unfold getLastJsImportLine.
  destruct (lastJsImportLoop_sound (split LF qmlContent) 0 (-1)%Z lastIndex)
    as [Hr|[k [l H]]]; [now left|right; exists k, l; exact H].
Qed.

(** Started with [lastIndex] 0, the loop finds the first remaining line
    that contains a script import, so its answer is at or after that line. *)
Lemma lastJsImportLoop_fresh rest : forall i last k l,
  (last < Z.of_nat i)%Z ->
  nth_error rest k = Some l -> containsScriptImport l = true ->
  (forall j l', j < k -> nth_error rest j = Some l' -> containsScriptImport l' = false) ->
  (Z.of_nat (i + k) <= fst (lastJsImportLoop rest i last 0))%Z.
Proof.
  induction rest as [|x rest IH]; intros i last k l Hlast Hk Hl Hfirst; [destruct k; discriminate|].
  cbn [lastJsImportLoop].
  destruct (testGlobal REGEX_PATTERNS.QML_JS_IMPORT x 0) as [found li'] eqn:E.
  destruct k as [|k]; cbn [nth_error] in Hk.
  - inversion Hk; subst x. pose proof (testGlobal_fresh REGEX_PATTERNS.QML_JS_IMPORT l) as Hf.
    rewrite E in Hf. cbn [fst] in Hf. unfold containsScriptImport in Hl. rewrite Hl in Hf. subst found.
    rewrite Nat.add_0_r.
    destruct (lastJsImportLoop_sound rest (S i) (Z.of_nat i) li') as [Hr|[k' [l' [Hr _]]]];
      rewrite Hr; lia.
  - assert (Hx : containsScriptImport x = false) by (apply (Hfirst 0); [lia|reflexivity]).
    unfold containsScriptImport in Hx.
    rewrite (@testGlobal_of_test_false _ QML_JS_IMPORT_bosFree x Hx 0) in E.
    inversion E; subst found li'.
    replace (i + S k) with (S i + k) by lia.
    apply (IH (S i) last k l); try assumption; [lia|].
    intros j l' Hj Hn. apply (Hfirst (S j)); [lia|exact Hn].
Qed.

Lemma first_true (A : Type) (p : A -> bool) (l : list A) :
  (exists x, In x l /\ p x = true) ->
  exists k x, nth_error l k = Some x /\ p x = true /\
              forall j y, j < k -> nth_error l j = Some y -> p y = false.
Proof.
  induction l as [|a l IH]; intros [x [Hin Hp]]; [destruct Hin|].
  destruct (p a) eqn:Ea.
  - exists 0, a. repeat split; try assumption. intros j y Hj. lia.
  - destruct Hin as [->|Hin]; [congruence|].
    destruct (IH (ex_intro _ x (conj Hin Hp))) as [k [y [Hk [Hy Hfirst]]]].
    exists (S k), y. repeat split; try assumption.
    intros [|j] z Hj Hn; cbn [nth_error] in Hn; [congruence|].
    apply (Hfirst j); [lia|assumption].
Qed.

(** X5: with the shared pattern in its fresh state (lastIndex 0),
    getLastJsImportLine answers -1 exactly when no line of the text contains
    a script import statement; when some line does, the answer is at or
    after the first such line. *)
Theorem getLastJsImportLine_fresh_finds_import (qmlContent : str) :
  let lines := split LF qmlContent in
  let r := fst (getLastJsImportLine qmlContent 0) in
  (r = (-1)%Z <-> forall l, In l lines -> containsScriptImport l = false) /\
  (forall k l, nth_error lines k = Some l -> containsScriptImport l = true ->
               (forall j l', j < k -> nth_error lines j = Some l' ->
                             containsScriptImport l' = false) ->
               (Z.of_nat k <= r)%Z).
Proof.
  cbn zeta. unfold getLastJsImportLine.
  assert (Hfirst : forall k l, nth_error (split LF qmlContent) k = Some l ->
            containsScriptImport l = true ->
            (forall j l', j < k -> nth_error (split LF qmlContent) j = Some l' ->
                          containsScriptImport l' = false) ->
            (Z.of_nat k <= fst (lastJsImportLoop (split LF qmlContent) 0 (-1)%Z 0))%Z).
  { intros k l Hk Hl Hf.
    exact (@lastJsImportLoop_fresh (split LF qmlContent) 0 (-1)%Z k l ltac:(lia) Hk Hl Hf). }
  split; [split|exact Hfirst].
  - intros Hr l Hin. destruct (containsScriptImport l) eqn:El; [|reflexivity].
    destruct (@first_true _ containsScriptImport (split LF qmlContent)
                (ex_intro _ l (conj Hin El))) as [k [x [Hk [Hx Hf]]]].
    pose proof (Hfirst k x Hk Hx Hf). lia.
  - intros Hnone.
    destruct (lastJsImportLoop_sound (split LF qmlContent) 0 (-1)%Z 0)
      as [Hr|[k [l [_ [Hk Hl]]]]]; [exact Hr|].
    apply nth_error_In in Hk. rewrite (Hnone l Hk) in Hl. discriminate.
Qed.

(* ------------------------------------------------------------------ *)
(** ** parser: the planned insertion point *)

Lemma getLastJsImportLine_without_import (qmlContent : str) (lastIndex : nat) :
  (forall l, In l (split LF qmlContent) -> containsScriptImport l = false) ->
  fst (getLastJsImportLine qmlContent lastIndex) = (-1)%Z.
Proof.
  intros Hnone. unfold getLastJsImportLine.
  destruct (lastJsImportLoop_sound (split LF qmlContent) 0 (-1)%Z lastIndex)
    as [Hr|[k [l [_ [Hk Hl]]]]]; [exact Hr|].
  apply nth_error_In in Hk. rewrite (Hnone l Hk) in Hl. discriminate.
Qed.

Lemma getLastJsImportLine_line_sound (qmlContent : str) (lastIndex : nat) :
  fst (getLastJsImportLine qmlContent lastIndex) = (-1)%Z \/
  exists k l, fst (getLastJsImportLine qmlContent lastIndex) = Z.of_nat k /\
              nth_error (split LF qmlContent) k = Some l /\ containsScriptImport l = true.
Proof.
  unfold getLastJsImportLine.
  destruct (lastJsImportLoop_sound (split LF qmlContent) 0 (-1)%Z lastIndex)
    as [Hr|[k [l H]]]; [now left|right; exists k, l; exact H].
Qed.

(** X6: in a text none of whose lines contains a script import statement,
    the planned insertion line lies below every line that the import pattern
    matches, whatever the state of the shared pattern; it is line 0 when the
    pattern matches no line. *)
Theorem insertion_below_every_import_line (qmlContent : str) (lastIndex : nat) :
  (forall l, In l (split LF qmlContent) -> containsScriptImport l = false) ->
  let lines := split LF qmlContent in
  let p := fst (getJsImportInsertionPoint qmlContent lastIndex) in
  (forall k l, nth_error lines k = Some l -> test REGEX_PATTERNS.QML_IMPORT l = true ->
               (Z.of_nat k < line p)%Z) /\
  ((forall l, In l lines -> test REGEX_PATTERNS.QML_IMPORT l = false) -> line p = 0%Z).
Proof.
  intros Hnone. cbn zeta.
  pose proof (@getLastJsImportLine_without_import qmlContent lastIndex Hnone) as Hjs.
  unfold getJsImportInsertionPoint. cbn zeta.
  destruct (getLastJsImportLine qmlContent lastIndex) as [lastJs li'] eqn:Ejs.
  cbn [fst] in Hjs. subst lastJs. cbn [Z.leb Z.compare].
  unfold getLastQmlImportLine.
  destruct (lastQmlImportLoop_spec (split LF qmlContent) 0 (-1)%Z)
    as [[Hr Hno]|[k [l [Hr [Hk [Hl Hlater]]]]]]; rewrite Hr.
  - cbn [Z.leb Z.compare fst line]. split; [|reflexivity].
    intros k l Hk Hl. apply nth_error_In in Hk. rewrite (Hno l Hk) in Hl. discriminate.
  - cbn [Nat.add].
    assert (Hk0 : (0 <=? Z.of_nat k)%Z = true) by (apply Z.leb_le; lia).
    rewrite Hk0.
    split.
    + intros j l' Hj Hl'.
      assert (j <= k).
      { destruct (Nat.le_gt_cases j k) as [H|H]; [exact H|].
        rewrite (Hlater j l' H Hj) in Hl'. discriminate. }
      destruct (blankAt (split LF qmlContent) (Z.of_nat k + 1)); cbn [fst line]; lia.
    + intros Hno. apply nth_error_In in Hk. rewrite (Hno l Hk) in Hl. discriminate.
Qed.

Lemma insertion_below_every_import_line_witness :
  let qmlContent := js "import QtQuick 2.15
import QtQuick.Controls 2.15

Item {}" in
  line (fst (getJsImportInsertionPoint qmlContent 0)) = 3%Z /\
  (1 < line (fst (getJsImportInsertionPoint qmlContent 0)))%Z.
Proof.
  cbn zeta. split; [vm_compute; reflexivity|].
  assert (Hnone : forall l, In l (split LF (js "import QtQuick 2.15
import QtQuick.Controls 2.15

Item {}")) -> containsScriptImport l = false).
  { intros l Hin. vm_compute in Hin.
    repeat (destruct Hin as [<-|Hin]; [vm_compute; reflexivity|]). destruct Hin. }
  apply (proj1 (@insertion_below_every_import_line _ 0 Hnone) 1 (js "import QtQuick.Controls 2.15"));
    vm_compute; reflexivity.
Defined.

Lemma lineAt_of_nat (lines : list str) (k : nat) :
  lineAt lines (Z.of_nat k) = nth_error lines k.
Proof.
  unfold lineAt. destruct (Z.ltb_spec (Z.of_nat k) 0) as [H|H]; [lia|].
  now rewrite Nat2Z.id.
Qed.

(** X7: the blank-line requests of the planner fit the text.  The trailing
    blank line is only left out when the line at the insertion point exists
    and is blank; a leading blank line is only requested directly below a
    line that the import pattern matches, and then the line at the insertion
    point is not blank; and when no leading blank line is requested, the
    insertion point is line 0, or the line above it is blank or contains a
    script import statement. *)
Theorem insertion_point_blank_lines (qmlContent : str) (lastIndex : nat) :
  let lines := split LF qmlContent in
  let p := fst (getJsImportInsertionPoint qmlContent lastIndex) in
  (needsTrailingBlankLine p = false -> blankAt lines (line p) = true) /\
  (needsBlankLine p = true ->
     blankAt lines (line p) = false /\
     exists l, lineAt lines (line p - 1) = Some l /\
               test REGEX_PATTERNS.QML_IMPORT l = true) /\
  (needsBlankLine p = false ->
     line p = 0%Z \/ blankAt lines (line p - 1) = true \/
     exists l, lineAt lines (line p - 1) = Some l /\ containsScriptImport l = true).
Proof.
  cbn zeta. unfold getJsImportInsertionPoint. cbn zeta.
  pose proof (@getLastJsImportLine_line_sound qmlContent lastIndex) as Hjs.
  destruct (getLastJsImportLine qmlContent lastIndex) as [lastJs li'] eqn:Ejs.
  cbn [fst] in Hjs.
  destruct (0 <=? lastJs)%Z eqn:E0.
  - cbn [fst line needsBlankLine needsTrailingBlankLine].
    split; [|split].
    + intros H. now destruct (blankAt (split LF qmlContent) (lastJs + 1)).
    + discriminate.
    + intros _. right. right.
      destruct Hjs as [->|[k [l [-> [Hk Hl]]]]]; [discriminate|].
      exists l. replace (Z.of_nat k + 1 - 1)%Z with (Z.of_nat k) by lia.
      rewrite lineAt_of_nat. now split.
  - unfold getLastQmlImportLine.
    destruct (lastQmlImportLoop_spec (split LF qmlContent) 0 (-1)%Z)
      as [[Hr Hno]|[k [l [Hr [Hk [Hl Hlater]]]]]]; rewrite Hr.
    + cbn [Z.leb Z.compare fst line needsBlankLine needsTrailingBlankLine].
      split; [|split]; [|discriminate|now left].
      unfold blankAt. change 0%Z with (Z.of_nat 0). rewrite lineAt_of_nat.
      pose proof (split_length_pos LF qmlContent) as Hpos.
      destruct (Z.ltb_spec (Z.of_nat 0) (Z.of_nat (List.length (split LF qmlContent)))) as [_|Hge];
        [|lia].
      cbn [andb].
      destruct (split LF qmlContent) as [|l0 ls]; [cbn [List.length] in Hpos; lia|].
      cbn [nth_error]. intros H. now destruct (isBlank l0).
    + cbn [Nat.add].
      assert (Hk0 : (0 <=? Z.of_nat k)%Z = true) by (apply Z.leb_le; lia).
      rewrite Hk0.
      destruct (blankAt (split LF qmlContent) (Z.of_nat k + 1)) eqn:Eb;
        cbn [negb fst line needsBlankLine needsTrailingBlankLine].
      * split; [discriminate|]. split; [discriminate|].
        intros _. right. left.
        replace (Z.of_nat k + 2 - 1)%Z with (Z.of_nat k + 1)%Z by lia. exact Eb.
      * split; [discriminate|]. split; [|discriminate].
        intros _. split; [exact Eb|].
        exists l. replace (Z.of_nat k + 1 - 1)%Z with (Z.of_nat k) by lia.
        rewrite lineAt_of_nat. now split.
Qed.

(* ------------------------------------------------------------------ *)
(** ** parser: parameter lists *)

Lemma trimStart_fixed (s : str) :
  match s with [] => True | a :: _ => isSpace a = false end -> trimStart s = s.
Proof.
  destruct s as [|a s]; [reflexivity|]. cbn [trimStart]. now intros ->.
Qed.

Lemma trimStart_starts (s : str) :
  match trimStart s with [] => True | a :: _ => isSpace a = false end.
Proof.
  destruct (trimStart s) as [|a t] eqn:E; [exact I|]. exact (@trimStart_head s a t E).
Qed.

Lemma trimStart_idem (s : str) : trimStart (trimStart s) = trimStart s.
Proof. apply trimStart_fixed, trimStart_starts. Qed.

Lemma trimEnd_prefix (s : str) : exists q, s = trimEnd s ++ q.
Proof.
  unfold trimEnd. destruct (trimStart_suffix (rev s)) as [p Hp].
  exists (rev p). rewrite <- rev_app_distr, <- Hp. now rewrite rev_involutive.
Qed.

Lemma trimEnd_idem (s : str) : trimEnd (trimEnd s) = trimEnd s.
Proof.
  unfold trimEnd. now rewrite rev_involutive, trimStart_idem.
Qed.

Lemma trimEnd_keeps_start (s : str) :
  match s with [] => True | a :: _ => isSpace a = false end ->
  match trimEnd s with [] => True | a :: _ => isSpace a = false end.
Proof.
  intros H. destruct (trimEnd_prefix s) as [q Hq].
  destruct (trimEnd s) as [|a t]; [exact I|]. rewrite Hq in H. exact H.
Qed.

Lemma trim_starts (s : str) :
  match trim s with [] => True | a :: _ => isSpace a = false end.
Proof. unfold trim. apply trimEnd_keeps_start, trimStart_starts. Qed.

Lemma trim_idem (s : str) : trim (trim s) = trim s.
Proof.
  unfold trim at 1. rewrite (@trimStart_fixed (trim s) (trim_starts s)).
  unfold trim. apply trimEnd_idem.
Qed.

Lemma trim_sub (s : str) : exists p q, s = p ++ trim s ++ q.
Proof.
  unfold trim. destruct (trimStart_suffix s) as [p Hp].
  destruct (trimEnd_prefix (trimStart s)) as [q Hq].
  exists p, q. now rewrite <- Hq.
Qed.

Lemma trim_skips_space (a : ascii) (s : str) : isSpace a = true -> trim (a :: s) = trim s.
Proof. intros H. unfold trim. cbn [trimStart]. now rewrite H. Qed.

Lemma parseParams_params (raw : str) : Forall isParam (parseParams raw).
Proof.
  unfold parseParams. apply Forall_forall. intros p Hp.
  apply filter_In in Hp as [Hin Hne]. apply in_map_iff in Hin as [q [<- Hq]].
  split; [|split].
  - destruct (trim q); [discriminate|discriminate].
  - apply trim_idem.
  - pose proof (@split_pieces_no_sep ","%char raw) as Hf. rewrite Forall_forall in Hf.
    specialize (Hf q Hq). destruct (trim_sub q) as [x [y Hxy]].
    rewrite Hxy in Hf. apply Forall_app in Hf as [_ Hf]. now apply Forall_app in Hf as [Hf _].
Qed.

Lemma trim_fixed_trimmed (p : str) : trim p = p -> trimmed p.
Proof.
  intros Ht. split.
  - intros a t ->. pose proof (trim_starts (a :: t)) as Hs. now rewrite Ht in Hs.
  - intros a t ->. unfold trim, trimEnd in Ht.
    apply (f_equal (@rev ascii)) in Ht. rewrite rev_involutive in Ht.
    pose proof (trimStart_starts (rev (trimStart (t ++ [a])))) as Hs.
    rewrite Ht, rev_app_distr in Hs. exact Hs.
Qed.

(** Every expected record comes from a declaration line. *)
Lemma declarationsOf_origin ls rs :
  declarationsOf ls rs ->
  Forall (fun r => exists l raw, In l ls /\ isDeclarationLine l (fst r) raw /\
                                 snd r = parseParams raw) rs.
Proof.
  induction 1 as [|l name raw ls rs Hd _ IH|l ls rs _ _ IH].
  - constructor.
  - constructor.
    + exists l, raw. cbn [fst snd]. rewrite parseParams_spec. repeat split; [now left|exact Hd].
    + revert IH. apply Forall_impl. intros r [l' [raw' [Hin H]]].
      exists l', raw'. split; [now right|exact H].
  - revert IH. apply Forall_impl. intros r [l' [raw' [Hin H]]].
    exists l', raw'. split; [now right|exact H].
Qed.

Lemma parsed_function_origin (jsContent : str) (fs : list FunctionInfo) (f : FunctionInfo) :
  parseJavaScriptFunctions jsContent = Some fs -> In f fs ->
  exists l raw, In l (split LF jsContent) /\ isDeclarationLine l (fn_name f) raw /\
                fn_params f = parseParams raw.
Proof.
  intros Hp Hin. unfold parseJavaScriptFunctions in Hp.
  destruct (@parseLoop_spec (split LF jsContent) (split LF jsContent) 0 [] eq_refl)
    as [fs' [Hfs Hdecl]].
  cbn zeta in Hp. rewrite Hfs in Hp. cbn [app] in Hp. inversion Hp; subst fs'.
  apply declarationsOf_origin in Hdecl. rewrite Forall_forall in Hdecl.
  apply (Hdecl (signature f)). apply in_map. exact Hin.
Qed.

(** X8: in every record that parseJavaScriptFunctions returns, the name is
    a non-empty run of word characters, and every parameter is non-empty,
    has no white space at either end and holds no comma. *)
Theorem parseJavaScriptFunctions_records_clean (jsContent : str) (fs : list FunctionInfo) :
  parseJavaScriptFunctions jsContent = Some fs ->
  Forall (fun f => fn_name f <> [] /\ wordChars (fn_name f) /\
                   Forall (fun p => p <> [] /\ trimmed p /\
                                    Forall (fun c => c <> ","%char) p) (fn_params f)) fs.
Proof.
  intros Hp. apply Forall_forall. intros f Hin.
  destruct (@parsed_function_origin jsContent fs f Hp Hin) as [l [raw [_ [Hd Hparams]]]].
  destruct Hd as [ws [ws' [rest [_ [_ [_ [Hnn [Hn _]]]]]]]].
  split; [exact Hnn|]. split; [exact Hn|].
  rewrite Hparams. pose proof (parseParams_params raw) as H. revert H. apply Forall_impl.
  intros p [Hne [Ht Hc]]. split; [exact Hne|]. split; [now apply trim_fixed_trimmed|exact Hc].
Qed.

Lemma parseJavaScriptFunctions_records_clean_witness :
  exists fs, parseJavaScriptFunctions (js "function area( w ,h, ) {}") = Some fs /\
             map fn_params fs = [[js "w"; js "h"]] /\
             Forall (fun f => fn_name f <> [] /\ wordChars (fn_name f) /\
                      Forall (fun p => p <> [] /\ trimmed p /\
                                       Forall (fun c => c <> ","%char) p) (fn_params f)) fs.
Proof.
  eexists. split; [vm_compute; reflexivity|]. split; [reflexivity|].
  apply (@parseJavaScriptFunctions_records_clean (js "function area( w ,h, ) {}")).
  vm_compute. reflexivity.
Defined.

Lemma split_cons_other sep (a : ascii) (s : str) :
  a <> sep -> split sep (a :: s) = (a :: hd [] (split sep s)) :: tl (split sep s).
Proof.
  intros Ha. cbn [split]. destruct (Ascii.eqb_spec a sep) as [->|_]; [congruence|].
  destruct (split sep s) eqn:E; [exfalso; exact (@split_nonempty sep s E)|reflexivity].
Qed.

Lemma split_app_sep sep (p rest : str) :
  Forall (fun c => c <> sep) p -> split sep (p ++ sep :: rest) = p :: split sep rest.
Proof.
  induction 1 as [|a p Ha _ IH]; cbn [app].
  - cbn [split]. now rewrite Ascii.eqb_refl.
  - rewrite (@split_cons_other sep a _ Ha), IH. reflexivity.
Qed.

Lemma parseParams_skips_space (a : ascii) (s : str) :
  isSpace a = true -> parseParams (a :: s) = parseParams s.
Proof.
  intros Ha. unfold parseParams.
  assert (Hc : a <> ","%char) by (intros ->; discriminate).
  rewrite (@split_cons_other ","%char a s Hc).
  destruct (split ","%char s) as [|h t] eqn:E; [exfalso; exact (@split_nonempty _ s E)|].
  cbn [hd tl map]. now rewrite (@trim_skips_space a h Ha).
Qed.

Lemma parseParams_joinWith (ps : list str) :
  Forall isParam ps -> parseParams (joinWith (js ", ") ps) = ps.
Proof.
  induction 1 as [|p ps [Hne [Ht Hc]] Hps IH]; [reflexivity|].
  destruct ps as [|q ps].
  - cbn [joinWith]. unfold parseParams. rewrite split_no_sep.
    + cbn [map filter]. rewrite Ht. destruct p; [congruence|reflexivity].
    + rewrite Forall_forall in Hc. intros Hin. now apply (Hc _ Hin).
  - change (joinWith (js ", ") (p :: q :: ps))
      with (p ++ ","%char :: " "%char :: joinWith (js ", ") (q :: ps)).
    unfold parseParams. rewrite (@split_app_sep ","%char p _ Hc).
    cbn [map filter]. rewrite Ht. destruct p as [|a p]; [congruence|].
    f_equal. exact (eq_trans (@parseParams_skips_space " "%char _ eq_refl) IH).
Qed.

(** X9: the parameter list that the hover signature shows (and the
    completion detail of a function without documented parameters), the
    parameters of a parsed record joined with a comma and a space, reads
    back as the same parameters when it is split on commas and trimmed as
    parseJavaScriptFunctions does. *)
Theorem signature_reads_back (jsContent : str) (fs : list FunctionInfo) (f : FunctionInfo) :
  parseJavaScriptFunctions jsContent = Some fs -> In f fs ->
  parseParams (joinWith (js ", ") (fn_params f)) = fn_params f.
Proof.
  intros Hp Hin.
  destruct (@parsed_function_origin jsContent fs f Hp Hin) as [l [raw [_ [_ ->]]]].
  apply parseParams_joinWith, parseParams_params.
Qed.

Lemma signature_reads_back_witness :
  parseParams (js "w, h") = [js "w"; js "h"].
Proof.
  apply (@signature_reads_back (js "function area( w ,h, ) {}")
           [mkFunctionInfo (js "area") [js "w"; js "h"] [] (js "any") []]
           (mkFunctionInfo (js "area") [js "w"; js "h"] [] (js "any") []));
    [vm_compute; reflexivity|now left].
Defined.

(* ------------------------------------------------------------------ *)
(** ** The search loop *)

Lemma matchAt_index r pos s m : matchAt r pos s = Some m -> m_index m = pos.
Proof.
  unfold matchAt. destruct (exec r accept pos s []) as [[e c]|]; [|discriminate].
  intros H. now inversion H.
Qed.

(** A successful search stops at the first position where the pattern
    matches. *)
Lemma search_sound r : forall s pos m,
  search r pos s = Some m ->
  exists k, k <= List.length s /\ matchAt r (pos + k) (skipn k s) = Some m /\
            forall j, j < k -> matchAt r (pos + j) (skipn j s) = None.
Proof.
  induction s as [|a s IH]; intros pos m H; cbn [search] in H.
  - destruct (matchAt r pos []) as [m0|] eqn:E; [|discriminate]. inversion H; subst m0.
    exists 0. rewrite Nat.add_0_r. split; [cbn; lia|]. split; [exact E|]. intros j Hj. lia.
  - destruct (matchAt r pos (a :: s)) as [m0|] eqn:E.
    + inversion H; subst m0. exists 0. rewrite Nat.add_0_r.
      split; [cbn; lia|]. split; [exact E|]. intros j Hj. lia.
    + apply IH in H as [k [Hk [Hm Hfirst]]]. exists (S k).
      split; [cbn [List.length]; lia|].
      replace (pos + S k) with (S pos + k) by lia. split; [exact Hm|].
      intros [|j] Hj; [rewrite Nat.add_0_r; exact E|].
      replace (pos + S j) with (S pos + j) by lia. apply Hfirst. lia.
Qed.

Lemma search_complete r : forall s pos k,
  k <= List.length s -> matchAt r (pos + k) (skipn k s) <> None -> search r pos s <> None.
Proof.
  induction s as [|a s IH]; intros pos k Hk Hm; cbn [search].
  - destruct k; [|cbn in Hk; lia]. rewrite Nat.add_0_r in Hm. cbn [skipn] in Hm.
    destruct (matchAt r pos []); [discriminate|congruence].
  - destruct (matchAt r pos (a :: s)) eqn:E; [discriminate|].
    destruct k as [|k]; [rewrite Nat.add_0_r in Hm; cbn [skipn] in Hm; congruence|].
    apply (IH (S pos) k); [cbn [List.length] in Hk; lia|].
    now replace (S pos + k) with (pos + S k) by lia.
Qed.

(* ------------------------------------------------------------------ *)
(** ** parser: extractAliasAndFunction *)


Lemma exec_qualified_complete pos a f rest :
  a <> [] -> wordChars a -> f <> [] -> wordChars f -> notWordStart rest ->
  exec REGEX_PATTERNS.ALIAS_DOT_FUNCTION accept pos (a ++ "."%char :: f ++ rest) []
  = Some (pos + List.length a + 1 + List.length f, [None; Some a; Some f]).
Proof.
  intros Hna Ha Hnf Hf Hrest.
  unfold REGEX_PATTERNS.ALIAS_DOT_FUNCTION. cbn [exec].
  apply plus_max; [assumption|assumption|reflexivity|].
  cbn beta iota. rewrite mem_char_refl.
  apply plus_max; [assumption|assumption|now apply notWordStart_stops|].
  unfold accept. f_equal. f_equal; [lia|].
  rewrite (@firstn_length_app _ f rest) by lia.
  rewrite (@firstn_length_app _ a) by lia.
  reflexivity.
Qed.

Lemma exec_qualified_sound pos s x :
  exec REGEX_PATTERNS.ALIAS_DOT_FUNCTION accept pos s [] = Some x ->
  exists a f rest, s = a ++ "."%char :: f ++ rest /\
    a <> [] /\ wordChars a /\ f <> [] /\ wordChars f /\ notWordStart rest.
Proof.
  unfold REGEX_PATTERNS.ALIAS_DOT_FUNCTION. cbn [exec]. intros H.
  apply plus_inv in H as [a [s1 [-> [Hna [Ha [H _]]]]]].
  cbn beta iota in H.
  destruct s1 as [|q s2]; [discriminate|].
  destruct (mem (CChar ".") q) eqn:Eq; [|discriminate].
  apply mem_char_eq in Eq. subst q.
  apply plus_inv in H as [f [rest [-> [Hnf [Hf [H Hstop]]]]]].
  exists a, f, rest. split; [reflexivity|].
  repeat (split; [assumption|]).
  apply notWordStart_stops. apply Hstop. intros p0 s0 c0. discriminate.
Qed.

Lemma matchAt_qualified pos s m :
  matchAt REGEX_PATTERNS.ALIAS_DOT_FUNCTION pos s = Some m ->
  exists a f rest, s = a ++ "."%char :: f ++ rest /\
    a <> [] /\ wordChars a /\ f <> [] /\ wordChars f /\ notWordStart rest /\
    capture 1 m = a /\ capture 2 m = f.
Proof.
  intros H. unfold matchAt in H.
  destruct (exec REGEX_PATTERNS.ALIAS_DOT_FUNCTION accept pos s []) as [[e c]|] eqn:E;
    [|discriminate].
  pose proof E as E'.
  apply exec_qualified_sound in E' as [a [f [rest [-> [Hna [Ha [Hnf [Hf Hrest]]]]]]]].
  rewrite exec_qualified_complete in E by assumption.
  inversion E; subst e c. inversion H; subst m.
  exists a, f, rest. split; [reflexivity|].
  repeat (split; [assumption|]). split; reflexivity.
Qed.

(** What extractAliasAndFunction hands on: two non-empty runs of word
    characters that stand around a dot in the word text. *)
Lemma extractAliasAndFunction_inv fullWord a f :
  extractAliasAndFunction fullWord = Some (a, f) ->
  a <> [] /\ wordChars a /\ f <> [] /\ wordChars f /\
  exists w pre rest, fullWord = Some w /\ w = pre ++ a ++ "."%char :: f ++ rest.
Proof.
  unfold extractAliasAndFunction. destruct fullWord as [w|]; [|discriminate].
  rewrite regexMatch_search.
  destruct (search REGEX_PATTERNS.ALIAS_DOT_FUNCTION 0 w) as [m|] eqn:E; [|discriminate].
  intros H. inversion H; subst a f.
  apply search_sound in E as [k [Hk [Hm _]]].
  apply matchAt_qualified in Hm as [a [f [rest [Hs [Hna [Ha [Hnf [Hf [_ [-> ->]]]]]]]]]].
  repeat (split; [assumption|]).
  exists w, (firstn k w), rest. split; [reflexivity|].
  rewrite <- Hs. symmetry. apply firstn_skipn.
Qed.

(** X10: for a word text that starts with a qualified name, a non-empty
    run of word characters, a dot and a second non-empty run that ends where
    the word characters end, extractAliasAndFunction answers the first run as
    the alias and the second as the function name. *)
Theorem extractAliasAndFunction_qualified_name (a f rest : str) :
  a <> [] -> wordChars a -> f <> [] -> wordChars f -> notWordStart rest ->
  extractAliasAndFunction (Some (a ++ "."%char :: f ++ rest)) = Some (a, f).
Proof.
  intros Hna Ha Hnf Hf Hrest. unfold extractAliasAndFunction.
  rewrite regexMatch_search.
  assert (Hm : matchAt REGEX_PATTERNS.ALIAS_DOT_FUNCTION 0 (a ++ "."%char :: f ++ rest)
               = Some (mkMatch 0 (0 + List.length a + 1 + List.length f)
                               [None; Some a; Some f])).
  { unfold matchAt. now rewrite exec_qualified_complete. }
  destruct (a ++ "."%char :: f ++ rest) as [|c0 s0]; cbn [search]; rewrite Hm; reflexivity.
Qed.

Lemma extractAliasAndFunction_witness :
  extractAliasAndFunction (Some (js "MathJS.add(1, 2)")) = Some (js "MathJS", js "add").
Proof.
  apply (@extractAliasAndFunction_qualified_name (js "MathJS") (js "add") (js "(1, 2)"));
    try discriminate; try exact I; try reflexivity;
    repeat (constructor; [reflexivity|]); constructor.
Defined.

(* ------------------------------------------------------------------ *)
(** ** providers: go to definition and hover *)

Lemma exec_functionHead_complete pos ws fn ws' rest :
  ws <> [] -> spaces ws -> fn <> [] -> wordChars fn -> spaces ws' ->
  exec (functionHead fn) accept pos (js "function" ++ ws ++ fn ++ ws' ++ "("%char :: rest) []
  = Some (pos + 8 + List.length ws + List.length fn + List.length ws' + 1, []).
Proof.
  intros Hnw Hw Hnf Hf Hw'.
  unfold functionHead, Lit. cbn [exec]. rewrite exec_lit_app.
  assert (Hstop : stopsAt CSpace (fn ++ ws' ++ "("%char :: rest)).
  { destruct fn as [|f0 fn]; [congruence|]. inversion Hf; subst.
    now apply stopsAt_space_word. }
  apply plus_max; [assumption|assumption|exact Hstop|].
  rewrite exec_lit_app.
  apply starGreedy_max; [exact Hw'|reflexivity|].
  rewrite mem_char_refl. unfold accept. f_equal. f_equal. cbn [List.length js list_ascii_of_string]. lia.
Qed.

Lemma exec_functionHead_sound fn pos s x :
  exec (functionHead fn) accept pos s [] = Some x ->
  exists ws ws' rest, s = js "function" ++ ws ++ fn ++ ws' ++ "("%char :: rest /\
                      ws <> [] /\ spaces ws /\ spaces ws'.
Proof.
  unfold functionHead, Lit. cbn [exec]. intros H.
  apply exec_lit_inv in H as [s1 [-> H]].
  apply plus_inv in H as [ws [s2 [-> [Hnw [Hw [H _]]]]]].
  apply exec_lit_inv in H as [s3 [-> H]].
  apply starGreedy_inv in H as [ws' [s4 [-> [Hw' [H _]]]]].
  destruct s4 as [|q rest]; [discriminate|].
  destruct (mem (CChar "(") q) eqn:Eq; [|discriminate].
  apply mem_char_eq in Eq. subst q.
  exists ws, ws', rest. repeat split; assumption.
Qed.

Lemma functionHead_bosFree fn : bosFree (functionHead fn) = true.
Proof.
  unfold functionHead, Lit. cbn [bosFree andb].
  assert (H : forall l, bosFree (lit l) = true) by (induction l; [reflexivity|exact IHl]).
  now rewrite !H.
Qed.

Lemma matchAt_functionHead_iff fn pos s :
  fn <> [] -> wordChars fn ->
  (matchAt (functionHead fn) pos s <> None <->
   exists ws ws' rest, s = js "function" ++ ws ++ fn ++ ws' ++ "("%char :: rest /\
                       ws <> [] /\ spaces ws /\ spaces ws').
Proof.
  intros Hnf Hf. unfold matchAt. split.
  - destruct (exec (functionHead fn) accept pos s []) as [x|] eqn:E; [|congruence].
    intros _. exact (@exec_functionHead_sound fn pos s x E).
  - intros [ws [ws' [rest [-> [Hnw [Hw Hw']]]]]].
    rewrite exec_functionHead_complete by assumption. discriminate.
Qed.

(** X11: a location that provideDefinition answers lies in the file that
    the alias of the qualified name resolves to, at the position of the first
    offset of that file's content at which the text reads the keyword
    function, white space, the function name, optional white space and an
    opening parenthesis. *)
Theorem provideDefinition_first_function_head
    (path_dirname : str -> str) (path_resolve : str -> str -> str) (fs : FileSystem)
    (document : TextDocument) (fullWord : option str) (lastIndex : nat)
    (jsFilePath : str) (target : Position) :
  provideDefinition path_dirname path_resolve fs document fullWord lastIndex
  = Value (jsFilePath, target) ->
  exists alias0 functionName jsContent index,
    extractAliasAndFunction fullWord = Some (alias0, functionName) /\
    findJsFileForAlias path_dirname path_resolve document alias0 lastIndex = Some jsFilePath /\
    safeReadFile fs jsFilePath = Some jsContent /\
    index <= List.length jsContent /\
    target = getPositionFromIndex jsContent index /\
    functionHeadAt jsContent functionName index /\
    forall j, j < index -> ~ functionHeadAt jsContent functionName j.
Proof.
  unfold provideDefinition.
  destruct (extractAliasAndFunction fullWord) as [[alias0 functionName]|] eqn:Ex; [|discriminate].
  destruct (findJsFileForAlias path_dirname path_resolve document alias0 lastIndex)
    as [[|p0 path0]|] eqn:Ef; [discriminate| |discriminate].
  destruct (safeReadFile fs (p0 :: path0)) as [[|c0 content0]|] eqn:Er;
    [discriminate| |discriminate].
  change (regexExec (functionHead functionName) (c0 :: content0) 0)
    with (regexMatch (functionHead functionName) (c0 :: content0)).
  rewrite regexMatch_search.
  destruct (search (functionHead functionName) 0 (c0 :: content0)) as [m|] eqn:Es; [|discriminate].
  intros H. inversion H; subst jsFilePath target.
  apply extractAliasAndFunction_inv in Ex as Hx. destruct Hx as [_ [_ [Hnf [Hf _]]]].
  apply search_sound in Es as [k [Hk [Hm Hfirst]]]. cbn [Nat.add] in Hm, Hfirst.
  pose proof (@matchAt_index _ _ _ _ Hm) as Hidx. rewrite Hidx.
  exists alias0, functionName, (c0 :: content0), k.
  repeat (split; [first [reflexivity|assumption]|]).
  split.
  - apply (proj1 (@matchAt_functionHead_iff functionName k _ Hnf Hf)). congruence.
  - intros j Hj Hat.
    apply (proj2 (@matchAt_functionHead_iff functionName j _ Hnf Hf)) in Hat.
    now rewrite (Hfirst j Hj) in Hat.
Qed.

Lemma provideDefinition_witness :
  let fs := fun p : str => if str_eqb p (js "/app/math.js")
                           then Some (js "// helpers
function add(a, b) { return a + b }")
                           else None in
  let document := mkDocument (importLine "math.js" "MathJS") (js "/app/Main.qml") in
  exists alias0 functionName jsContent index,
    extractAliasAndFunction (Some (js "MathJS.add")) = Some (alias0, functionName) /\
    findJsFileForAlias (fun _ => js "/app") (fun d f => d ++ js "/" ++ f) document alias0 0
    = Some (js "/app/math.js") /\
    safeReadFile fs (js "/app/math.js") = Some jsContent /\
    index <= List.length jsContent /\
    mkPosition 1 0 = getPositionFromIndex jsContent index /\
    functionHeadAt jsContent functionName index /\
    forall j, j < index -> ~ functionHeadAt jsContent functionName j.
Proof.
  cbn zeta.
  apply (@provideDefinition_first_function_head (fun _ => js "/app") (fun d f => d ++ js "/" ++ f)).
  vm_compute. reflexivity.
Defined.

Lemma split_hd_prefix sep (s p : str) (ps : list str) :
  split sep s = p :: ps -> exists post, s = p ++ post.
Proof.
  revert p ps. induction s as [|a s IH]; intros p ps H; cbn [split] in H.
  - inversion H. now exists [].
  - destruct (Ascii.eqb a sep).
    + inversion H. now exists (a :: s).
    + destruct (split sep s) as [|q qs] eqn:E; [inversion H; now exists s|].
      inversion H; subst p ps. destruct (IH q qs eq_refl) as [post ->].
      now exists post.
Qed.

(** Every line of a text is a part of it. *)
Lemma split_In_part sep (s l : str) :
  In l (split sep s) -> exists pre post, s = pre ++ l ++ post.
Proof.
  revert l. induction s as [|a s IH]; intros l Hin; cbn [split] in Hin.
  - destruct Hin as [<-|[]]. now exists [], [].
  - destruct (Ascii.eqb a sep).
    + destruct Hin as [<-|Hin]; [now exists [], (a :: s)|].
      destruct (IH l Hin) as [pre [post ->]]. now exists (a :: pre), post.
    + destruct (split sep s) as [|q qs] eqn:E.
      * destruct Hin as [<-|[]]. exfalso. exact (@split_nonempty sep s E).
      * destruct Hin as [<-|Hin].
        -- destruct (@split_hd_prefix sep s q qs E) as [post ->]. now exists [], post.
        -- destruct (IH l (or_intror Hin)) as [pre [post ->]]. now exists (a :: pre), post.
Qed.

Lemma skipn_length_app (A : Type) (l r : list A) : skipn (List.length l) (l ++ r) = r.
Proof. induction l; [reflexivity|assumption]. Qed.

(** A declaration that the Function Extractor records is also found by the
    pattern of the definition provider. *)
Lemma parsed_function_has_head (jsContent : str) (fs : list FunctionInfo) (f : FunctionInfo) :
  parseJavaScriptFunctions jsContent = Some fs -> In f fs ->
  search (functionHead (fn_name f)) 0 jsContent <> None.
Proof.
  intros Hp Hin.
  destruct (@parsed_function_origin jsContent fs f Hp Hin) as [l [raw [Hl [Hd _]]]].
  destruct (@split_In_part LF jsContent l Hl) as [pre [post Hs]].
  destruct Hd as [ws [ws' [rest [Hline [Hnw [Hw [Hnn [Hn [Hw' _]]]]]]]]].
  apply (@search_complete (functionHead (fn_name f)) jsContent 0 (List.length pre)).
  - rewrite Hs, length_app. lia.
  - cbn [Nat.add]. rewrite Hs, skipn_length_app.
    apply (proj2 (@matchAt_functionHead_iff (fn_name f) (List.length pre) _ Hnn Hn)).
    exists ws, ws', (raw ++ ")"%char :: rest ++ post).
    split; [|repeat split; assumption].
    rewrite Hline. flatten_app. reflexivity.
Qed.

(** X12: whenever provideHover shows a function for a qualified name,
    provideDefinition answers a location for the same name, in the file the
    alias resolves to: a function that the hover knows can always be jumped
    to. *)
Theorem hover_has_definition
    (path_dirname : str -> str) (path_resolve : str -> str -> str) (fs : FileSystem)
    (document : TextDocument) (fullWord : option str) (lastIndex : nat) (markdown : str) :
  provideHover path_dirname path_resolve fs document fullWord lastIndex = Value markdown ->
  exists alias0 functionName jsFilePath target,
    extractAliasAndFunction fullWord = Some (alias0, functionName) /\
    findJsFileForAlias path_dirname path_resolve document alias0 lastIndex = Some jsFilePath /\
    provideDefinition path_dirname path_resolve fs document fullWord lastIndex
    = Value (jsFilePath, target).
Proof.
  unfold provideHover, provideDefinition.
  destruct (extractAliasAndFunction fullWord) as [[alias0 functionName]|] eqn:Ex; [|discriminate].
  destruct (findJsFileForAlias path_dirname path_resolve document alias0 lastIndex)
    as [[|p0 path0]|] eqn:Ef; [discriminate| |discriminate].
  destruct (safeReadFile fs (p0 :: path0)) as [[|c0 content0]|] eqn:Er;
    [discriminate| |discriminate].
  destruct (parseJavaScriptFunctions (c0 :: content0)) as [functions|] eqn:Ep; [|discriminate].
  destruct (find (fun f => str_eqb (fn_name f) functionName) functions) as [func|] eqn:Efind;
    [|discriminate].
  intros _. apply find_some in Efind as [Hin Hname]. apply str_eqb_eq in Hname.
  pose proof (@parsed_function_has_head _ _ _ Ep Hin) as Hs. rewrite Hname in Hs.
  change (regexExec (functionHead functionName) (c0 :: content0) 0)
    with (regexMatch (functionHead functionName) (c0 :: content0)).
  rewrite regexMatch_search.
  destruct (search (functionHead functionName) 0 (c0 :: content0)) as [m|]; [|congruence].
  exists alias0, functionName, (p0 :: path0), (getPositionFromIndex (c0 :: content0) (m_index m)).
  split; [first [reflexivity|exact Ex]|split; [first [reflexivity|exact Ef]|reflexivity]].
Qed.

Lemma hover_has_definition_witness :
  let fs := fun p : str => if str_eqb p (js "/app/math.js")
                           then Some (js "// helpers
function add(a, b) { return a + b }")
                           else None in
  let document := mkDocument (importLine "math.js" "MathJS") (js "/app/Main.qml") in
  exists alias0 functionName jsFilePath target,
    extractAliasAndFunction (Some (js "MathJS.add")) = Some (alias0, functionName) /\
    findJsFileForAlias (fun _ => js "/app") (fun d f => d ++ js "/" ++ f) document alias0 0
    = Some jsFilePath /\
    provideDefinition (fun _ => js "/app") (fun d f => d ++ js "/" ++ f) fs document
                      (Some (js "MathJS.add")) 0
    = Value (jsFilePath, target).
Proof.
  cbn zeta.
  eapply (@hover_has_definition (fun _ => js "/app") (fun d f => d ++ js "/" ++ f)).
  vm_compute. reflexivity.
Defined.

(* ------------------------------------------------------------------ *)
(** ** parser and providers: the suggested import *)

Lemma toUpperCase_word (a : ascii) : isWord a = true -> isWord (toUpperCase a) = true.
Proof.
  destruct a as [[] [] [] [] [] [] [] []]; vm_compute; congruence.
Qed.

Lemma splitBy_pieces (P : ascii -> Prop) (p : ascii -> bool) (s : str) :
  Forall (fun a => p a = false -> P a) s -> Forall (Forall P) (splitBy p s).
Proof.
  induction 1 as [|a s Ha _ IH]; cbn [splitBy]; [repeat constructor|].
  destruct (p a) eqn:Ea; [constructor; [constructor|exact IH]|].
  destruct (splitBy p s) as [|h t]; [repeat constructor; now apply Ha|].
  inversion IH; subst. constructor; [|assumption].
  constructor; [now apply Ha|assumption].
Qed.

Lemma capitalize_word (part : str) : wordChars part -> wordChars (capitalize part).
Proof.
  intros H. destruct part as [|c rest]; [constructor|].
  inversion H; subst. constructor; [now apply toUpperCase_word|assumption].
Qed.

Lemma wordChars_concat (l : list str) : Forall wordChars l -> wordChars (List.concat l).
Proof.
  induction 1 as [|x l Hx _ IH]; [constructor|]. cbn [List.concat]. now apply Forall_app.
Qed.

Lemma suggested_alias_word (baseName : str) :
  plainBaseName baseName ->
  generateAliasFromFilename (baseName ++ js ".js") <> [] /\
  wordChars (generateAliasFromFilename (baseName ++ js ".js")).
Proof.
  intros Hb.
  rewrite (@generateAliasFromFilename_base (baseName ++ js ".js") baseName (or_introl eq_refl)).
  unfold aliasOfBaseName. split.
  - intros H. apply (f_equal (@List.length ascii)) in H.
    rewrite length_app in H. cbn in H. lia.
  - apply Forall_app. split; [|repeat constructor].
    apply wordChars_concat. apply Forall_map.
    assert (Hp : Forall (Forall (fun a => isWord a = true))
                        (splitBy isHyphenOrUnderscore baseName)).
    { apply splitBy_pieces. revert Hb. apply Forall_impl.
      intros a [Ha| ->] Hsep; [exact Ha|]. discriminate. }
    revert Hp. apply Forall_impl. intros part. apply capitalize_word.
Qed.

(** X13: for a script file whose base name consists of word characters and
    hyphens, the suggested alias is a non-empty run of word characters;
    and the import statement that the providers build with this alias for a
    quote-free relative path ending in .js, with or without the blank lines,
    is read by the Import Extractor as exactly that one import. *)
Theorem suggested_import_reads_back
    (baseName relativePath stem : str) (insertPoint : ImportInsertionPoint) :
  plainBaseName baseName ->
  relativePath = stem ++ js ".js" -> stem <> [] -> noQuote stem ->
  let alias0 := generateAliasFromFilename (baseName ++ js ".js") in
  alias0 <> [] /\ wordChars alias0 /\
  findJavaScriptImports (importStatement insertPoint relativePath alias0) 0
  = [mkImport relativePath alias0].
Proof.
  intros Hb Hrel Hne Hq. cbn zeta.
  destruct (@suggested_alias_word baseName Hb) as [Hna Ha].
  split; [exact Hna|]. split; [exact Ha|].
  rewrite findJavaScriptImports_importsFrom. cbn [Nat.ltb Nat.leb skipn].
  rewrite <- (app_nil_r (importStatement _ _ _)).
  rewrite importsFrom_statement; [reflexivity|].
  exists stem. cbn [file alias]. repeat split; assumption.
Qed.

Lemma suggested_import_reads_back_witness :
  generateAliasFromFilename (js "account-helper.js") = js "AccountHelperJS" /\
  findJavaScriptImports
    (importStatement (mkPoint 1 true true) (js "./lib/account-helper.js")
                     (generateAliasFromFilename (js "account-helper.js"))) 0
  = [mkImport (js "./lib/account-helper.js") (generateAliasFromFilename (js "account-helper.js"))].
Proof.
  split; [vm_compute; reflexivity|].
  apply (@suggested_import_reads_back (js "account-helper") (js "./lib/account-helper.js")
           (js "./lib/account-helper") (mkPoint 1 true true)).
  - repeat (constructor; [first [left; reflexivity|right; reflexivity]|]). constructor.
  - reflexivity.
  - discriminate.
  - repeat (constructor; [discriminate|]). constructor.
Defined.

(* ------------------------------------------------------------------ *)
(** ** completion: the alias in front of the dot *)

Lemma search_first r s pos k m :
  k <= List.length s -> matchAt r (pos + k) (skipn k s) = Some m ->
  (forall j, j < k -> matchAt r (pos + j) (skipn j s) = None) ->
  search r pos s = Some m.
Proof.
  intros Hk Hm Hnone.
  destruct (search r pos s) as [m'|] eqn:E.
  - apply search_sound in E as [k' [Hk' [Hm' Hfirst]]].
    destruct (Nat.lt_trichotomy k' k) as [Hlt|[->|Hgt]].
    + rewrite (Hnone k' Hlt) in Hm'. discriminate.
    + congruence.
    + rewrite (Hfirst k Hgt) in Hm. discriminate.
  - exfalso. apply (@search_complete r s pos k Hk); [congruence|exact E].
Qed.

Lemma first_occurrence (c : ascii) (u u' v v' : str) :
  Forall (fun a => a <> c) u -> Forall (fun a => a <> c) u' ->
  u ++ c :: v = u' ++ c :: v' -> u = u' /\ v = v'.
Proof.
  intros Hu. revert u'. induction Hu as [|a u Ha _ IH]; intros u' Hu' H.
  - destruct u' as [|b u']; cbn [app] in H; [inversion H; now split|].
    inversion H; subst. inversion Hu'; congruence.
  - destruct u' as [|b u']; cbn [app] in H; [inversion H; congruence|].
    inversion H; subst. inversion Hu'; subst.
    destruct (IH u' ltac:(assumption) ltac:(assumption)) as [-> ->]. now split.
Qed.

Lemma last_occurrence (c : ascii) (u u' v v' : str) :
  Forall (fun a => a <> c) v -> Forall (fun a => a <> c) v' ->
  u ++ c :: v = u' ++ c :: v' -> u = u' /\ v = v'.
Proof.
  intros Hv Hv' H. apply (f_equal (@rev ascii)) in H.
  rewrite !rev_app_distr in H. cbn [rev] in H. rewrite <- !app_assoc in H. cbn [app] in H.
  apply first_occurrence in H as [H1 H2]; try (now apply Forall_rev).
  split; [apply (f_equal (@rev ascii)) in H2|apply (f_equal (@rev ascii)) in H1];
    now rewrite !rev_involutive in *.
Qed.

Lemma wordChars_no_dot (w : str) : wordChars w -> Forall (fun a => a <> "."%char) w.
Proof. apply Forall_impl. intros a Ha ->. discriminate. Qed.

Lemma exec_dotPrefix_complete pos a partial :
  a <> [] -> wordChars a -> wordChars partial ->
  exec REGEX_PATTERNS.ALIAS_DOT_PREFIX accept pos (a ++ "."%char :: partial) []
  = Some (pos + List.length a + 1 + List.length partial, [None; Some a; Some partial]).
Proof.
  intros Hna Ha Hp.
  unfold REGEX_PATTERNS.ALIAS_DOT_PREFIX. cbn [exec].
  apply plus_max; [assumption|assumption|reflexivity|].
  cbn beta iota. rewrite mem_char_refl.
  rewrite <- (app_nil_r partial) at 1.
  apply starGreedy_max; [exact Hp|exact I|].
  cbn beta iota. unfold accept. f_equal. f_equal; [lia|].
  rewrite firstn_all2 by lia.
  rewrite (@firstn_length_app _ a) by lia.
  reflexivity.
Qed.

Lemma exec_dotPrefix_sound pos s x :
  exec REGEX_PATTERNS.ALIAS_DOT_PREFIX accept pos s [] = Some x ->
  exists a partial, s = a ++ "."%char :: partial /\
                    a <> [] /\ wordChars a /\ wordChars partial.
Proof.
  unfold REGEX_PATTERNS.ALIAS_DOT_PREFIX. cbn [exec]. intros H.
  apply plus_inv in H as [a [s1 [-> [Hna [Ha [H _]]]]]].
  cbn beta iota in H.
  destruct s1 as [|q s2]; [discriminate|].
  destruct (mem (CChar ".") q) eqn:Eq; [|discriminate].
  apply mem_char_eq in Eq. subst q.
  apply starGreedy_inv in H as [partial [rest [-> [Hp [H _]]]]].
  cbn beta iota in H. destruct rest as [|r0 rest]; [|discriminate].
  exists a, partial. rewrite app_nil_r. repeat split; assumption.
Qed.

(** X14: when the text in front of the cursor ends in an identifier, a dot
    and a possibly empty run of word characters, and the identifier is not
    preceded by a word character, the completion takes exactly that
    identifier as the alias and the run as the partial function name. *)
Theorem dotAlias_last_identifier (before a partial : str) :
  a <> [] -> wordChars a -> wordChars partial ->
  (forall b c, before = b ++ [c] -> isWord c = false) ->
  dotAlias (before ++ a ++ "."%char :: partial) = Some (a, partial).
Proof.
  intros Hna Ha Hp Hbefore. unfold dotAlias. rewrite regexMatch_search.
  rewrite (@search_first REGEX_PATTERNS.ALIAS_DOT_PREFIX
             (before ++ a ++ "."%char :: partial) 0 (List.length before)
             (mkMatch (List.length before)
                      (List.length before + List.length a + 1 + List.length partial)
                      [None; Some a; Some partial])).
  - reflexivity.
  - rewrite length_app. lia.
  - rewrite skipn_length_app. cbn [Nat.add]. unfold matchAt.
    now rewrite exec_dotPrefix_complete.
  - intros j Hj. cbn [Nat.add]. unfold matchAt.
    destruct (exec REGEX_PATTERNS.ALIAS_DOT_PREFIX accept j
                   (skipn j (before ++ a ++ "."%char :: partial)) []) as [x|] eqn:E;
      [|reflexivity].
    exfalso. apply exec_dotPrefix_sound in E as [a' [partial' [Hs [_ [Ha' Hp']]]]].
    rewrite skipn_app in Hs.
    replace (j - List.length before) with 0 in Hs by lia. cbn [skipn] in Hs.
    rewrite app_assoc in Hs.
    apply last_occurrence in Hs as [Hs _]; try (now apply wordChars_no_dot).
    assert (Hne : skipn j before <> []).
    { intros H0. apply (f_equal (@List.length ascii)) in H0.
      rewrite length_skipn in H0. cbn in H0. lia. }
    destruct (exists_last Hne) as [b [c Hbc]].
    assert (Hc : isWord c = true).
    { rewrite <- Hs, Hbc in Ha'. apply Forall_app in Ha' as [Hw _].
      apply Forall_app in Hw as [_ Hw]. now inversion Hw. }
    rewrite (Hbefore (firstn j before ++ b) c) in Hc; [discriminate|].
    rewrite <- app_assoc, <- Hbc. symmetry. apply firstn_skipn.
Qed.

Lemma dotAlias_witness :
  dotAlias (js "    width: MathJS.ad") = Some (js "MathJS", js "ad").
Proof.
  apply (@dotAlias_last_identifier (js "    width: ") (js "MathJS") (js "ad")).
  - discriminate.
  - repeat (constructor; [reflexivity|]). constructor.
  - repeat (constructor; [reflexivity|]). constructor.
  - intros b c H. apply (f_equal (@rev ascii)) in H. rewrite rev_app_distr in H.
    cbn in H. inversion H. reflexivity.
Defined.

(* ------------------------------------------------------------------ *)
(** ** parser: what a documentation block yields *)

Lemma inSet_nonSpaces (w : str) : inSet CNonSpace w -> nonSpaces w.
Proof. apply Forall_impl. intros a H. cbn [mem] in H. now apply negb_true_iff in H. Qed.

Lemma inSet_lineText (d : str) : inSet CDot d -> lineText d.
Proof. apply Forall_impl. intros a H. cbn [mem] in H. now apply negb_true_iff in H. Qed.

Lemma inSet_noBrace (t : str) : inSet (CNoneOf ["}"%char]) t -> noBrace t.
Proof.
  apply Forall_impl. intros a H. cbn [mem existsb] in H. rewrite orb_false_r in H.
  apply negb_true_iff in H. now apply Ascii.eqb_neq in H.
Qed.

Lemma exec_paramTail_caps pos s c e c' :
  exec paramTail accept pos s c = Some (e, c') ->
  exists name, name <> [] /\ nonSpaces name /\
    (c' = setCap 2 name c \/
     exists d, d <> [] /\ lineText d /\ c' = setCap 3 d (setCap 2 name c)).
Proof.
  unfold paramTail. cbn [exec]. intros H.
  apply plus_inv in H as [name [rest [-> [Hnn [Hname [H _]]]]]].
  exists name. split; [assumption|]. split; [now apply inSet_nonSpaces|].
  replace (pos + List.length name - pos) with (List.length name) in H by lia.
  rewrite (@firstn_length_app _ name rest _ eq_refl) in H.
  apply exec_opt_inv in H as [H|H].
  - right. unfold paramDescription in H. cbn [exec] in H.
    apply plus_inv in H as [ws [s1 [-> [Hnw [Hw [H _]]]]]].
    destruct s1 as [|q s2]; [discriminate|].
    destruct (mem (CChar "-") q) eqn:Eq; [|discriminate].
    apply mem_char_eq in Eq. subst q.
    apply plus_inv in H as [ws' [s3 [-> [Hnw' [Hw' [H _]]]]]].
    apply plus_lazy_inv in H as [d [rest' [-> [Hnd [Hd H]]]]].
    apply exec_paramEnd_inv in H as [-> ->].
    exists d. split; [assumption|]. split; [now apply inSet_lineText|].
    f_equal. apply firstn_length_app. lia.
  - left. now apply exec_paramEnd_inv in H as [-> ->].
Qed.

Lemma exec_param_caps pos s e c :
  exec REGEX_PATTERNS.JSDOC_PARAM accept pos s [] = Some (e, c) ->
  exists name, name <> [] /\ nonSpaces name /\ getCap 2 c = Some name /\
    (getCap 1 c = None \/ exists t, t <> [] /\ noBrace t /\ getCap 1 c = Some t) /\
    (getCap 3 c = None \/ exists d, d <> [] /\ lineText d /\ getCap 3 c = Some d).
Proof.
  change REGEX_PATTERNS.JSDOC_PARAM
    with (Lit "@param" >> Plus true CSpace >> REGEX_PATTERNS.type_annotation >> paramTail).
  unfold Lit. cbn [exec]. intros H.
  apply exec_lit_inv in H as [s1 [-> H]].
  apply plus_inv in H as [ws [s2 [-> [Hnw [Hw [H _]]]]]].
  change (exec REGEX_PATTERNS.type_annotation) with
    (exec (Opt (Chr (CChar "{") >> Group 1 (Plus true (CNoneOf ["}"%char])) >> Chr (CChar "}") >>
                Plus true CSpace))) in H.
  apply exec_opt_inv in H as [H|H].
  - cbn [exec] in H.
    destruct s2 as [|q s3]; [discriminate|].
    destruct (mem (CChar "{") q) eqn:Eq; [|discriminate].
    apply mem_char_eq in Eq. subst q.
    apply plus_inv in H as [t [s4 [-> [Hnt [Ht [H _]]]]]].
    cbn beta iota in H.
    destruct s4 as [|q s5]; [discriminate|].
    destruct (mem (CChar "}") q) eqn:Eq; [|discriminate].
    apply mem_char_eq in Eq. subst q.
    apply plus_inv in H as [ws1 [s6 [-> [Hnw1 [Hw1 [H _]]]]]].
    match type of H with context [firstn ?n ?l] =>
      replace (firstn n l) with t in H by (symmetry; apply firstn_length_app; lia) end.
    apply exec_paramTail_caps in H as [name [Hnn [Hname [->|[d [Hnd [Hd ->]]]]]]];
      exists name; (split; [assumption|]); (split; [assumption|]);
      (split; [reflexivity|]); (split; [right; exists t; repeat split;
                                         [assumption|now apply inSet_noBrace]|]).
    + left. reflexivity.
    + right. exists d. repeat split; assumption.
  - apply exec_paramTail_caps in H as [name [Hnn [Hname [->|[d [Hnd [Hd ->]]]]]]];
      exists name; (split; [assumption|]); (split; [assumption|]);
      (split; [reflexivity|]); (split; [left; reflexivity|]).
    + left. reflexivity.
    + right. exists d. repeat split; assumption.
Qed.

Lemma orElse_nonempty (x : option str) (d : str) : d <> [] -> orElse x d <> [].
Proof. intros Hd. destruct x as [[|a s]|]; cbn [orElse]; try assumption. discriminate. Qed.

Lemma parseJSDocContent_wellformed (jsdocContent : str) :
  let d := parseJSDocContent jsdocContent in
  returnType d <> [] /\ trimmed (documentation d) /\
  Forall (fun pd => pd_type pd <> [] /\ noBrace (pd_type pd) /\
                    pd_name pd <> [] /\ nonSpaces (pd_name pd) /\
                    lineText (pd_description pd)) (paramDocs d).
Proof.
  cbn zeta. unfold parseJSDocContent. cbn [returnType documentation paramDocs].
  split; [|split].
  - destruct (regexMatch REGEX_PATTERNS.JSDOC_RETURN jsdocContent) as [m|]; [|discriminate].
    apply orElse_nonempty. discriminate.
  - destruct (regexMatch REGEX_PATTERNS.JSDOC_DESCRIPTION jsdocContent) as [m|].
    + apply trim_fixed_trimmed, trim_idem.
    + split; intros a t H; [discriminate|destruct t; discriminate].
  - apply Forall_forall. intros pd Hin. apply in_map_iff in Hin as [m [<- Hin]].
    unfold matchAllFrom in Hin. cbn [Nat.ltb Nat.leb skipn] in Hin.
    apply scan_In in Hin as [i [_ [_ Hat]]]. cbn [Nat.add] in Hat. unfold matchAt in Hat.
    destruct (exec REGEX_PATTERNS.JSDOC_PARAM accept i (skipn i jsdocContent) [])
      as [[e c]|] eqn:E; [|discriminate].
    inversion Hat; subst m. clear Hat.
    apply exec_param_caps in E as [name [Hnn [Hname [H2 [H1 H3]]]]].
    unfold paramDocOfMatch, capture, group.
    cbn [pd_type pd_name pd_description m_caps]. rewrite H2.
    assert (Hany : noBrace (js "any")) by (repeat (constructor; [discriminate|]); constructor).
    split; [|split; [|split; [assumption|split; [assumption|]]]].
    + apply orElse_nonempty. discriminate.
    + destruct H1 as [->|[t [Hnt [Ht ->]]]]; [exact Hany|].
      destruct t; [congruence|exact Ht].
    + destruct H3 as [->|[d [Hnd [Hd ->]]]]; [constructor|].
      destruct d; [congruence|exact Hd].
Qed.

(** X15: whatever extractJSDoc reads is well formed: the return type is
    never empty, the description has no white space at either end, and every
    documented parameter has a non-empty type without a closing brace, a
    non-empty name without white space and a description without a line
    terminator. *)
Theorem extractJSDoc_wellformed (lines : list str) (functionLineIndex : nat) (d : JSDocInfo) :
  extractJSDoc lines functionLineIndex = Some d ->
  returnType d <> [] /\ trimmed (documentation d) /\
  Forall (fun pd => pd_type pd <> [] /\ noBrace (pd_type pd) /\
                    pd_name pd <> [] /\ nonSpaces (pd_name pd) /\
                    lineText (pd_description pd)) (paramDocs d).
Proof.
  assert (Hdefault : returnType defaultJSDoc <> [] /\ trimmed (documentation defaultJSDoc) /\
            Forall (fun pd => pd_type pd <> [] /\ noBrace (pd_type pd) /\
                              pd_name pd <> [] /\ nonSpaces (pd_name pd) /\
                              lineText (pd_description pd)) (paramDocs defaultJSDoc)).
  { split; [discriminate|]. split; [|constructor].
    split; intros a t H; [discriminate|destruct t; discriminate]. }
  unfold extractJSDoc.
  destruct (scanToDocEnd lines functionLineIndex) as [j|]; [|discriminate].
  destruct (lineAt lines j) as [lj|]; [|intros H; inversion H; subst d; exact Hdefault].
  destruct ((0 <=? j)%Z && test REGEX_PATTERNS.JSDOC_END lj);
    [|intros H; inversion H; subst d; exact Hdefault].
  destruct (collectDocLines lines (S (Z.to_nat j)) []) as [k1 jsdocLines].
  intros H. inversion H; subst d. apply parseJSDocContent_wellformed.
Qed.

Lemma extractJSDoc_wellformed_witness :
  exists d,
    extractJSDoc (map js ["/**"; " * Adds.  "; " * @param {number} a - first"; " */";
                          "function add(a) {}"]%string) 4 = Some d /\
    paramDocs d = [mkParamDoc (js "number") (js "a") (js "first")] /\
    returnType d <> [] /\ trimmed (documentation d) /\
    Forall (fun pd => pd_type pd <> [] /\ noBrace (pd_type pd) /\
                      pd_name pd <> [] /\ nonSpaces (pd_name pd) /\
                      lineText (pd_description pd)) (paramDocs d).
Proof.
  eexists. split; [vm_compute; reflexivity|]. split; [reflexivity|].
  apply (@extractJSDoc_wellformed
           (map js ["/**"; " * Adds.  "; " * @param {number} a - first"; " */";
                    "function add(a) {}"]%string) 4).
  vm_compute. reflexivity.
Defined.

(* ------------------------------------------------------------------ *)
(** ** constants: QML_IMPORT on a script import line *)

Lemma starGreedy_keeps cs k pos s c :
  k pos s c <> None -> starGreedy cs k pos s c <> None.
Proof.
  intros Hk. destruct s as [|a s]; cbn [starGreedy]; [exact Hk|].
  destruct (mem cs a); [|exact Hk].
  destruct (starGreedy cs k (S pos) s c); [discriminate|exact Hk].
Qed.

(** Greedy repetition succeeds as soon as the continuation succeeds after
    some run of the set. *)
Lemma starGreedy_some cs k c run : inSet cs run -> forall pos s,
  k (pos + List.length run) s c <> None -> starGreedy cs k pos (run ++ s) c <> None.
Proof.
  intros Hrun pos s Hk.
  destruct (starGreedy cs k (pos + List.length run) s c) as [x|] eqn:E.
  - rewrite (@starGreedy_app cs k c x run Hrun pos s E). discriminate.
  - exfalso. now apply (@starGreedy_keeps cs k (pos + List.length run) s c Hk).
Qed.

Lemma exists_last_or_nil (A : Type) (l : list A) : l = [] \/ exists l' a, l = l' ++ [a].
Proof.
  induction l as [|a l' _] using rev_ind; [now left|right; now exists l', a].
Qed.

(** The lookahead of QML_IMPORT sees a quoted script path on the line. *)
Lemma quoted_script_seen pos p rest c :
  lineText p ->
  exec (Chr (CChar DQUOTE) >> Star true CDot >> Lit ".js" >> Chr (CChar DQUOTE)) accept pos
       (DQUOTE :: p ++ js ".js" ++ DQUOTE :: rest) c <> None.
Proof.
  intros Hp. unfold Lit. cbn [exec]. rewrite mem_char_refl.
  apply starGreedy_some.
  - revert Hp. apply Forall_impl. intros a Ha. cbn [mem]. now rewrite Ha.
  - rewrite exec_lit_app. cbn [exec]. rewrite mem_char_refl. discriminate.
Qed.

Lemma exec_rest_of_line pos a s c :
  a <> LF -> exec (Plus true (CNoneOf [LF])) accept pos (a :: s) c <> None.
Proof.
  intros Ha. unfold Plus. cbn [exec mem existsb].
  destruct (Ascii.eqb_spec a LF) as [->|_]; [congruence|]. cbn [orb negb].
  apply starGreedy_total. intros p s0 c0. discriminate.
Qed.

(** X16: on a line that begins with the keyword import, white space
    without a line feed and a quoted path ending in .js, QML_IMPORT matches
    exactly when the white space is two or more characters long: the
    negative lookahead keeps a script import from counting as an ordinary
    import only when a single white-space character follows the keyword. *)
Theorem QML_IMPORT_on_script_import (ws p rest : str) :
  ws <> [] -> spaces ws -> Forall (fun a => a <> LF) ws -> lineText p ->
  test REGEX_PATTERNS.QML_IMPORT (js "import" ++ ws ++ DQUOTE :: p ++ js ".js" ++ DQUOTE :: rest)
  = (1 <? List.length ws).
Proof.
  intros Hne Hw Hlf Hp. unfold test.
  unfold REGEX_PATTERNS.QML_IMPORT. rewrite regexMatch_bos.
  fold REGEX_PATTERNS.QML_IMPORT. unfold matchAt.
  set (look := Chr (CChar DQUOTE) >> Star true CDot >> Lit ".js" >> Chr (CChar DQUOTE)).
  assert (Hq : forall s,
             exec REGEX_PATTERNS.QML_IMPORT accept 0 s []
             = starGreedy CSpace
                 (exec (lit (js "import"))
                    (exec (Plus true CSpace)
                       (exec (Look false look >> Plus true (CNoneOf [LF])) accept))) 0 s [])
    by reflexivity.
  rewrite Hq. clear Hq.
  remember (exec (Look false look >> Plus true (CNoneOf [LF])) accept) as k eqn:Ek.
  rewrite (@starGreedy_stop CSpace _ [] 0 (js "import" ++ _) eq_refl).
  rewrite exec_lit_app. generalize (0 + List.length (js "import")). intros n.
  destruct ws as [|w0 ws]; [congruence|].
  inversion Hw as [|? ? Hw0 Hws]; subst. inversion Hlf as [|? ? _ Hlfs]; subst.
  unfold Plus. cbn [exec app]. cbn [mem]. rewrite Hw0.
  destruct (exists_last_or_nil ws) as [->|[ws' [c ->]]].
  - (* a single character: the lookahead sees the path and there is nothing to give back *)
    cbn [app List.length Nat.ltb Nat.leb].
    rewrite (@starGreedy_stop CSpace _ [] (S n) (DQUOTE :: _) eq_refl).
    cbn [exec].
    destruct (exec look accept (S n) (DQUOTE :: p ++ js ".js" ++ DQUOTE :: rest) []) eqn:E;
      [reflexivity|].
    exfalso. exact (@quoted_script_seen (S n) p rest [] Hp E).
  - (* two or more: the last white-space character is given back *)
    replace (1 <? List.length (w0 :: ws' ++ [c])) with true
      by (symmetry; apply Nat.ltb_lt; cbn [List.length]; rewrite length_app; cbn; lia).
    rewrite <- app_assoc. cbn [app].
    apply Forall_app in Hws as [Hws' Hc]. inversion Hc as [|? ? Hcs _]; subst.
    apply Forall_app in Hlfs as [_ Hclf]. inversion Hclf as [|? ? Hcn _]; subst.
    match goal with |- context [starGreedy CSpace ?k0 (S n) ?s0 []] =>
      destruct (starGreedy CSpace k0 (S n) s0 []) as [[e c1]|] eqn:E; [reflexivity|] end.
    exfalso. revert E. apply starGreedy_some; [exact Hws'|].
    cbn [exec]. unfold look at 1. cbn [exec mem].
    destruct (Ascii.eqb_spec c DQUOTE) as [->|_]; [discriminate|].
    now apply exec_rest_of_line.
Qed.

Lemma QML_IMPORT_on_script_import_witness :
  test REGEX_PATTERNS.QML_IMPORT (js "import " ++ quoted "a.js" ++ js " as A") = false /\
  test REGEX_PATTERNS.QML_IMPORT (js "import  " ++ quoted "a.js" ++ js " as A") = true.
Proof.
  split.
  - apply (@QML_IMPORT_on_script_import (js " ") (js "a") (js " as A"));
      [discriminate|repeat constructor|repeat constructor; discriminate|repeat constructor].
  - apply (@QML_IMPORT_on_script_import (js "  ") (js "a") (js " as A"));
      [discriminate|repeat constructor|repeat constructor; discriminate|repeat constructor].
Defined.

(* ------------------------------------------------------------------ *)
(** ** completion: the cache of parsed files *)

(** X17: with a cache in which every entry is what parsing the present
    content of its file gives, completion after a dot answers as it would
    with an empty cache and leaves such a cache behind; and once the change
    handler has run for a file, the cache is again right for any file system
    that differs from the old one in that file only. *)
Theorem completion_cache_transparent
    (path_dirname : str -> str) (path_resolve : str -> str -> str) (fs : FileSystem)
    (cache : Cache) (document : TextDocument) (alias0 : str) (lastIndex : nat) :
  coherent fs cache ->
  let result := completeAfterDot path_dirname path_resolve fs cache document alias0 lastIndex in
  fst result
  = fst (completeAfterDot path_dirname path_resolve fs emptyCache document alias0 lastIndex) /\
  coherent fs (snd result) /\
  forall (fs' : FileSystem) (changed : str),
    (forall p, p <> changed -> fs' p = fs p) ->
    coherent fs' (onDidChange (snd result) changed).
Proof.
  intros Hco. cbn zeta.
  assert (Hinv : forall cache', coherent fs cache' ->
            forall (fs' : FileSystem) (changed : str),
              (forall p, p <> changed -> fs' p = fs p) ->
              coherent fs' (onDidChange cache' changed)).
  { intros cache' Hc fs' changed Hsame p functions Hp.
    unfold onDidChange, cacheDelete in Hp.
    destruct (str_eqb p changed) eqn:E; [discriminate|]. apply str_eqb_neq in E.
    destruct (Hc p functions Hp) as [content H]. exists content.
    unfold safeReadFile in *. now rewrite (Hsame p E). }
  assert (Hres : fst (completeAfterDot path_dirname path_resolve fs cache document alias0 lastIndex)
                 = fst (completeAfterDot path_dirname path_resolve fs emptyCache document alias0
                                         lastIndex) /\
                 coherent fs (snd (completeAfterDot path_dirname path_resolve fs cache document
                                                    alias0 lastIndex))).
  { unfold completeAfterDot.
    destruct (findJsFileForAlias path_dirname path_resolve document alias0 lastIndex)
      as [[|p0 path0]|]; [now split| |now split].
    unfold emptyCache at 1.
    destruct (cache (p0 :: path0)) as [functions|] eqn:Ec.
    - destruct (Hco _ _ Ec) as [content [Hr [Hne Hp]]]. rewrite Hr.
      destruct content as [|c0 content]; [congruence|]. rewrite Hp. now split.
    - destruct (safeReadFile fs (p0 :: path0)) as [[|c0 content]|] eqn:Er;
        [now split| |now split].
      destruct (parseJavaScriptFunctions (c0 :: content)) as [functions|] eqn:Ep; [|now split].
      split; [reflexivity|]. cbn [snd].
      intros p functions' Hp. unfold cacheSet in Hp.
      destruct (str_eqb p (p0 :: path0)) eqn:E.
      + apply str_eqb_eq in E. subst p. inversion Hp; subst functions'.
        exists (c0 :: content). repeat split; [assumption|discriminate|assumption].
      + now apply Hco. }
  destruct Hres as [H1 H2]. split; [exact H1|]. split; [exact H2|]. now apply Hinv.
Qed.

Lemma completion_cache_witness :
  let fs := fun p : str => if str_eqb p (js "/app/math.js")
                           then Some (js "function add(a, b) { return a + b }")
                           else None in
  let document := mkDocument (importLine "math.js" "MathJS") (js "/app/Main.qml") in
  let warm := cacheSet emptyCache (js "/app/math.js")
                [mkFunctionInfo (js "add") [js "a"; js "b"] [] (js "any") []] in
  coherent fs warm /\
  fst (completeAfterDot (fun _ => js "/app") (fun d f => d ++ js "/" ++ f) fs
                        warm document (js "MathJS") 0)
  = fst (completeAfterDot (fun _ => js "/app") (fun d f => d ++ js "/" ++ f) fs
                          emptyCache document (js "MathJS") 0).
Proof.
  cbn zeta.
  assert (Hco : coherent
            (fun p : str => if str_eqb p (js "/app/math.js")
                            then Some (js "function add(a, b) { return a + b }")
                            else None)
            (cacheSet emptyCache (js "/app/math.js")
               [mkFunctionInfo (js "add") [js "a"; js "b"] [] (js "any") []])).
  { intros p functions H. unfold cacheSet, emptyCache in H. unfold safeReadFile.
    destruct (str_eqb p (js "/app/math.js")); [|discriminate].
    inversion H; subst functions.
    exists (js "function add(a, b) { return a + b }").
    split; [reflexivity|]. split; [discriminate|vm_compute; reflexivity]. }
  split; [exact Hco|].
  exact (proj1 (@completion_cache_transparent (fun _ => js "/app")
                  (fun d f => d ++ js "/" ++ f) _ _
                  (mkDocument (importLine "math.js" "MathJS") (js "/app/Main.qml"))
                  (js "MathJS") 0 Hco)).
Defined.

(* ------------------------------------------------------------------ *)
(** ** utils: mapTypeToTS *)

(** X18: mapTypeToTS answers one of the six type names string, number,
    boolean, any, any[] and Function for every documented type, except for
    the twelve names of the members that the table inherits from
    Object.prototype: for these the lookup finds the inherited member, and
    that member, not a string, is the answer. *)
Theorem mapTypeToTS_range (jsdocType : str) :
  match mapTypeToTS jsdocType with
  | JString s => In s tsTypes /\ existsb (str_eqb jsdocType) objectPrototypeKeys = false
  | JInherited key => key = jsdocType /\ In jsdocType objectPrototypeKeys
  end.
Proof.
  unfold mapTypeToTS.
  destruct (ownProperty TYPE_MAP jsdocType) as [v|] eqn:E.
  - unfold TYPE_MAP in E. cbn [ownProperty] in E.
    repeat match type of E with
           | (if str_eqb ?k jsdocType then _ else _) = _ =>
               let Ek := fresh "Ek" in
               destruct (str_eqb k jsdocType) eqn:Ek;
               [apply str_eqb_eq in Ek; subst jsdocType; inversion E; subst v;
                split; vm_compute; [tauto|reflexivity]|]
           end.
    discriminate.
  - destruct (existsb (str_eqb jsdocType) objectPrototypeKeys) eqn:Ex.
    + split; [reflexivity|]. apply existsb_exists in Ex as [k [Hin Hk]].
      apply str_eqb_eq in Hk. now subst k.
    + split; [vm_compute; tauto|reflexivity].
Qed.

(* ------------------------------------------------------------------ *)
(** ** providers: the edits of one request *)

Lemma nth_error_last (A : Type) (l : list A) (x d : A) :
  nth_error l (List.length l - 1) = Some x -> last l d = x.
Proof.
  induction l as [|a l IH]; [discriminate|].
  destruct l as [|b l]; cbn [List.length Nat.sub nth_error].
  - intros H. now inversion H.
  - intros H. change (last (a :: b :: l) d) with (last (b :: l) d). apply IH.
    cbn [List.length]. now replace (S (List.length l) - 1) with (List.length l) by lia.
Qed.

Lemma planner_state (qmlContent : str) (lastIndex : nat) :
  snd (getJsImportInsertionPoint qmlContent lastIndex)
  = snd (getLastJsImportLine qmlContent lastIndex).
Proof.
  unfold getJsImportInsertionPoint.
  destruct (getLastJsImportLine qmlContent lastIndex) as [lastJs li'].
  destruct (0 <=? lastJs)%Z; [reflexivity|].
  destruct (0 <=? getLastQmlImportLine qmlContent)%Z; reflexivity.
Qed.

(** Unless the last line of the text contains a script import, planning
    leaves the shared pattern in its fresh state. *)
Lemma planner_leaves_fresh (qmlContent : str) (lastIndex : nat) :
  containsScriptImport (last (split LF qmlContent) []) = false ->
  snd (getJsImportInsertionPoint qmlContent lastIndex) = 0.
Proof.
  intros Hlast. rewrite planner_state.
  destruct (getLastJsImportLine_state qmlContent lastIndex) as [H|[Hfst _]]; [exact H|].
  exfalso. pose proof (split_length_pos LF qmlContent) as Hpos.
  destruct (getLastJsImportLine_line_sound qmlContent lastIndex) as [H|[k [l [Hk [Hl Hc]]]]].
  - rewrite H in Hfst. lia.
  - rewrite Hk in Hfst.
    assert (k = List.length (split LF qmlContent) - 1) by lia. subst k.
    rewrite (@nth_error_last _ _ l [] Hl) in Hlast. congruence.
Qed.

(** X19: when the last line of the text contains no script import
    statement, the edits built for the matches of one request, planned one
    after the other from the fresh state of the shared pattern, all go to the
    same line with the same blank lines, those of a single planning, and the
    pattern is left in its fresh state; for the one-line text of a script
    import the second of two edits goes to line 0 instead of line 1. *)
Theorem importEdits_same_insertion_point (matches : list JsFileMatch) (qmlContent : str) :
  containsScriptImport (last (split LF qmlContent) []) = false ->
  let insertPoint := fst (getJsImportInsertionPoint qmlContent 0) in
  importEdits matches qmlContent 0
  = (map (fun m => (line insertPoint,
                    importStatement insertPoint (match_relativePath m) (match_alias m)))
         matches, 0) /\
  map fst (fst (importEdits [mkJsFileMatch (js "/app/b.js") (js "BJS") (js "./b.js");
                             mkJsFileMatch (js "/app/lib/b.js") (js "BJS") (js "./lib/b.js")]
                            (importLine "a.js" "A") 0))
  = [1%Z; 0%Z].
Proof.
  intros Hlast. cbn zeta. split; [|vm_compute; reflexivity].
  pose proof (@planner_leaves_fresh qmlContent 0 Hlast) as Hstate.
  induction matches as [|m matches IH]; [reflexivity|].
  cbn [importEdits map].
  destruct (getJsImportInsertionPoint qmlContent 0) as [insertPoint li'] eqn:E.
  cbn [snd] in Hstate. subst li'. cbn [fst] in IH |- *. rewrite IH. reflexivity.
Qed.

Lemma importEdits_witness :
  map fst (fst (importEdits [mkJsFileMatch (js "/app/b.js") (js "BJS") (js "./b.js");
                             mkJsFileMatch (js "/app/lib/b.js") (js "BJS") (js "./lib/b.js")]
                            (importLine "a.js" "A" ++ [LF]) 0))
  = [1%Z; 1%Z].
Proof.
  rewrite (proj1 (@importEdits_same_insertion_point
                    [mkJsFileMatch (js "/app/b.js") (js "BJS") (js "./b.js");
                     mkJsFileMatch (js "/app/lib/b.js") (js "BJS") (js "./lib/b.js")]
                    (importLine "a.js" "A" ++ [LF]) ltac:(vm_compute; reflexivity))).
  vm_compute. reflexivity.
Defined.

(* ------------------------------------------------------------------ *)
(** ** parser: what the Import Extractor reads *)

(** X20: every import that findJavaScriptImports reads, from any state of
    the shared pattern, is well formed (a file with a non-empty quote-free
    stem ending in .js, a non-empty alias of word characters) and is stated
    by a script import statement that stands in the text. *)
Theorem findJavaScriptImports_reads_statements
    (qmlContent : str) (lastIndex : nat) (imp : Import) :
  In imp (findJavaScriptImports qmlContent lastIndex) ->
  wellFormedImport imp /\
  exists before body after,
    qmlContent = before ++ body ++ after /\ isScriptImport body (file imp) (alias imp).
Proof.
  unfold findJavaScriptImports, matchAllFrom. intros Hin.
  apply in_map_iff in Hin as [m [<- Hin]].
  destruct (List.length qmlContent <? lastIndex); [destruct Hin|].
  apply scan_In in Hin as [i [_ [_ Hat]]].
  apply matchAt_import_sound in Hat as [body [f [a [rest [Hs [Hb [_ ->]]]]]]].
  change (capture 1 (mkMatch (lastIndex + i) (lastIndex + i + List.length body) (importCaps f a)))
    with f.
  change (capture 2 (mkMatch (lastIndex + i) (lastIndex + i + List.length body) (importCaps f a)))
    with a.
  cbn [file alias]. split.
  - destruct Hb as [ws1 [p [ws2 [ws3 [_ [-> [_ [_ [Hnp [Hp [_ [_ [_ [_ [Hna Ha]]]]]]]]]]]]]]].
    exists p. cbn [file alias]. repeat split; assumption.
  - exists (firstn lastIndex qmlContent ++ firstn i (skipn lastIndex qmlContent)), body, rest.
    split; [|exact Hb].
    rewrite <- Hs, <- app_assoc, (firstn_skipn i), (firstn_skipn lastIndex). reflexivity.
Qed.

Lemma findJavaScriptImports_reads_witness :
  wellFormedImport (mkImport (js "a.js") (js "A")) /\
  exists before body after,
    js "// " ++ importLine "a.js" "A" = before ++ body ++ after /\
    isScriptImport body (js "a.js") (js "A").
Proof.
  apply (@findJavaScriptImports_reads_statements (js "// " ++ importLine "a.js" "A") 0
           (mkImport (js "a.js") (js "A"))).
  vm_compute. now left.
Defined.

(* ------------------------------------------------------------------ *)
(** ** parser: the documentation of a function depends on the lines above it *)

Lemma nth_error_firstn_lt (A : Type) (l : list A) : forall i j,
  j < i -> nth_error (firstn i l) j = nth_error l j.
Proof.
  induction l as [|a l IH]; intros i j Hj.
  - rewrite firstn_nil. reflexivity.
  - destruct i as [|i]; [lia|]. destruct j as [|j]; [reflexivity|].
    cbn [firstn nth_error]. apply IH. lia.
Qed.

Section Above.

Variables (lines lines' : list str) (i : nat).
Hypothesis Hsame : forall j, j < i -> nth_error lines j = nth_error lines' j.

Lemma scanToDocEnd_above : forall n, n <= i ->
  scanToDocEnd lines n = scanToDocEnd lines' n /\
  forall z, scanToDocEnd lines n = Some z -> (-1 <= z < Z.of_nat n)%Z.
Proof.
  induction n as [|j IH]; intros Hn; cbn [scanToDocEnd].
  - split; [reflexivity|]. intros z H. inversion H. lia.
  - rewrite <- (Hsame Hn).
    destruct (nth_error lines j) as [l|]; [|split; [reflexivity|discriminate]].
    destruct (IH ltac:(lia)) as [IH1 IH2].
    destruct (negb (isBlank l) && negb (test REGEX_PATTERNS.JSDOC_END l)).
    + split; [exact IH1|]. intros z H. specialize (IH2 z H). lia.
    + split; [reflexivity|]. intros z H. inversion H. lia.
Qed.

Lemma collectDocLines_above : forall n jsdocLines, n <= i ->
  collectDocLines lines n jsdocLines = collectDocLines lines' n jsdocLines /\
  fst (collectDocLines lines n jsdocLines) <= n.
Proof.
  induction n as [|k IH]; intros jsdocLines Hn; cbn [collectDocLines].
  - split; [reflexivity|cbn; lia].
  - rewrite <- (Hsame Hn).
    destruct (nth_error lines k) as [l|]; [|split; [reflexivity|cbn; lia]].
    destruct (negb (test REGEX_PATTERNS.JSDOC_START l)); [|split; [reflexivity|cbn; lia]].
    destruct (IH (l :: jsdocLines) ltac:(lia)) as [IH1 IH2]. split; [exact IH1|lia].
Qed.

Lemma extractJSDoc_above : extractJSDoc lines i = extractJSDoc lines' i.
Proof.
  unfold extractJSDoc.
  destruct (@scanToDocEnd_above i (le_n i)) as [Hscan Hbound]. rewrite <- Hscan.
  destruct (scanToDocEnd lines i) as [z|]; [|reflexivity].
  specialize (Hbound z eq_refl).
  assert (Hline : lineAt lines z = lineAt lines' z).
  { unfold lineAt. destruct (Z.ltb_spec z 0); [reflexivity|]. apply Hsame. lia. }
  rewrite <- Hline. destruct (lineAt lines z) as [lj|]; [|reflexivity].
  destruct (Z.leb_spec 0 z) as [Hz|Hz]; cbn [andb]; [|reflexivity].
  destruct (test REGEX_PATTERNS.JSDOC_END lj); [|reflexivity].
  destruct (@collectDocLines_above (S (Z.to_nat z)) [] ltac:(lia)) as [Hc Hk]. rewrite <- Hc.
  destruct (collectDocLines lines (S (Z.to_nat z)) []) as [k1 jsdocLines]. cbn [fst] in Hk.
  destruct k1 as [|k]; [reflexivity|].
  rewrite <- (@Hsame k ltac:(lia)). reflexivity.
Qed.

End Above.

(** X21: the documentation that extractJSDoc attaches to the declaration at
    a line depends only on the lines above that line: two line arrays that
    agree on their first functionLineIndex lines give the same result (or
    both fail). *)
Theorem extractJSDoc_reads_only_above (lines lines' : list str) (functionLineIndex : nat) :
  firstn functionLineIndex lines = firstn functionLineIndex lines' ->
  extractJSDoc lines functionLineIndex = extractJSDoc lines' functionLineIndex.
Proof.
  intros H. apply extractJSDoc_above. intros j Hj.
  rewrite <- (@nth_error_firstn_lt _ lines functionLineIndex j Hj).
  rewrite <- (@nth_error_firstn_lt _ lines' functionLineIndex j Hj).
  now rewrite H.
Qed.

Lemma extractJSDoc_reads_only_above_witness :
  extractJSDoc (map js ["/** Adds. */"; "function add(a, b) {"; "  return a + b"; "}"]%string) 1
  = extractJSDoc (map js ["/** Adds. */"; "function add(a, b) { return a + b }"]%string) 1.
Proof.
  apply (@extractJSDoc_reads_only_above
           (map js ["/** Adds. */"; "function add(a, b) {"; "  return a + b"; "}"]%string)
           (map js ["/** Adds. */"; "function add(a, b) { return a + b }"]%string) 1).
  reflexivity.
Defined.
